(** * HikeUp route planner: prompt parser, route builder and map adapter

    A shallow embedding of the logic of [apps/web/src/app/plan/page.tsx]:
    [parsePrompt], [buildRouteFromPrompt], [generateShape], [buildRoutine],
    [suggestDistance], [estimateTime], [buildRouteGeo] and the state update
    of [handleCoachPlan].

    JavaScript numbers are IEEE 754 binary64 values, strings are sequences
    of UTF-16 code units, and regular expressions are run by a backtracking
    matcher that follows the order of alternatives of the pattern. *)

From Stdlib Require Import String Ascii ZArith List Bool Lia DecimalString.
From Stdlib Require Import Floats.SpecFloat.
Import ListNotations.

Set Implicit Arguments.

(** ** Numbers: IEEE 754 binary64

    The carrier is the standard library's [spec_float] (sign, mantissa,
    exponent; zeros, infinities and NaN).  Every arithmetic operation is
    "the exact result, rounded to the nearest representable value, ties to
    even", which is what ECMAScript prescribes; the exact result is kept as
    a fraction of integers. *)

Module F64.

Local Open Scope Z_scope.

Definition number := spec_float.

Definition prec : Z := 53.
Definition emin : Z := -1074.
Definition emax : Z := 971.

(** [p2 k] is [2^k] for [k >= 0] and [1] otherwise, so that the rational
    [2^k] is [p2 k / p2 (-k)] for every integer [k]. *)
Definition p2 (k : Z) : Z := 2 ^ Z.max 0 k.

(** The fraction [(n/d) / 2^e]. *)
Definition shift_ratio (n d e : Z) : Z * Z := (n * p2 (- e), d * p2 e).

(** Nearest integer to [n/d], ties to even ([0 <= n], [0 < d]). *)
Definition rne (n d : Z) : Z :=
  let q := n / d in
  match 2 * (n mod d) ?= d with
  | Lt => q
  | Gt => q + 1
  | Eq => if Z.even q then q else q + 1
  end.

(** [ilog2 n d] is the integer [k] with [2^k <= n/d < 2^(k+1)]
    ([0 < n], [0 < d]). *)
Definition ilog2 (n d : Z) : Z :=
  let k := Z.log2 n - Z.log2 d in
  let '(n', d') := shift_ratio n d k in
  if d' <=? n' then k else k - 1.

(** Rounding of the non-negative fraction [n/d] with sign [s]: subnormal
    results keep the exponent [emin], results beyond the largest finite
    value become infinite. *)
Definition round_ratio (s : bool) (n d : Z) : number :=
  if n <=? 0 then S754_zero s
  else
    let e := Z.max (ilog2 n d - (prec - 1)) emin in
    let '(n', d') := shift_ratio n d e in
    let m := rne n' d' in
    let '(m1, e1) := if m =? 2 ^ prec then (2 ^ (prec - 1), e + 1) else (m, e) in
    match m1 with
    | Zpos p => if emax <? e1 then S754_infinity s else S754_finite s p e1
    | _ => S754_zero s
    end.

(** The value [m * 2^e] as a fraction. *)
Definition exact (m e : Z) : Z * Z := (m * p2 e, p2 (- e)).

Definition of_Z (z : Z) : number := round_ratio (z <? 0) (Z.abs z) 1.

(** A decimal literal [n * 10^(-k)], as the source text writes it. *)
Definition dec (n : Z) (k : Z) : number :=
  round_ratio (n <? 0) (Z.abs n) (10 ^ k).

Definition opp (x : number) : number :=
  match x with
  | S754_zero s => S754_zero (negb s)
  | S754_infinity s => S754_infinity (negb s)
  | S754_nan => S754_nan
  | S754_finite s m e => S754_finite (negb s) m e
  end.

Definition mul (x y : number) : number :=
  match x, y with
  | S754_nan, _ | _, S754_nan => S754_nan
  | S754_infinity _, S754_zero _ | S754_zero _, S754_infinity _ => S754_nan
  | S754_infinity sx, S754_infinity sy
  | S754_infinity sx, S754_finite sy _ _
  | S754_finite sx _ _, S754_infinity sy => S754_infinity (xorb sx sy)
  | S754_zero sx, S754_zero sy
  | S754_zero sx, S754_finite sy _ _
  | S754_finite sx _ _, S754_zero sy => S754_zero (xorb sx sy)
  | S754_finite sx mx ex, S754_finite sy my ey =>
      let '(n, d) := exact (Zpos mx * Zpos my) (ex + ey) in
      round_ratio (xorb sx sy) n d
  end.

Definition div (x y : number) : number :=
  match x, y with
  | S754_nan, _ | _, S754_nan => S754_nan
  | S754_infinity _, S754_infinity _ | S754_zero _, S754_zero _ => S754_nan
  | S754_infinity sx, S754_zero sy
  | S754_infinity sx, S754_finite sy _ _
  | S754_finite sx _ _, S754_zero sy => S754_infinity (xorb sx sy)
  | S754_zero sx, S754_infinity sy
  | S754_zero sx, S754_finite sy _ _
  | S754_finite sx _ _, S754_infinity sy => S754_zero (xorb sx sy)
  | S754_finite sx mx ex, S754_finite sy my ey =>
      let '(n, d) := shift_ratio (Zpos mx) (Zpos my) (ey - ex) in
      round_ratio (xorb sx sy) n d
  end.

(** The signed integer [z] with [x = z * 2^e] for a finite [x] whose
    exponent is at least [e]. *)
Definition scaled (s : bool) (m : positive) (ex e : Z) : Z :=
  let z := Zpos m * 2 ^ (ex - e) in if s then - z else z.

Definition add (x y : number) : number :=
  match x, y with
  | S754_nan, _ | _, S754_nan => S754_nan
  | S754_infinity sx, S754_infinity sy =>
      if Bool.eqb sx sy then x else S754_nan
  | S754_infinity _, _ => x
  | _, S754_infinity _ => y
  | S754_zero sx, S754_zero sy => S754_zero (sx && sy)
  | S754_zero _, S754_finite _ _ _ => y
  | S754_finite _ _ _, S754_zero _ => x
  | S754_finite sx mx ex, S754_finite sy my ey =>
      let e := Z.min ex ey in
      let z := scaled sx mx ex e + scaled sy my ey e in
      if z =? 0 then S754_zero false
      else let '(n, d) := exact (Z.abs z) e in round_ratio (z <? 0) n d
  end.

Definition sub (x y : number) : number := add x (opp y).

(** Comparison of the values; [None] when an operand is NaN. *)
Definition compare (x y : number) : option comparison :=
  match x, y with
  | S754_nan, _ | _, S754_nan => None
  | S754_infinity sx, S754_infinity sy =>
      Some (if sx then (if sy then Eq else Lt) else (if sy then Gt else Eq))
  | S754_infinity sx, _ => Some (if sx then Lt else Gt)
  | _, S754_infinity sy => Some (if sy then Gt else Lt)
  | S754_zero _, S754_zero _ => Some Eq
  | S754_zero _, S754_finite sy _ _ => Some (if sy then Gt else Lt)
  | S754_finite sx _ _, S754_zero _ => Some (if sx then Lt else Gt)
  | S754_finite sx mx ex, S754_finite sy my ey =>
      let e := Z.min ex ey in
      Some (scaled sx mx ex e ?= scaled sy my ey e)
  end.

(** [x < y], [x <= y] and [x > y] of the language: false on NaN. *)
Definition ltb (x y : number) : bool :=
  match compare x y with Some Lt => true | _ => false end.
Definition leb (x y : number) : bool :=
  match compare x y with Some Lt | Some Eq => true | _ => false end.
Definition gtb (x y : number) : bool := ltb y x.

(** [Math.round]: the integer closest to [x], ties towards +infinity;
    integers, infinities and NaN are returned unchanged, and a result of
    zero keeps the sign of [x]. *)
Definition Math_round (x : number) : number :=
  match x with
  | S754_finite s m e =>
      if 0 <=? e then x
      else
        let z := if s then - Zpos m else Zpos m in
        let r := (2 * z + 2 ^ (- e)) / 2 ^ (- e + 1) in
        if r =? 0 then S754_zero s else of_Z r
  | _ => x
  end.

(** [Math.min] and [Math.max]: NaN when an operand is NaN, and the zero
    of the fitting sign when both operands are zeros. *)
Definition Math_min (x y : number) : number :=
  match compare x y with
  | None => S754_nan
  | Some Lt => x
  | Some Gt => y
  | Some Eq =>
      match x, y with
      | S754_zero sx, S754_zero sy => S754_zero (sx || sy)
      | _, _ => x
      end
  end.

Definition Math_max (x y : number) : number :=
  match compare x y with
  | None => S754_nan
  | Some Lt => y
  | Some Gt => x
  | Some Eq =>
      match x, y with
      | S754_zero sx, S754_zero sy => S754_zero (sx && sy)
      | _, _ => x
      end
  end.

(** *** Properties of numbers used in the statements *)

(** [n/d >= 2^k] *)
Definition ge_pow2 (n d k : Z) : Prop := d * p2 k <= n * p2 (- k).

(** The mantissa and exponent of a binary64 value in its one normal form:
    53 significant bits, or fewer at the smallest exponent. *)
Definition canonical_me (m e : Z) : Prop :=
  (2 ^ 52 <= m < 2 ^ 53 /\ emin <= e <= emax) \/ (0 < m < 2 ^ 52 /\ e = emin).

Definition canonical (x : number) : Prop :=
  match x with
  | S754_finite _ m e => canonical_me (Zpos m) e
  | _ => True
  end.

(** [x] is within half a unit of its last place of the fraction [n/d] with
    sign [s]: [|m * 2^e - n/d| <= 2^e / 2] for a finite [x]; a zero stands
    for at most half of the smallest positive value, an infinity for at
    least the largest finite value plus half a unit of its last place. *)
Definition within_half_ulp (x : number) (s : bool) (n d : Z) : Prop :=
  match x with
  | S754_zero s' => s' = s /\ 2 * n * 2 ^ 1074 <= d
  | S754_infinity s' => s' = s /\ (2 ^ 54 - 1) * 2 ^ 970 * d <= n
  | S754_finite s' m e =>
      s' = s /\ 2 * Z.abs (Zpos m * (d * p2 e) - n * p2 (- e)) <= d * p2 e
  | S754_nan => False
  end.

(** [x] equals the fraction [n/d] within floating-point tolerance. *)
Definition nearest (x : number) (s : bool) (n d : Z) : Prop :=
  canonical x /\ within_half_ulp x s n d.

End F64.

(** ** Strings: sequences of UTF-16 code units *)

Module JS.

Local Open Scope N_scope.

Abbreviation code_unit := N (only parsing).
Abbreviation jsstring := (list N) (only parsing).

(** String literals of this file are written as UTF-8 text; [js] decodes
    them into code units (one, two and three byte sequences, which cover
    every literal of the program). *)
Fixpoint utf8_decode (bs : list N) : jsstring :=
  match bs with
  | [] => []
  | b0 :: r0 =>
      if b0 <? 128 then b0 :: utf8_decode r0
      else if b0 <? 224 then
        match r0 with
        | b1 :: r1 =>
            N.lor (N.shiftl (N.land b0 31) 6) (N.land b1 63) :: utf8_decode r1
        | [] => [b0]
        end
      else
        match r0 with
        | b1 :: b2 :: r2 =>
            N.lor (N.shiftl (N.land b0 15) 12)
              (N.lor (N.shiftl (N.land b1 63) 6) (N.land b2 63))
            :: utf8_decode r2
        | _ => b0 :: r0
        end
  end.

Definition js (s : string) : jsstring :=
  utf8_decode (map N_of_ascii (list_ascii_of_string s)).

Definition is_digit (c : code_unit) : bool := (48 <=? c) && (c <=? 57).

(** White space and line terminators of ECMAScript: the class [\s] of
    regular expressions and the characters removed by [trim]. *)
Definition is_space (c : code_unit) : bool :=
  ((9 <=? c) && (c <=? 13)) || (c =? 32) || (c =? 160) || (c =? 5760)
  || ((8192 <=? c) && (c <=? 8202)) || (c =? 8232) || (c =? 8233)
  || (c =? 8239) || (c =? 8287) || (c =? 12288) || (c =? 65279).

Fixpoint starts_with (t s : jsstring) : bool :=
  match t, s with
  | [], _ => true
  | _ :: _, [] => false
  | a :: t', b :: s' => (a =? b) && starts_with t' s'
  end.

(** [s.includes(t)] *)
Fixpoint includes (s t : jsstring) : bool :=
  starts_with t s || match s with [] => false | _ :: s' => includes s' t end.

(** [s.replace(pat, rep)] with a string pattern: the first occurrence only. *)
Fixpoint replace (s pat rep : jsstring) : jsstring :=
  if starts_with pat s then rep ++ skipn (length pat) s
  else match s with [] => [] | c :: s' => c :: replace s' pat rep end.

Fixpoint trimStart (s : jsstring) : jsstring :=
  match s with
  | c :: s' => if is_space c then trimStart s' else s
  | [] => []
  end.

(** [s.trim()] *)
Definition trim (s : jsstring) : jsstring :=
  rev (trimStart (rev (trimStart s))).

(** The leading run of decimal digits and what follows it. *)
Fixpoint span_digits (s : jsstring) : jsstring * jsstring :=
  match s with
  | c :: s' =>
      if is_digit c then let '(ds, r) := span_digits s' in (c :: ds, r)
      else ([], s)
  | [] => ([], [])
  end.

Definition digits_value (ds : jsstring) : Z :=
  fold_left (fun acc c => (10 * acc + (Z.of_N c - 48))%Z) ds 0%Z.

(** An optional sign: whether it is a minus, and what follows it. *)
Definition sign_prefix (s : jsstring) : bool * jsstring :=
  match s with
  | c :: t =>
      if c =? 43 then (false, t) else if c =? 45 then (true, t) else (false, s)
  | [] => (false, s)
  end.

(** The optional exponent part [e], [e+] or [e-] followed by digits. *)
Definition exponent_part (s : jsstring) : Z :=
  match s with
  | c :: r =>
      if (c =? 101) || (c =? 69) then
        let '(neg, r') := sign_prefix r in
        match span_digits r' with
        | ([], _) => 0%Z
        | (ds, _) => if neg then (- digits_value ds)%Z else digits_value ds
        end
      else 0%Z
  | [] => 0%Z
  end.

(** [parseFloat(s)]: leading white space is skipped and the longest prefix
    that is a decimal literal is converted to the nearest number; NaN when
    there is none. *)
Definition parseFloat (s : jsstring) : F64.number :=
  let '(neg, s1) := sign_prefix (trimStart s) in
  if starts_with (js "Infinity") s1 then S754_infinity neg
  else
    let '(ip, r1) := span_digits s1 in
    let '(fp, r2) :=
      match r1 with
      | c :: t => if c =? 46 then span_digits t else ([], r1)
      | [] => ([], r1)
      end in
    match ip ++ fp with
    | [] => S754_nan
    | ds =>
        let ex := (exponent_part r2 - Z.of_nat (List.length fp))%Z in
        F64.round_ratio neg (digits_value ds * 10 ^ Z.max 0 ex)%Z
          (10 ^ Z.max 0 (- ex))%Z
    end.

(** *** Regular expressions

    A backtracking matcher in continuation-passing style: alternatives are
    tried left to right and a quantifier takes as many iterations as it
    can before it gives one back, as the language specifies. *)

Inductive regex : Type :=
| Empty
| Class (p : code_unit -> bool)
| Seq (r1 r2 : regex)
| Alt (r1 r2 : regex)
| Star (r : regex)
| Group (i : nat) (r : regex).

Definition Plus (r : regex) : regex := Seq r (Star r).
Definition Opt (r : regex) : regex := Alt r Empty.
Definition Chr (c : code_unit) : regex := Class (N.eqb c).
Fixpoint Lit (s : jsstring) : regex :=
  match s with
  | [] => Empty
  | c :: s' => Seq (Chr c) (Lit s')
  end.

(** The text of the capture groups that took part in the match. *)
Abbreviation captures := (list (nat * list N)) (only parsing).

Definition capture (i : nat) (c : captures) : option jsstring :=
  match find (fun e => Nat.eqb (fst e) i) c with
  | Some e => Some (snd e)
  | None => None
  end.

(** What was consumed between the input [s] and its suffix [s']. *)
Definition consumed (s s' : jsstring) : jsstring :=
  firstn (length s - length s') s.

(** The iterations of a quantifier: one more round of [body] that consumes
    input and then the rest of the iterations, or else the continuation.
    [fuel] bounds the number of rounds; the length of the input is enough
    since every round consumes at least one code unit. *)
Fixpoint star_loop (A : Type)
    (body : jsstring -> captures -> (jsstring -> captures -> option A) -> option A)
    (k : jsstring -> captures -> option A)
    (fuel : nat) (s : jsstring) (c : captures) : option A :=
  match fuel with
  | O => k s c
  | S fuel' =>
      match body s c (fun s' c' =>
              if Nat.ltb (List.length s') (List.length s)
              then star_loop body k fuel' s' c' else None) with
      | Some a => Some a
      | None => k s c
      end
  end.

Fixpoint rmatch (A : Type) (r : regex) (s : jsstring) (c : captures)
    (k : jsstring -> captures -> option A) : option A :=
  match r with
  | Empty => k s c
  | Class p =>
      match s with
      | a :: s' => if p a then k s' c else None
      | [] => None
      end
  | Seq r1 r2 => rmatch r1 s c (fun s' c' => rmatch r2 s' c' k)
  | Alt r1 r2 =>
      match rmatch r1 s c k with
      | Some a => Some a
      | None => rmatch r2 s c k
      end
  | Star r' => star_loop (rmatch r') k (List.length s) s c
  | Group i r' => rmatch r' s c (fun s' c' => k s' ((i, consumed s s') :: c'))
  end.

(** [s.match(r)] for a pattern without the global flag: the match that
    starts leftmost; the result holds the captures. *)
Fixpoint exec (r : regex) (s : jsstring) : option captures :=
  match rmatch r s [] (fun _ c => Some c) with
  | Some c => Some c
  | None => match s with [] => None | _ :: s' => exec r s' end
  end.

End JS.

Import F64 JS.

(** ** The built-in operations that are taken as given

    [String.prototype.toLowerCase] depends on the Unicode case tables and
    the conversion of a number to text on the shortest-digits algorithm of
    the engine; both are parameters of the development. *)

Class Runtime : Type := {
  toLowerCase : jsstring -> jsstring;
  Number_toString : number -> jsstring
}.

(** ** Data model *)

Inductive Mode : Type := run | jog | walk | hike.

Inductive TrainingIntent : Type := easy | tempo | intervals | trail.

Definition Mode_eqb (a b : Mode) : bool :=
  match a, b with
  | run, run | jog, jog | walk, walk | hike, hike => true
  | _, _ => false
  end.

(** The text of a mode inside a template literal. *)
Definition Mode_text (m : Mode) : jsstring :=
  match m with
  | run => js "run"
  | jog => js "jog"
  | walk => js "walk"
  | hike => js "hike"
  end.

Fixpoint jsstring_eqb (a b : jsstring) : bool :=
  match a, b with
  | [], [] => true
  | x :: a', y :: b' => N.eqb x y && jsstring_eqb a' b'
  | _, _ => false
  end.

Module Point.
Record t : Type := make { x : number; y : number; label : option jsstring }.
End Point.

Module RouteOption.
Record t : Type := make {
  id : jsstring;
  title : jsstring;
  distanceKm : number;
  safety : jsstring;
  elevation : jsstring;
  estMinutes : number;
  surface : jsstring;
  points : list Point.t
}.
End RouteOption.

Module RoutineItem.
Record t : Type := make { step : jsstring; detail : jsstring }.
End RoutineItem.

(** [Record<Mode, A>]: an object with one property for each mode. *)
Module ByMode.
Record t (A : Type) : Type := make { at_run : A; at_jog : A; at_walk : A; at_hike : A }.

Definition get (A : Type) (r : t A) (m : Mode) : A :=
  match m with
  | run => at_run r
  | jog => at_jog r
  | walk => at_walk r
  | hike => at_hike r
  end.

(** [{ ...r, [m]: v }] *)
Definition set (A : Type) (r : t A) (m : Mode) (v : A) : t A :=
  match m with
  | run => make v (at_jog r) (at_walk r) (at_hike r)
  | jog => make (at_run r) v (at_walk r) (at_hike r)
  | walk => make (at_run r) (at_jog r) v (at_hike r)
  | hike => make (at_run r) (at_jog r) (at_walk r) v
  end.
End ByMode.

(** The value returned by [parsePrompt]. *)
Module Parsed.
Record t : Type := make {
  mode : Mode;
  distanceKm : option number;
  focus : jsstring;
  intent : TrainingIntent
}.
End Parsed.

(** The part of the state of [PlanPage] that the planner reads and writes;
    the display-only pieces (coach note, panel flags) are left out. *)
Module PlanState.
Record t : Type := make {
  mode : Mode;
  customRoutes : ByMode.t (list RouteOption.t);
  activeRouteId : jsstring;
  routine : list RoutineItem.t;
  currentStepIndex : nat
}.
End PlanState.

(** The user actions that change that state. *)
Inductive Event : Type :=
| CoachPlan (coachPrompt : jsstring)
| SelectMode (m : Mode)
| SelectRoute (id : jsstring)
| StepChange (i : nat).

(** What [buildRouteGeo] hands to the map. *)
Module Feature.
Record t : Type := make {
  coordinates : number * number;
  label : jsstring;
  kind : jsstring
}.
End Feature.

Module RouteGeo.
Record t : Type := make {
  line : list (number * number);
  line_title : jsstring;
  points : list Feature.t;
  sw : number * number;
  ne : number * number
}.
End RouteGeo.

Definition pt (px py : Z) (l : option jsstring) : Point.t :=
  Point.make (of_Z px) (of_Z py) l.

Definition baseRoutes : ByMode.t (list RouteOption.t) :=
  ByMode.make
    [ RouteOption.make (js "run-quick") (js "Ritmo estable") (dec 84 1)
        (js "Zonas iluminadas · Bajo tráfico") (js "+64 m") (of_Z 44)
        (js "Asfalto + parque")
        [ pt 12 84 (Some (js "Inicio")); pt 36 60 (Some (js "x km"));
          pt 66 44 None; pt 88 18 (Some (js "Fin")) ];
      RouteOption.make (js "run-scenic") (js "Escénica") (dec 92 1)
        (js "Parques y ciclorruta") (js "+92 m") (of_Z 49)
        (js "Verde + mixto")
        [ pt 10 86 (Some (js "Inicio")); pt 32 64 None;
          pt 56 54 (Some (js "Mirador")); pt 80 24 (Some (js "Fin")) ] ]
    [ RouteOption.make (js "jog-soft") (js "Suave y seguro") (dec 60 1)
        (js "Parques y aceras amplias") (js "+40 m") (of_Z 40)
        (js "Parque")
        [ pt 14 84 (Some (js "Inicio")); pt 40 62 None;
          pt 64 56 (Some (js "Pausa agua")); pt 86 30 (Some (js "Fin")) ] ]
    [ RouteOption.make (js "walk-daily") (js "Caminata diaria") (dec 40 1)
        (js "Alta iluminación") (js "+18 m") (of_Z 48)
        (js "Ciudad")
        [ pt 16 84 (Some (js "Inicio")); pt 38 70 None;
          pt 60 60 None; pt 82 34 (Some (js "Fin")) ] ]
    [ RouteOption.make (js "hike-green") (js "Sendero verde") (dec 113 1)
        (js "Terreno mixto") (js "+240 m") (of_Z 92)
        (js "Trail")
        [ pt 18 86 (Some (js "Inicio")); pt 42 70 (Some (js "Bosque"));
          pt 64 54 None; pt 78 36 (Some (js "Cima"));
          pt 90 20 (Some (js "Fin")) ] ].

Definition defaultRoutine : list RoutineItem.t :=
  [ RoutineItem.make (js "Calentamiento") (js "8 min movilidad + 5 min trote suave");
    RoutineItem.make (js "Bloque") (js "4 x 1 km a ritmo 5:10/km (rec 2 min)");
    RoutineItem.make (js "Enfriar") (js "8 min trote suave + estiramientos") ].

Definition MAP_CENTER : number * number := (dec (-74042) 3, dec 46946 4).

(** ** Prompt parser *)

Definition is_sep (c : code_unit) : bool := (c =? 46)%N || (c =? 44)%N.
Definition is_o (c : code_unit) : bool := (c =? 111)%N || (c =? 243)%N.

(** [\d+(?:[.,]\d+)?] *)
Definition number_re : regex :=
  Seq (Plus (Class is_digit))
      (Opt (Seq (Class is_sep) (Plus (Class is_digit)))).

(** [km|k|kil[oó]metros] *)
Definition km_units : regex :=
  Alt (Lit (js "km"))
      (Alt (Lit (js "k"))
           (Seq (Lit (js "kil")) (Seq (Class is_o) (Lit (js "metros"))))).

(** [mi|millas] *)
Definition mi_units : regex := Alt (Lit (js "mi")) (Lit (js "millas")).

(** [/(\d+(?:[.,]\d+)?)(?:\s*(km|k|kil[oó]metros))/] *)
Definition km_re : regex :=
  Seq (Group 1 number_re) (Seq (Star (Class is_space)) (Group 2 km_units)).

(** [/(\d+(?:[.,]\d+)?)(?:\s*(mi|millas))/] *)
Definition mi_re : regex :=
  Seq (Group 1 number_re) (Seq (Star (Class is_space)) (Group 2 mi_units)).

(** [m[1]] of a successful match; the group always takes part. *)
Definition group1 (c : captures) : jsstring :=
  match capture 1 c with Some t => t | None => [] end.

(** *** Exceptions

    The outcome of an evaluation that can throw: its value, or the
    TypeError of a method call on [undefined]. *)
Inductive completion (A : Type) : Type :=
| Normal (a : A)
| TypeError.

Arguments TypeError {A}.

Definition bind (A B : Type) (c : completion A) (f : A -> completion B) : completion B :=
  match c with
  | Normal a => f a
  | TypeError => TypeError
  end.

(** [m[1].replace(",", ".")] of a match [m]: [m[1]] is [undefined] when
    group 1 took no part in the match, and the call of [replace] on
    [undefined] throws. *)
Definition group1_replace (m : captures) : completion jsstring :=
  match capture 1 m with
  | Some t => Normal (replace t (js ",") (js "."))
  | None => TypeError
  end.

Section Planner.

Context {RT : Runtime}.

Definition parsePrompt (prompt : jsstring) (currentMode : Mode) : Parsed.t :=
  let lower := toLowerCase prompt in
  let kmMatch := exec km_re lower in
  let miMatch := exec mi_re lower in
  let distanceKm :=
    match kmMatch with
    | Some m => Some (parseFloat (replace (group1 m) (js ",") (js ".")))
    | None =>
        match miMatch with
        | Some m =>
            Some (mul (parseFloat (replace (group1 m) (js ",") (js ".")))
                      (dec 1609 3))
        | None => None
        end
    end in
  let mode := currentMode in
  let mode := if includes lower (js "caminar") then walk else mode in
  let mode := if includes lower (js "trot") then jog else mode in
  let mode :=
    if includes lower (js "trail") || includes lower (js "sendero")
    then hike else mode in
  let mode :=
    if includes lower (js "correr") || includes lower (js "rápido")
       || includes lower (js "interval")
    then run else mode in
  let intent :=
    if includes lower (js "interval") || includes lower (js "series")
    then intervals
    else if includes lower (js "tempo") || includes lower (js "ritmo")
    then tempo
    else if includes lower (js "trail") || includes lower (js "desnivel")
    then trail
    else easy in
  let focus :=
    if includes lower (js "parque") then js "Parques"
    else if includes lower (js "ilumin") then js "Iluminación alta"
    else if includes lower (js "tráfico") then js "Tráfico bajo"
    else match intent with
         | trail => js "Terreno mixto"
         | _ => js "Ruta equilibrada"
         end in
  Parsed.make mode distanceKm focus intent.

(** The evaluation of [parsePrompt] with its exceptions: the statements of
    the source in their order.  [toLowerCase], [match], [includes] and
    [parseFloat] are applied to strings and do not throw; the two calls
    [m[1].replace(...)] throw when [m[1]] is [undefined]. *)
Definition parsePrompt_completion (prompt : jsstring) (currentMode : Mode)
    : completion Parsed.t :=
  let lower := toLowerCase prompt in
  let kmMatch := exec km_re lower in
  let miMatch := exec mi_re lower in
  bind
    (match kmMatch with
     | Some m =>
         bind (group1_replace m) (fun t => Normal (Some (parseFloat t)))
     | None =>
         match miMatch with
         | Some m =>
             bind (group1_replace m)
               (fun t => Normal (Some (mul (parseFloat t) (dec 1609 3))))
         | None => Normal None
         end
     end)
    (fun distanceKm =>
       let mode := currentMode in
       let mode := if includes lower (js "caminar") then walk else mode in
       let mode := if includes lower (js "trot") then jog else mode in
       let mode :=
         if includes lower (js "trail") || includes lower (js "sendero")
         then hike else mode in
       let mode :=
         if includes lower (js "correr") || includes lower (js "rápido")
            || includes lower (js "interval")
         then run else mode in
       let intent :=
         if includes lower (js "interval") || includes lower (js "series")
         then intervals
         else if includes lower (js "tempo") || includes lower (js "ritmo")
         then tempo
         else if includes lower (js "trail") || includes lower (js "desnivel")
         then trail
         else easy in
       let focus :=
         if includes lower (js "parque") then js "Parques"
         else if includes lower (js "ilumin") then js "Iluminación alta"
         else if includes lower (js "tráfico") then js "Tráfico bajo"
         else match intent with
              | trail => js "Terreno mixto"
              | _ => js "Ruta equilibrada"
              end in
       Normal (Parsed.make mode distanceKm focus intent)).

(** ** Route builder *)

Definition estimateTime (distanceKm : number) (mode : Mode) : number :=
  let pace :=
    match mode with
    | walk => dec 115 1
    | jog => dec 65 1
    | hike => dec 105 1
    | run => dec 52 1
    end in
  Math_round (div (mul distanceKm pace) (dec 10 1)).

Definition suggestDistance (mode : Mode) : number :=
  match mode with
  | walk => dec 45 1
  | jog => dec 65 1
  | hike => dec 105 1
  | run => dec 80 1
  end.

(** [a.splice(start, 0, item)]: [item] is inserted before index [start],
    at the end when [start] is beyond the last index. *)
Definition splice_insert (A : Type) (a : list A) (start : nat) (item : A) : list A :=
  firstn start a ++ item :: skipn start a.

(** [a[i] = v] for an index inside the array.  Writes outside of it, which
    would add a property or leave holes, do not occur in this program and
    leave the list as it is here. *)
Fixpoint array_set (A : Type) (a : list A) (i : Z) (v : A) : list A :=
  match a with
  | [] => []
  | h :: t => if (i =? 0)%Z then v :: t else h :: array_set t (i - 1)%Z v
  end.

Definition generateShape (distanceKm : number) : list Point.t :=
  let base :=
    [ pt 12 86 (Some (js "Inicio")); pt 36 64 None; pt 58 50 None;
      pt 82 26 (Some (js "Fin")) ] in
  let base :=
    if gtb distanceKm (of_Z 9) then
      let base := splice_insert base 2 (pt 48 56 (Some (js "Punto"))) in
      array_set base (Z.of_nat (List.length base) - 1) (pt 86 18 (Some (js "Fin")))
    else base in
  let base :=
    if gtb distanceKm (of_Z 12) then
      splice_insert base 1 (pt 26 74 (Some (js "Extra")))
    else base in
  base.

Definition buildRouteFromPrompt (distanceKm : number) (mode : Mode)
    (focus : jsstring) : RouteOption.t :=
  let estMinutes := estimateTime distanceKm mode in
  RouteOption.make
    (js "coach-" ++ Mode_text mode ++ js "-"
       ++ Number_toString (Math_round (mul distanceKm (of_Z 10))))
    (js "Coach: " ++ focus)
    distanceKm
    focus
    (match mode with
     | hike => js "+200 m"
     | run => js "+80 m"
     | _ => js "+40 m"
     end)
    estMinutes
    (match mode with hike => js "Trail" | _ => focus end)
    (generateShape distanceKm).

Definition buildRoutine (intent : TrainingIntent) : list RoutineItem.t :=
  match intent with
  | intervals =>
      [ RoutineItem.make (js "Calentamiento") (js "12 min movilidad + 8 min trote");
        RoutineItem.make (js "Series") (js "6 x 600 m rápido (rec 90s trote)");
        RoutineItem.make (js "Progresivo") (js "2 km subiendo ritmo");
        RoutineItem.make (js "Enfriar") (js "10 min trote + estiramientos") ]
  | tempo =>
      [ RoutineItem.make (js "Calentamiento") (js "10 min trote + técnica de carrera");
        RoutineItem.make (js "Tempo") (js "20 min a ritmo controlado");
        RoutineItem.make (js "Bloque") (js "2 x 1 km a ritmo de 10K");
        RoutineItem.make (js "Enfriar") (js "8 min trote + movilidad") ]
  | trail =>
      [ RoutineItem.make (js "Calentamiento") (js "12 min movilidad + subidas suaves");
        RoutineItem.make (js "Bloque") (js "4 km subida controlada");
        RoutineItem.make (js "Técnico") (js "3 km bajada con pasos cortos");
        RoutineItem.make (js "Enfriar") (js "10 min caminata plana") ]
  | easy =>
      [ RoutineItem.make (js "Calentamiento") (js "8 min movilidad + 5 min trote suave");
        RoutineItem.make (js "Bloque") (js "20-30 min ritmo conversacional");
        RoutineItem.make (js "Strides") (js "4 x 20s aceleración suave");
        RoutineItem.make (js "Enfriar") (js "8 min trote suave + estiramientos") ]
  end.

Definition first_id (l : list RouteOption.t) : jsstring :=
  match l with
  | r :: _ => RouteOption.id r
  | [] => []
  end.

Definition initialState : PlanState.t :=
  PlanState.make run (ByMode.make [] [] [] [])
    (first_id (ByMode.get baseRoutes run)) defaultRoutine 0.

(** [routes]: the catalogue of the mode, then the coach-made routes. *)
Definition routes (st : PlanState.t) : list RouteOption.t :=
  ByMode.get baseRoutes (PlanState.mode st)
    ++ ByMode.get (PlanState.customRoutes st) (PlanState.mode st).

Definition activeRoute (st : PlanState.t) : option RouteOption.t :=
  match find (fun r => jsstring_eqb (RouteOption.id r) (PlanState.activeRouteId st))
          (routes st) with
  | Some r => Some r
  | None => hd_error (routes st)
  end.

Definition handleCoachPlan (coachPrompt : jsstring) (st : PlanState.t) : PlanState.t :=
  let prompt := trim coachPrompt in
  match prompt with
  | [] => st
  | _ :: _ =>
      let parsed := parsePrompt prompt (PlanState.mode st) in
      let distanceKm :=
        match Parsed.distanceKm parsed with
        | Some d => d
        | None => suggestDistance (Parsed.mode parsed)
        end in
      let newRoute :=
        buildRouteFromPrompt distanceKm (Parsed.mode parsed) (Parsed.focus parsed) in
      let list := ByMode.get (PlanState.customRoutes st) (Parsed.mode parsed) in
      PlanState.make
        (Parsed.mode parsed)
        (ByMode.set (PlanState.customRoutes st) (Parsed.mode parsed)
           (filter (fun r => negb (jsstring_eqb (RouteOption.id r)
                                                 (RouteOption.id newRoute))) list
            ++ [newRoute]))
        (RouteOption.id newRoute)
        (buildRoutine (Parsed.intent parsed))
        0
  end.

(** The mode buttons: the active route becomes the first one of the mode. *)
Definition selectMode (m : Mode) (st : PlanState.t) : PlanState.t :=
  let first :=
    first_id (ByMode.get baseRoutes m ++ ByMode.get (PlanState.customRoutes st) m) in
  PlanState.make m (PlanState.customRoutes st)
    (match first with [] => PlanState.activeRouteId st | _ :: _ => first end)
    (PlanState.routine st) (PlanState.currentStepIndex st).

Definition selectRoute (id : jsstring) (st : PlanState.t) : PlanState.t :=
  PlanState.make (PlanState.mode st) (PlanState.customRoutes st) id
    (PlanState.routine st) 0.

Definition stepChange (i : nat) (st : PlanState.t) : PlanState.t :=
  PlanState.make (PlanState.mode st) (PlanState.customRoutes st)
    (PlanState.activeRouteId st) (PlanState.routine st) i.

Definition step (st : PlanState.t) (ev : Event) : PlanState.t :=
  match ev with
  | CoachPlan p => handleCoachPlan p st
  | SelectMode m => selectMode m st
  | SelectRoute id => selectRoute id st
  | StepChange i => stepChange i st
  end.

(** The state after a sequence of user actions on a fresh page. *)
Definition after (evs : list Event) : PlanState.t :=
  fold_left step evs initialState.

(** ** Map adapter *)

(** [a.map((v, idx) => f(v, idx))] *)
Fixpoint mapi_from (A B : Type) (f : A -> nat -> B) (i : nat) (a : list A) : list B :=
  match a with
  | [] => []
  | v :: t => f v i :: mapi_from f (S i) t
  end.

Definition mapi (A B : Type) (f : A -> nat -> B) (a : list A) : list B :=
  mapi_from f 0 a.

Definition toCoord (p : Point.t) : number * number :=
  let lngOffset := mul (sub (Point.x p) (of_Z 50)) (dec 75 5) in
  let latOffset := mul (sub (of_Z 50) (Point.y p)) (dec 75 5) in
  (add (fst MAP_CENTER) lngOffset, add (snd MAP_CENTER) latOffset).

(** [None] stands for the exception thrown on a route without points,
    whose [coords[0]] is [undefined] and cannot be spread. *)
Definition buildRouteGeo (route : RouteOption.t) : option RouteGeo.t :=
  let coords := map toCoord (RouteOption.points route) in
  match coords with
  | [] => None
  | c0 :: _ =>
      let bounds :=
        fold_left
          (fun acc c =>
             ((Math_min (fst (fst acc)) (fst c), Math_min (snd (fst acc)) (snd c)),
              (Math_max (fst (snd acc)) (fst c), Math_max (snd (snd acc)) (snd c))))
          coords (c0, c0) in
      let last := (List.length coords - 1)%nat in
      let features :=
        mapi
          (fun coord idx =>
             Feature.make coord
               (match nth_error (RouteOption.points route) idx with
                | Some {| Point.label := Some l |} => l
                | _ =>
                    if Nat.eqb idx 0 then js "Inicio"
                    else if Nat.eqb idx last then js "Fin"
                    else js "P" ++ Number_toString (of_Z (Z.of_nat idx + 1))
                end)
               (if Nat.eqb idx 0 then js "start"
                else if Nat.eqb idx last then js "end"
                else js "mid"))
          coords in
      Some (RouteGeo.make coords (RouteOption.title route) features
              (fst bounds) (snd bounds))
  end.

End Planner.

(** * Vocabulary of the statements

    What the theorems below talk about: which texts are numbers, where a
    number stands in a prompt, when a number is close to a fraction, and
    the direct description of what the two distance patterns match. *)

Unset Implicit Arguments.

(** ** Texts *)

Definition all_of (p : code_unit -> bool) (s : jsstring) : Prop :=
  Forall (fun c => p c = true) s.

(** [s] does not start with a code unit of the class [p]. *)
Definition no_head (p : code_unit -> bool) (s : jsstring) : Prop :=
  match s with a :: _ => p a = false | [] => True end.

(** The longest prefix of [s] in the class [p], and what follows it. *)
Fixpoint take (p : code_unit -> bool) (s : jsstring) : jsstring :=
  match s with
  | a :: s' => if p a then a :: take p s' else []
  | [] => []
  end.

Fixpoint skip (p : code_unit -> bool) (s : jsstring) : jsstring :=
  match s with
  | a :: s' => if p a then skip p s' else s
  | [] => []
  end.

(** [t] occurs in [s]. *)
Definition contains (s t : jsstring) : Prop := exists pre post, s = pre ++ t ++ post.

(** The words [parsePrompt] looks for. *)
Definition keywords : list jsstring :=
  [ js "caminar"; js "trot"; js "trail"; js "sendero"; js "correr";
    js "rápido"; js "interval"; js "series"; js "tempo"; js "ritmo";
    js "desnivel"; js "parque"; js "ilumin"; js "tráfico" ].

(** ** Numbers in a text *)

(** Digits, or digits, a dot or a comma, and digits. *)
Inductive number_text : jsstring -> Prop :=
| number_int ds :
    ds <> [] -> all_of is_digit ds -> number_text ds
| number_frac ds b fs :
    ds <> [] -> all_of is_digit ds -> is_sep b = true ->
    fs <> [] -> all_of is_digit fs -> number_text (ds ++ b :: fs).

(** The fraction a number text writes: numerator and denominator. *)
Definition decimal_value (cap : jsstring) : Z * Z :=
  let '(ip, r) := span_digits cap in
  match r with
  | _ :: fp => (digits_value (ip ++ fp), 10 ^ Z.of_nat (List.length fp))%Z
  | [] => (digits_value ip, 1%Z)
  end.

(** The number a number text denotes: the binary64 value nearest to its
    fraction. *)
Definition decimal_number (cap : jsstring) : number :=
  round_ratio false (fst (decimal_value cap)) (snd (decimal_value cap)).

Definition km_unit (u : jsstring) : Prop :=
  u = js "km" \/ u = js "k" \/ u = js "kilómetros" \/ u = js "kilometros".

Definition mi_unit (u : jsstring) : Prop :=
  u = js "mi" \/ u = js "millas".

(** [number_before units pre cap s]: the text [s] holds, after the prefix
    [pre], the number [cap], then white space (possibly none), then one of
    the [units]. *)
Definition number_before (units : jsstring -> Prop) (pre cap s : jsstring) : Prop :=
  exists ws u post,
    s = pre ++ cap ++ ws ++ u ++ post /\ number_text cap /\ all_of is_space ws
    /\ units u.

(** No number followed by one of the [units] starts before the end of [pre]. *)
Definition leftmost (units : jsstring -> Prop) (pre s : jsstring) : Prop :=
  forall pre' cap', number_before units pre' cap' s ->
    (List.length pre <= List.length pre')%nat.

(** ** What the distance patterns match

    A pattern [number, white space, unit] matches at the start of [s]
    exactly when the scan below succeeds; [first_scan] is the leftmost
    success.  The equivalence with the matcher is [exec_first_scan]. *)

Definition k0 : jsstring -> captures -> option captures := fun _ c => Some c.

(** The continuation [k] fails on every input that starts in the class [p]. *)
Definition rejects (A : Type) (p : code_unit -> bool)
    (k : jsstring -> captures -> option A) : Prop :=
  forall a s c, p a = true -> k (a :: s) c = None.

(** What the iterations of a class compute once the fuel covers the input
    ([star_loop_class]): one more code unit of the class if the rest then
    succeeds, and the continuation otherwise. *)
Fixpoint star_class_form (A : Type) (p : code_unit -> bool)
    (k : jsstring -> captures -> option A) (s : jsstring) (c : captures) : option A :=
  match s with
  | a :: s' =>
      if p a then
        match star_class_form A p k s' c with
        | Some r => Some r
        | None => k s c
        end
      else k s c
  | [] => k s c
  end.

Definition after_number (s : jsstring) : option jsstring :=
  match s with
  | a :: s' =>
      if is_digit a then
        let r1 := skip is_digit s' in
        Some (match r1 with
              | b :: d :: r2 =>
                  if is_sep b && is_digit d then skip is_digit r2 else r1
              | _ => r1
              end)
      else None
  | [] => None
  end.

Definition scan (unit_ok : jsstring -> bool) (s : jsstring) : option jsstring :=
  match after_number s with
  | Some rest =>
      if unit_ok (skip is_space rest) then Some (consumed s rest) else None
  | None => None
  end.

Fixpoint first_scan (unit_ok : jsstring -> bool) (s : jsstring) : option jsstring :=
  match scan unit_ok s with
  | Some cap => Some cap
  | None => match s with [] => None | _ :: s' => first_scan unit_ok s' end
  end.

(** The same with the unit as a text that [s] holds at some place. *)
Definition occurs (unit_ok : jsstring -> bool) (pre cap s : jsstring) : Prop :=
  exists ws rest,
    s = pre ++ cap ++ ws ++ rest /\ number_text cap /\ all_of is_space ws
    /\ unit_ok rest = true.

Definition unit_tail (U : regex) : jsstring -> captures -> option captures :=
  fun s c => rmatch (Group 2 U) s c k0.

Definition space_tail (U : regex) : jsstring -> captures -> option captures :=
  fun s c => rmatch (Star (Class is_space)) s c (unit_tail U).

Definition pattern (U : regex) : regex :=
  Seq (Group 1 number_re) (Seq (Star (Class is_space)) (Group 2 U)).

Definition ok_km (s : jsstring) : bool := starts_with (js "k") s.
Definition ok_mi (s : jsstring) : bool := starts_with (js "mi") s.

(** ** A runtime for the examples

    It lowers the ASCII letters and prints the integers; that is all the
    examples below need.  Theorems are stated for every runtime, or for the
    runtimes that lower ASCII text as ECMAScript does ([lowers_ascii]). *)

Definition ascii_lower (c : code_unit) : code_unit :=
  if (65 <=? c)%N && (c <=? 90)%N then (c + 32)%N else c.

Definition reference_toString (x : number) : jsstring :=
  match x with
  | S754_nan => js "NaN"
  | S754_infinity s => if s then js "-Infinity" else js "Infinity"
  | S754_zero _ => js "0"
  | S754_finite s m e =>
      let '(n, d) := exact (Zpos m) e in
      if (n mod d =? 0)%Z
      then (if s then js "-" else [])
             ++ js (NilZero.string_of_uint (N.to_uint (Z.to_N (n / d))))
      else []
  end.

Definition reference_runtime : Runtime :=
  {| toLowerCase := map ascii_lower; Number_toString := reference_toString |}.

Definition lowers_ascii (RT : Runtime) : Prop :=
  forall s, Forall (fun c => (c < 128)%N) s -> toLowerCase s = map ascii_lower s.

(** ** Routes *)

(** The literal [1.0] of [estimateTime]. *)
Definition one : number := dec 10 1.

(** The three shapes of a coach route. *)
Definition shape4 : list Point.t :=
  [ pt 12 86 (Some (js "Inicio")); pt 36 64 None; pt 58 50 None;
    pt 82 26 (Some (js "Fin")) ].

Definition shape5 : list Point.t :=
  [ pt 12 86 (Some (js "Inicio")); pt 36 64 None;
    pt 48 56 (Some (js "Punto")); pt 58 50 None; pt 86 18 (Some (js "Fin")) ].

Definition shape6 : list Point.t :=
  [ pt 12 86 (Some (js "Inicio")); pt 26 74 (Some (js "Extra")); pt 36 64 None;
    pt 48 56 (Some (js "Punto")); pt 58 50 None; pt 86 18 (Some (js "Fin")) ].

Definition ids (l : list RouteOption.t) : list jsstring := map RouteOption.id l.

(** No mode holds two coach routes with one id. *)
Definition unique_ids (st : PlanState.t) : Prop :=
  forall m, NoDup (ids (ByMode.get (PlanState.customRoutes st) m)).

(** [lng = center.lng + (x - 50) * 0.00075], [lat = center.lat + (50 - y) * 0.00075] *)
Definition geo_coordinate (p : Point.t) : number * number :=
  (add (fst MAP_CENTER) (mul (sub (Point.x p) (of_Z 50)) (dec 75 5)),
   add (snd MAP_CENTER) (mul (sub (of_Z 50) (Point.y p)) (dec 75 5))).

Definition single_point_route : RouteOption.t :=
  RouteOption.make (js "one") (js "One point") (of_Z 1) [] [] (of_Z 1) []
    [ pt 50 50 None ].

(** The catalogue route of the mode [walk], of four points. *)
Definition walk_daily : RouteOption.t :=
  hd single_point_route (ByMode.get baseRoutes walk).

(** A route of four points of which only the second has a label. *)
Definition sparse_route : RouteOption.t :=
  RouteOption.make (js "sparse") (js "Sparse") (of_Z 1) [] [] (of_Z 1) []
    [ pt 20 80 None; pt 40 60 (Some (js "Mirador")); pt 60 50 None;
      pt 80 20 None ].

(** * The rest of the page

    The display helpers [formatDistance], [formatEta] and [cleanEnvValue],
    the panel flags of [PlanPage] with the handlers of the side rail, the
    bottom navigation, the bottom sheet and the coach panel, and the user
    actions that the rendered page offers. *)

(** ** More operations on numbers *)

(** [Math.floor]: integers, infinities and NaN are returned unchanged. *)
Definition Math_floor (x : number) : number :=
  match x with
  | S754_finite s m e =>
      if (0 <=? e)%Z then x
      else
        let z := if s then Zneg m else Zpos m in
        let r := (z / 2 ^ (- e))%Z in
        if (r =? 0)%Z then S754_zero s else of_Z r
  | _ => x
  end.

(** [x % y]: what is left of [x] after the truncating division by [y],
    with the sign of [x]; the result is always representable. *)
Definition rem (x y : number) : number :=
  match x, y with
  | S754_nan, _ | _, S754_nan => S754_nan
  | S754_infinity _, _ => S754_nan
  | _, S754_zero _ => S754_nan
  | _, S754_infinity _ => x
  | S754_zero _, _ => x
  | S754_finite sx mx ex, S754_finite _ my ey =>
      let e := Z.min ex ey in
      let r := ((Zpos mx * 2 ^ (ex - e)) mod (Zpos my * 2 ^ (ey - e)))%Z in
      if (r =? 0)%Z then S754_zero sx
      else let '(n, d) := exact r e in round_ratio sx n d
  end.

(** [x === y] on numbers: false on NaN, true on the two zeros. *)
Definition strict_eq (x y : number) : bool :=
  match compare x y with Some Eq => true | _ => false end.

(** ** More operations on strings *)

(** [s.padStart(n, fill)] for a filler of one code unit. *)
Definition padStart (s : jsstring) (n : nat) (fill : code_unit) : jsstring :=
  repeat fill (n - List.length s) ++ s.

(** The decimal digits of a non-negative integer, without leading zeros;
    the fuel is the number of binary digits, which is enough. *)
Fixpoint digits_of (fuel : nat) (n : Z) : jsstring :=
  match fuel with
  | O => []
  | S fuel' =>
      (if (n <? 10)%Z then [] else digits_of fuel' (n / 10)%Z)
        ++ [Z.to_N (48 + n mod 10)]
  end.

Definition decimal (n : Z) : jsstring := digits_of (S (Z.to_nat (Z.log2 n))) n.

(** The digits of [n] with a decimal point before the last [f] of them,
    zeros added in front so that a digit stands before the point. *)
Definition fixed_text (n : Z) (f : nat) : jsstring :=
  let m := decimal n in
  match f with
  | O => m
  | S _ =>
      let m := repeat 48%N (f + 1 - List.length m) ++ m in
      firstn (List.length m - f) m ++ js "." ++ skipn (List.length m - f) m
  end.

Definition is_quote (c : code_unit) : bool := (c =? 39)%N || (c =? 34)%N.

(** The value, or the empty text when it is [undefined] ([None]), with
    every single and double quote removed and then trimmed. *)
Definition cleanEnvValue (value : option jsstring) : jsstring :=
  trim (filter (fun c => negb (is_quote c))
          (match value with Some v => v | None => [] end)).

Section Display.

Context {RT : Runtime}.

(** [x.toFixed(f)]: the integer [n] with [n / 10^f] nearest to [|x|], the
    larger one of two, written with [f] digits after the point; values that
    are not finite or reach [10^21] are printed as [String(x)] prints
    them. *)
Definition toFixed (x : number) (f : nat) : jsstring :=
  match x with
  | S754_nan | S754_infinity _ => Number_toString x
  | S754_zero _ => fixed_text 0 f
  | S754_finite s m e =>
      let '(n, d) := exact (Zpos m) e in
      (if s then js "-" else [])
        ++ (if (10 ^ 21 * d <=? n)%Z then Number_toString (S754_finite false m e)
            else fixed_text ((2 * n * 10 ^ Z.of_nat f + d) / (2 * d))%Z f)
  end.

Definition formatDistance (km : number) : jsstring :=
  toFixed km 1 ++ js " km".

Definition formatEta (minutes : number) : jsstring :=
  let h := Math_floor (div minutes (of_Z 60)) in
  let m := rem minutes (of_Z 60) in
  if strict_eq h (of_Z 0) then Number_toString m ++ js " min"
  else Number_toString h ++ js "h " ++ padStart (Number_toString m) 2 48%N ++ js "m".

End Display.

(** ** Panels

    The flags [showCoachPanel], [sheetOpen], [infoOpen] and [isMobile] of
    [PlanPage].  The updates that the handlers of one click queue are
    applied together, in the order of the calls, before the page is
    rendered again: an updater function ([prev => ...]) reads the flag as
    the updates before it left it, and a handler that reads a flag itself
    reads the value of the render that built it. *)

Module Panels.
Record t : Type := make {
  showCoachPanel : bool; sheetOpen : bool; infoOpen : bool; isMobile : bool }.
End Panels.

Definition initialPanels : Panels.t := Panels.make false false false false.

Definition toggleRoutes (p : Panels.t) : Panels.t :=
  Panels.make (Panels.showCoachPanel p) (negb (Panels.sheetOpen p)) (Panels.infoOpen p)
    (Panels.isMobile p).

Definition closeRoutes (p : Panels.t) : Panels.t :=
  Panels.make (Panels.showCoachPanel p) false (Panels.infoOpen p) (Panels.isMobile p).

Definition closeCoachPanel (p : Panels.t) : Panels.t :=
  Panels.make false (Panels.sheetOpen p) (Panels.infoOpen p) (Panels.isMobile p).

Definition toggleCoachPanel (p : Panels.t) : Panels.t :=
  let next := negb (Panels.showCoachPanel p) in
  let p := if next then closeRoutes p else p in
  Panels.make next (Panels.sheetOpen p) (Panels.infoOpen p) (Panels.isMobile p).

(** [onClosePanels] of the side rail and [onShowMap] of the bottom
    navigation. *)
Definition closePanels (p : Panels.t) : Panels.t :=
  closeCoachPanel (closeRoutes p).

Definition toggleInfo (p : Panels.t) : Panels.t :=
  Panels.make (Panels.showCoachPanel p) (Panels.sheetOpen p) (negb (Panels.infoOpen p))
    (Panels.isMobile p).

(** [update] of the media query listener: [setIsMobile(Boolean(mq?.matches))]. *)
Definition setIsMobile (matches : bool) (p : Panels.t) : Panels.t :=
  Panels.make (Panels.showCoachPanel p) (Panels.sheetOpen p) (Panels.infoOpen p) matches.

(** [onToggle] of the bottom sheet as the render of [shown] built it: it
    reads [sheetOpen] of that render and queues its updates on [p]. *)
Definition onToggle (shown p : Panels.t) : Panels.t :=
  let next := negb (Panels.sheetOpen shown) in
  toggleRoutes (if next then closeCoachPanel p else p).

(** [onClick] of the container of the bottom sheet.  A click on anything
    inside the sheet reaches it after the handler of the button that was
    clicked, since no handler stops the propagation. *)
Definition sheetContainerClick (shown p : Panels.t) : Panels.t :=
  let collapsedDesktop := negb (Panels.isMobile shown) && negb (Panels.sheetOpen shown) in
  if collapsedDesktop then onToggle shown p else p.

(** What changes the flags: the four items of the side rail, the first
    three buttons of the bottom navigation, the toggle button of the bottom
    sheet, a click anywhere else in the sheet (its texts, a mode button or a
    route button, whose own handlers leave the flags alone), the close
    button of the coach panel, the info button, and a change of the width
    of the window. *)
Inductive PanelEvent : Type :=
| RailMap | RailRoutes | RailCoach | RailChat
| NavMap | NavRoutes | NavCoach
| SheetToggle | SheetInside | CoachClose | InfoToggle
| Viewport (matches : bool).

Definition panelStep (p : Panels.t) (ev : PanelEvent) : Panels.t :=
  match ev with
  | RailMap | RailChat | NavMap => closePanels p
  | RailRoutes => toggleRoutes p
  | RailCoach => toggleCoachPanel p
  | NavRoutes => toggleRoutes (closePanels p)
  | NavCoach => toggleCoachPanel (closePanels p)
  | SheetToggle => sheetContainerClick p (onToggle p p)
  | SheetInside => sheetContainerClick p p
  | CoachClose => closeCoachPanel p
  | InfoToggle => toggleInfo p
  | Viewport matches => setIsMobile matches p
  end.

Definition panelsAfter (evs : list PanelEvent) : Panels.t :=
  fold_left panelStep evs initialPanels.

(** ** The actions the page offers

    The bottom sheet shows one button for each route of [routes], which
    selects the id of that route, and the routine shows one button for each
    of its steps, which selects the index of that step. *)

Definition offered (st : PlanState.t) (ev : Event) : Prop :=
  match ev with
  | SelectRoute id => In id (ids (routes st))
  | StepChange i => (i < List.length (PlanState.routine st))%nat
  | CoachPlan _ | SelectMode _ => True
  end.

Section Session.

Context {RT : Runtime}.

(** The states of a session: the fresh page, and what offered actions make
    of them. *)
Inductive reachable : PlanState.t -> Prop :=
| reachable_initial : reachable initialState
| reachable_step st ev : reachable st -> offered st ev -> reachable (step st ev).

End Session.

(** ** Vocabulary of the further statements *)

(** Every coach route has an id that starts with the letter "c". *)
Definition coach_ids (st : PlanState.t) : Prop :=
  forall m r, In r (ByMode.get (PlanState.customRoutes st) m) ->
              exists t, RouteOption.id r = 99%N :: t.

(** Neither NaN nor negative: a zero, a finite value or an infinity with
    the sign bit clear. *)
Definition not_negative (x : number) : Prop :=
  match x with
  | S754_nan => False
  | S754_zero s | S754_infinity s | S754_finite s _ _ => s = false
  end.

Definition is_nan (x : number) : bool :=
  match x with S754_nan => true | _ => false end.

(** The list is strictly increasing for [<] on numbers. *)
Fixpoint increasing (l : list number) : Prop :=
  match l with
  | a :: (b :: _) as t => ltb a b = true /\ increasing t
  | _ => True
  end.

(** The order of the numbers: [rank] puts the two infinities below and
    above the rest, and [units e x] is the integer [x / 2^e] of a zero or
    finite [x], for an [e] that is at most the exponent of [x]. *)
Definition rank (x : number) : Z :=
  match x with
  | S754_infinity s => if s then (-1)%Z else 1%Z
  | _ => 0%Z
  end.

Definition exponent (x : number) : Z :=
  match x with
  | S754_finite _ _ e => e
  | _ => 0%Z
  end.

Definition units (e : Z) (x : number) : Z :=
  match x with
  | S754_finite s m ex => scaled s m ex e
  | _ => 0%Z
  end.

Definition order (e : Z) (x y : number) : comparison :=
  match (rank x ?= rank y)%Z with
  | Eq => (units e x ?= units e y)%Z
  | c => c
  end.

(** The sign bit of a number. *)
Definition sign_bit (x : number) : bool :=
  match x with
  | S754_zero s | S754_infinity s | S754_finite s _ _ => s
  | S754_nan => false
  end.

(** What [round_ratio] makes of the fraction [n/d]: the exponent it rounds
    at, the rounded value counted in units of the smallest positive number,
    and the count from which the result is infinite. *)
Definition rounding_exponent (n d : Z) : Z :=
  Z.max (ilog2 n d - (prec - 1)) emin.

Definition rounded_units (n d : Z) : Z :=
  let e := rounding_exponent n d in
  (rne (n * p2 (- e)) (d * p2 e) * 2 ^ (e - emin))%Z.

Definition overflow_units : Z := (2 ^ prec * 2 ^ (emax - emin))%Z.

(** [Math.round] of a zero or finite [x] as an integer: the floor of
    [x + 1/2], from the count of [x] in units of [2^emin]. *)
Definition rounded_integer (x : number) : Z :=
  ((2 * units emin x + 2 ^ (- emin)) / 2 ^ (- emin + 1))%Z.

(** * Proofs *)

(** ** Checks of the model on known values *)

(** The bits of the literals [5.2] and [0.1]. *)
Example dec_5_2 : dec 52 1 = S754_finite false 5854679515581645 (-50).
Proof. vm_compute. reflexivity. Qed.

Example dec_0_1 : dec 1 1 = S754_finite false 7205759403792794 (-56).
Proof. vm_compute. reflexivity. Qed.

(** The operations agree with the standard library's IEEE 754 functions. *)
Example mul_agrees :
  mul (of_Z 8) (dec 52 1) = SFmul 53 1024 (of_Z 8) (dec 52 1)
  /\ mul (dec 13 1) (dec 1609 3) = SFmul 53 1024 (dec 13 1) (dec 1609 3).
Proof. split; vm_compute; reflexivity. Qed.

Example add_sub_agree :
  add (fst MAP_CENTER) (mul (sub (of_Z 12) (of_Z 50)) (dec 75 5))
  = SFadd 53 1024 (fst MAP_CENTER)
      (SFmul 53 1024 (SFsub 53 1024 (of_Z 12) (of_Z 50)) (dec 75 5)).
Proof. vm_compute. reflexivity. Qed.

Example div_agrees :
  div (of_Z 1) (of_Z 3) = SFdiv 53 1024 (of_Z 1) (of_Z 3)
  /\ div (dec 416 1) (dec 10 1) = SFdiv 53 1024 (dec 416 1) (dec 10 1).
Proof. split; vm_compute; reflexivity. Qed.

Example compare_agrees :
  compare (dec 91 1) (of_Z 9) = SFcompare (dec 91 1) (of_Z 9)
  /\ compare (of_Z 9) (of_Z 12) = SFcompare (of_Z 9) (of_Z 12).
Proof. split; vm_compute; reflexivity. Qed.

Example Math_round_ties :
  Math_round (dec 25 1) = of_Z 3 /\ Math_round (dec (-25) 1) = of_Z (-2)
  /\ Math_round (dec (-5) 1) = S754_zero true /\ Math_round (dec 4 1) = S754_zero false.
Proof. repeat split; vm_compute; reflexivity. Qed.

Example js_accents :
  js "rápido" = [114; 225; 112; 105; 100; 111]%N
  /\ js "kilómetros" = [107; 105; 108; 243; 109; 101; 116; 114; 111; 115]%N.
Proof. split; vm_compute; reflexivity. Qed.

Example parseFloat_examples :
  parseFloat (js "12.5") = dec 125 1 /\ parseFloat (js "  -1.5e3x") = of_Z (-1500)
  /\ parseFloat (js "7") = of_Z 7 /\ parseFloat (js "abc") = S754_nan.
Proof. repeat split; vm_compute; reflexivity. Qed.

Example exec_examples :
  option_map group1 (exec km_re (js "quiero 12,5   km suaves")) = Some (js "12,5")
  /\ option_map group1 (exec km_re (js "1.5.3 kilómetros")) = Some (js "5.3")
  /\ exec km_re (js "5. km") = None
  /\ option_map group1 (exec mi_re (js "a 3 mi o 10k")) = Some (js "3").
Proof. repeat split; vm_compute; reflexivity. Qed.

Example coach_route_id :
  RouteOption.id (buildRouteFromPrompt (RT := reference_runtime) (of_Z 7) run (js "Parques"))
  = js "coach-run-70".
Proof. vm_compute. reflexivity. Qed.

(** The same prompt twice leaves one coach route. *)
Example coach_twice :
  List.length
    (ByMode.get
       (PlanState.customRoutes
          (after (RT := reference_runtime)
             [CoachPlan (js "Quiero 7 km suaves en parque");
              CoachPlan (js "quiero 7 km en el parque")]))
       run) = 1%nat.
Proof. vm_compute. reflexivity. Qed.

(** ** Powers of two and rounding *)

Section Rounding.

Local Open Scope Z_scope.

Lemma p2_pos k : 0 < p2 k.
Proof. unfold p2. apply Z.pow_pos_nonneg; lia. Qed.

Lemma p2_of_nonneg k : 0 <= k -> p2 k = 2 ^ k.
Proof. intros H. unfold p2. rewrite Z.max_r by lia. reflexivity. Qed.

Lemma p2_of_nonpos k : k <= 0 -> p2 k = 1.
Proof. intros H. unfold p2. rewrite Z.max_l by lia. reflexivity. Qed.

Ltac p2_norm :=
  repeat match goal with
         | |- context [p2 ?k] =>
             first [ rewrite (p2_of_nonneg k) by lia | rewrite (p2_of_nonpos k) by lia ]
         end.

Lemma p2_add j k :
  p2 (j + k) * p2 (- j) * p2 (- k) = p2 j * p2 k * p2 (- (j + k)).
Proof.
  destruct (Z.le_gt_cases 0 j), (Z.le_gt_cases 0 k), (Z.le_gt_cases 0 (j + k));
    p2_norm; rewrite ?Z.mul_1_r, ?Z.mul_1_l, <- ?Z.pow_add_r by lia;
    try (f_equal; lia); lia.
Qed.

Lemma p2_step k :
  (p2 (k + 1) = 2 * p2 k /\ p2 (- (k + 1)) = 1 /\ p2 (- k) = 1) \/
  (p2 (k + 1) = 1 /\ p2 k = 1 /\ p2 (- k) = 2 * p2 (- (k + 1))).
Proof.
  destruct (Z.le_gt_cases 0 k) as [H | H].
  - left. rewrite !p2_of_nonneg, !p2_of_nonpos by lia.
    rewrite Z.pow_add_r by lia. lia.
  - right. rewrite (p2_of_nonpos (k + 1)), (p2_of_nonpos k) by lia.
    rewrite !p2_of_nonneg by lia.
    replace (- k) with (- (k + 1) + 1) at 1 by lia.
    rewrite Z.pow_add_r by lia. lia.
Qed.

Lemma ge_pow2_succ n d k :
  ge_pow2 n d (k + 1) <-> 2 * d * p2 k <= n * p2 (- k).
Proof.
  unfold ge_pow2. pose proof (p2_pos (- (k + 1))).
  destruct (p2_step k) as [(-> & -> & ->) | (-> & -> & ->)]; nia.
Qed.

Lemma ge_pow2_pred n d k : 0 < n -> 0 < d -> ge_pow2 n d (k + 1) -> ge_pow2 n d k.
Proof.
  intros Hn Hd H. apply ge_pow2_succ in H. unfold ge_pow2.
  pose proof (p2_pos k). nia.
Qed.

Lemma ge_pow2_le n d k k' :
  0 < n -> 0 < d -> k <= k' -> ge_pow2 n d k' -> ge_pow2 n d k.
Proof.
  intros Hn Hd Hk. pattern k'. apply Zlt_lower_bound_ind with (z := k); [| exact Hk].
  intros x IH Hx H. destruct (Z.eq_dec x k) as [-> | Hne]; [exact H |].
  apply (IH (x - 1)); [lia |]. apply ge_pow2_pred; auto.
  replace (x - 1 + 1) with x by lia. exact H.
Qed.

Lemma ge_pow2_unique n d k k' :
  0 < n -> 0 < d ->
  ge_pow2 n d k -> ~ ge_pow2 n d (k + 1) ->
  ge_pow2 n d k' -> ~ ge_pow2 n d (k' + 1) -> k = k'.
Proof.
  intros Hn Hd A B C D.
  destruct (Z.lt_trichotomy k k') as [H | [H | H]]; [| exact H |].
  - exfalso. apply B. apply ge_pow2_le with (k' := k'); auto; lia.
  - exfalso. apply D. apply ge_pow2_le with (k' := k); auto; lia.
Qed.

Lemma pow_p2 a b : 0 <= a -> 0 <= b -> 2 ^ a * p2 (b - a) = 2 ^ b * p2 (a - b).
Proof.
  intros Ha Hb. destruct (Z.le_gt_cases a b).
  - rewrite p2_of_nonneg, p2_of_nonpos by lia.
    rewrite <- Z.pow_add_r by lia. rewrite Z.mul_1_r. f_equal. lia.
  - rewrite p2_of_nonpos, p2_of_nonneg by lia.
    rewrite <- Z.pow_add_r by lia. rewrite Z.mul_1_r. f_equal. lia.
Qed.

Lemma ilog2_spec n d :
  0 < n -> 0 < d -> ge_pow2 n d (ilog2 n d) /\ ~ ge_pow2 n d (ilog2 n d + 1).
Proof.
  intros Hn Hd. unfold ilog2, shift_ratio.
  destruct (Z.log2_spec n Hn) as [La Ua]. destruct (Z.log2_spec d Hd) as [Lb Ub].
  pose proof (Z.log2_nonneg n) as Ha. pose proof (Z.log2_nonneg d) as Hb.
  set (a := Z.log2 n) in *. set (b := Z.log2 d) in *.
  rewrite Z.pow_succ_r in Ua, Ub by assumption.
  assert (U : ~ ge_pow2 n d (a - b + 1)).
  { rewrite ge_pow2_succ. pose proof (pow_p2 a b Ha Hb) as E.
    replace (b - a) with (- (a - b)) in E by lia.
    pose proof (p2_pos (a - b)). pose proof (p2_pos (- (a - b))). nia. }
  destruct (Z.leb_spec (d * p2 (a - b)) (n * p2 (- (a - b)))) as [H | H].
  - split; [exact H | exact U].
  - split.
    + unfold ge_pow2. assert (Hb1 : 0 <= b + 1) by lia.
      pose proof (pow_p2 a (b + 1) Ha Hb1) as E.
      replace (b + 1 - a) with (- (a - b - 1)) in E by lia.
      replace (a - (b + 1)) with (a - b - 1) in E by lia.
      rewrite Z.pow_add_r in E by lia. change (2 ^ 1) with 2 in E.
      pose proof (p2_pos (a - b - 1)). pose proof (p2_pos (- (a - b - 1))). nia.
    + replace (a - b - 1 + 1) with (a - b) by lia. unfold ge_pow2. lia.
Qed.

Lemma rne_exact m d : 0 < d -> rne (m * d) d = m.
Proof.
  intros Hd. unfold rne. rewrite Z.div_mul, Z.mod_mul by lia.
  destruct (Z.compare_spec (2 * 0) d); lia.
Qed.

Lemma rne_bounds n d lo hi :
  0 < d -> lo * d <= n -> n <= hi * d -> lo <= rne n d <= hi.
Proof.
  intros Hd Hlo Hhi. unfold rne.
  pose proof (Z.div_mod n d ltac:(lia)) as E.
  pose proof (Z.mod_pos_bound n d Hd) as B.
  set (q := n / d) in *. set (r := n mod d) in *.
  assert (lo <= q) by nia.
  assert (q <= hi) by nia.
  destruct (Z.compare_spec (2 * r) d); [destruct (Z.even q) | |]; nia.
Qed.

Lemma rne_error n d : 0 < d -> 2 * Z.abs (rne n d * d - n) <= d.
Proof.
  intros Hd. unfold rne.
  pose proof (Z.div_mod n d ltac:(lia)) as E.
  pose proof (Z.mod_pos_bound n d Hd) as B.
  set (q := n / d) in *. set (r := n mod d) in *.
  destruct (Z.compare_spec (2 * r) d); [destruct (Z.even q) | |]; nia.
Qed.

Lemma ge_pow2_shift n d j e :
  ge_pow2 n d (j + e) <-> p2 j * (d * p2 e) <= n * p2 (- e) * p2 (- j).
Proof.
  unfold ge_pow2. pose proof (p2_add j e) as E.
  pose proof (p2_pos (- (j + e))) as HQ.
  assert (HJE : 0 < p2 (- j) * p2 (- e))
    by (apply Z.mul_pos_pos; apply p2_pos).
  rewrite (Z.mul_le_mono_pos_r _ _ _ HJE).
  rewrite (Z.mul_le_mono_pos_r (p2 j * (d * p2 e)) _ _ HQ).
  replace (d * p2 (j + e) * (p2 (- j) * p2 (- e)))
    with (d * (p2 (j + e) * p2 (- j) * p2 (- e))) by ring.
  rewrite E.
  replace (d * (p2 j * p2 e * p2 (- (j + e))))
    with (p2 j * (d * p2 e) * p2 (- (j + e))) by ring.
  replace (n * p2 (- (j + e)) * (p2 (- j) * p2 (- e)))
    with (n * p2 (- e) * p2 (- j) * p2 (- (j + e))) by ring.
  reflexivity.
Qed.

Lemma rounding_facts n d :
  0 < n -> 0 < d ->
  let k := ilog2 n d in
  let e := Z.max (k - (prec - 1)) emin in
  let n' := n * p2 (- e) in
  let d' := d * p2 e in
  0 < d' /\ 0 < n' /\ n' <= 2 ^ 53 * d'
  /\ (emin <= k - 52 -> 2 ^ 52 * d' <= n')
  /\ (k - 52 < emin -> n' <= 2 ^ 52 * d').
Proof.
  intros Hn Hd k e n' d'.
  destruct (ilog2_spec n d Hn Hd) as [L U]. fold k in L, U.
  assert (Hd' : 0 < d') by (apply Z.mul_pos_pos; [lia | apply p2_pos]).
  assert (Hn' : 0 < n') by (apply Z.mul_pos_pos; [lia | apply p2_pos]).
  repeat split; auto.
  - assert (A : ~ ge_pow2 n d (53 + e)).
    { intros A. apply U. apply ge_pow2_le with (k' := 53 + e); auto.
      unfold e, prec. lia. }
    rewrite ge_pow2_shift in A.
    rewrite (p2_of_nonneg 53), (p2_of_nonpos (Z.opp 53)) in A by lia.
    fold n' d' in A. lia.
  - intros Hk. assert (A : ge_pow2 n d (52 + e)).
    { replace (52 + e) with k; [exact L |]. unfold e, prec. lia. }
    rewrite ge_pow2_shift in A.
    rewrite (p2_of_nonneg 52), (p2_of_nonpos (Z.opp 52)) in A by lia.
    fold n' d' in A. lia.
  - intros Hk. assert (A : ~ ge_pow2 n d (52 + e)).
    { intros A. apply U. apply ge_pow2_le with (k' := 52 + e); auto.
      unfold e, prec. lia. }
    rewrite ge_pow2_shift in A.
    rewrite (p2_of_nonneg 52), (p2_of_nonpos (Z.opp 52)) in A by lia.
    fold n' d' in A. lia.
Qed.

Lemma round_ratio_canonical s n d : 0 < d -> canonical (round_ratio s n d).
Proof.
  intros Hd. unfold round_ratio.
  destruct (Z.leb_spec n 0) as [Hn | Hn]; [exact I |].
  destruct (rounding_facts n d Hn Hd) as (Hd' & Hn' & Hub & Hlb & Hsub).
  set (k := ilog2 n d) in *.
  set (e := Z.max (k - (prec - 1)) emin) in *.
  unfold shift_ratio.
  set (n' := n * p2 (- e)) in *. set (d' := d * p2 e) in *.
  assert (He : emin <= e) by (unfold e; lia).
  assert (Hm0 : 0 <= rne n' d' <= 2 ^ 53) by (apply rne_bounds; auto; lia).
  destruct (Z.eqb_spec (rne n' d') (2 ^ prec)) as [Hc | Hc].
  - change (2 ^ (prec - 1)) with (Zpos (Z.to_pos (2 ^ 52))).
    cbv iota beta.
    destruct (Z.ltb_spec emax (e + 1)); [exact I |].
    simpl. left. change (Z.pos (Z.to_pos (2 ^ 52))) with (2 ^ 52). lia.
  - destruct (rne n' d') as [| p | p] eqn:Hm; try exact I.
    destruct (Z.ltb_spec emax e); [exact I |]. simpl.
    unfold prec in Hc.
    destruct (Z.le_gt_cases emin (k - 52)) as [Hk | Hk].
    + left. assert (2 ^ 52 <= rne n' d' <= 2 ^ 53) by (apply rne_bounds; auto).
      lia.
    + assert (0 <= rne n' d' <= 2 ^ 52)
        by (apply rne_bounds; [auto | lia | apply Hsub; lia]).
      assert (e = emin) by (unfold e, prec; lia).
      destruct (Z.eq_dec (Z.pos p) (2 ^ 52)); [left | right]; lia.
Qed.

Lemma round_ratio_half_ulp s n d :
  0 <= n -> 0 < d -> within_half_ulp (round_ratio s n d) s n d.
Proof.
  intros Hn0 Hd. unfold round_ratio.
  destruct (Z.leb_spec n 0) as [Hn | Hn].
  { assert (n = 0) by lia. subst n. split; [reflexivity |].
    rewrite Z.mul_0_r, Z.mul_0_l. lia. }
  destruct (rounding_facts n d Hn Hd) as (Hd' & Hn' & Hub & Hlb & Hsub).
  set (k := ilog2 n d) in *.
  set (e := Z.max (k - (prec - 1)) emin) in *.
  unfold shift_ratio.
  set (n' := n * p2 (- e)) in *. set (d' := d * p2 e) in *.
  pose proof (rne_error n' d' Hd') as Herr.
  assert (Hm0 : 0 <= rne n' d' <= 2 ^ 53) by (apply rne_bounds; auto; lia).
  assert (Hbig : emax < e -> 2 ^ 1024 * d <= n).
  { intros He. assert (Hk : emin <= k - 52) by (unfold e, prec, emax, emin in *; lia).
    specialize (Hlb Hk). unfold n', d' in Hlb.
    rewrite (p2_of_nonneg e), (p2_of_nonpos (- e)) in Hlb by (unfold emax in *; lia).
    assert (2 ^ 972 <= 2 ^ e) by (apply Z.pow_le_mono_r; unfold emax in *; lia).
    change (2 ^ 1024) with (2 ^ 52 * 2 ^ 972). nia. }
  destruct (Z.eqb_spec (rne n' d') (2 ^ prec)) as [Hc | Hc].
  - change (2 ^ (prec - 1)) with (Zpos (Z.to_pos (2 ^ 52))). cbv iota beta.
    rewrite Hc in Herr. unfold prec in Herr.
    destruct (Z.ltb_spec emax (e + 1)) as [He | He]; unfold within_half_ulp; cbv iota;
      (split; [reflexivity |]).
    + destruct (Z.eq_dec e emax) as [E | E].
      * unfold n', d' in Herr. rewrite E in Herr. unfold emax in Herr.
        rewrite (p2_of_nonneg 971), (p2_of_nonpos (Z.opp 971)) in Herr by lia.
        change (2 ^ 971) with (2 * 2 ^ 970) in Herr. lia.
      * assert (emax < e) by lia. specialize (Hbig H).
        change (2 ^ 1024) with (2 ^ 54 * 2 ^ 970) in Hbig. nia.
    + change (Z.pos (Z.to_pos (2 ^ 52))) with (2 ^ 52).
      unfold n', d' in Herr. pose proof (p2_pos (- (e + 1))).
      destruct (p2_step e) as [(E1 & E2 & E3) | (E1 & E2 & E3)].
      * rewrite E1, E2. rewrite E3 in Herr. lia.
      * rewrite E1. rewrite E2, E3 in Herr. lia.
  - destruct (rne n' d') as [| p | p] eqn:Hm; try lia.
    + unfold within_half_ulp. split; [reflexivity |].
      destruct (Z.le_gt_cases emin (k - 52)) as [Hk | Hk]; [specialize (Hlb Hk); lia |].
      assert (E : e = emin) by (unfold e, prec; lia).
      unfold n', d' in Herr. rewrite E in Herr. unfold emin in Herr.
      rewrite (p2_of_nonpos (-1074)), (p2_of_nonneg (- -1074)) in Herr by lia.
      change (- -1074) with 1074 in Herr. lia.
    + destruct (Z.ltb_spec emax e) as [He | He]; unfold within_half_ulp; cbv iota;
        (split; [reflexivity |]).
      * specialize (Hbig He). change (2 ^ 1024) with (2 ^ 54 * 2 ^ 970) in Hbig. nia.
      * exact Herr.
Qed.

Lemma round_ratio_nearest s n d :
  0 <= n -> 0 < d -> nearest (round_ratio s n d) s n d.
Proof.
  intros Hn Hd. split; [apply round_ratio_canonical | apply round_ratio_half_ulp]; auto.
Qed.

Lemma canonical_me_exponent M E :
  canonical_me M E -> Z.max (Z.log2 M + E - (prec - 1)) emin = E.
Proof.
  unfold prec. intros [[[A B] C] | [[A B] C]].
  - rewrite (Z.log2_unique M 52) by (change (Z.succ 52) with 53; lia). lia.
  - assert (Z.log2 M < 52) by (apply Z.log2_lt_pow2; lia). lia.
Qed.

Lemma round_ratio_exact s n d M E :
  0 < d -> canonical_me M E -> n * p2 (- E) = M * (d * p2 E) ->
  round_ratio s n d = S754_finite s (Z.to_pos M) E.
Proof.
  intros Hd HC H.
  assert (HM : 0 < M < 2 ^ 53 /\ emin <= E <= emax).
  { destruct HC as [[A B] | [A B]]; unfold emin, emax in *; lia. }
  assert (Hd' : 0 < d * p2 E) by (apply Z.mul_pos_pos; [lia | apply p2_pos]).
  assert (Hn : 0 < n) by (pose proof (p2_pos (- E)); nia).
  destruct (Z.log2_spec M ltac:(lia)) as [L U].
  pose proof (Z.log2_nonneg M) as Hl.
  assert (K : ilog2 n d = Z.log2 M + E).
  { destruct (ilog2_spec n d Hn Hd) as [A B].
    apply (ge_pow2_unique n d); auto.
    - rewrite ge_pow2_shift. rewrite H.
      rewrite p2_of_nonneg, (p2_of_nonpos (- Z.log2 M)) by lia. nia.
    - replace (Z.log2 M + E + 1) with (Z.succ (Z.log2 M) + E) by lia.
      rewrite ge_pow2_shift. rewrite H.
      rewrite p2_of_nonneg, (p2_of_nonpos (- Z.succ (Z.log2 M))) by lia. nia. }
  unfold round_ratio. destruct (Z.leb_spec n 0); [lia |].
  rewrite K, (canonical_me_exponent M E HC). unfold shift_ratio.
  rewrite H, rne_exact by lia.
  destruct (Z.eqb_spec M (2 ^ prec)); [unfold prec in *; lia |].
  destruct M as [| p | p]; try lia.
  destruct (Z.ltb_spec emax E); [lia |]. reflexivity.
Qed.

Lemma div_one x : canonical x -> div x one = x.
Proof.
  destruct x as [s | s | | s m e]; intros HC; try reflexivity.
  - destruct s; reflexivity.
  - destruct s; reflexivity.
  - change one with (S754_finite false (Z.to_pos (2 ^ 52)) (-52)).
    unfold div. unfold shift_ratio.
    rewrite xorb_false_r.
    rewrite (round_ratio_exact s _ _ (Zpos m) e);
      [reflexivity | | exact HC |];
      change (Z.pos (Z.to_pos (2 ^ 52))) with (2 ^ 52).
    + pose proof (p2_pos (-52 - e)). lia.
    + pose proof (p2_add 52 e) as E.
      rewrite (p2_of_nonneg 52), (p2_of_nonpos (Z.opp 52)) in E by lia.
      replace (- (-52 - e)) with (52 + e) by lia.
      replace (-52 - e) with (- (52 + e)) by lia. nia.
Qed.

Lemma mul_canonical x y : canonical (mul x y).
Proof.
  destruct x as [sx | sx | | sx mx ex], y as [sy | sy | | sy my ey]; try exact I.
  unfold mul, exact. apply round_ratio_canonical. apply p2_pos.
Qed.

End Rounding.

(** ** The matcher on the distance patterns *)

Lemma star_loop_class (A : Type) p (k : jsstring -> captures -> option A) :
  forall fuel s c, (List.length s <= fuel)%nat ->
    star_loop (rmatch (Class p)) k fuel s c = star_class_form A p k s c.
Proof.
  induction fuel as [| fuel IH]; intros s c Hlen.
  - destruct s; [reflexivity | simpl in Hlen; lia].
  - destruct s as [| a s']; [reflexivity |].
    simpl. destruct (p a) eqn:Ha; [| reflexivity].
    rewrite (proj2 (Nat.ltb_lt _ _) (Nat.lt_succ_diag_r _)).
    rewrite IH by (simpl in Hlen; lia). reflexivity.
Qed.

Lemma star_class_greedy (A : Type) p (k : jsstring -> captures -> option A) :
  rejects A p k -> forall s c, star_class_form A p k s c = k (skip p s) c.
Proof.
  intros Hk s c. induction s as [| a s' IH]; [reflexivity |].
  simpl. destruct (p a) eqn:Ha; [| reflexivity].
  rewrite IH. destruct (k (skip p s') c); [reflexivity |].
  apply Hk. exact Ha.
Qed.

Lemma star_class (A : Type) p (k : jsstring -> captures -> option A) s c :
  rejects A p k -> rmatch (Star (Class p)) s c k = k (skip p s) c.
Proof.
  intros Hk.
  change (rmatch (Star (Class p)) s c k)
    with (star_loop (rmatch (Class p)) k (List.length s) s c).
  rewrite star_loop_class by apply Nat.le_refl.
  apply star_class_greedy. exact Hk.
Qed.

Lemma plus_class (A : Type) p (k : jsstring -> captures -> option A) s c :
  rejects A p k ->
  rmatch (Plus (Class p)) s c k =
  match s with
  | a :: s' => if p a then k (skip p s') c else None
  | [] => None
  end.
Proof.
  intros Hk. unfold Plus.
  change (rmatch (Seq (Class p) (Star (Class p))) s c k)
    with (match s with
          | a :: s' => if p a then rmatch (Star (Class p)) s' c k else None
          | [] => None
          end).
  destruct s as [| a s']; [reflexivity |].
  destruct (p a); [| reflexivity]. apply star_class. exact Hk.
Qed.

Lemma digit_not_sep a : is_digit a = true -> is_sep a = false.
Proof.
  unfold is_digit, is_sep. intros H. apply andb_true_iff in H as [H1 H2].
  apply N.leb_le in H1. apply N.leb_le in H2.
  destruct (N.eqb_spec a 46), (N.eqb_spec a 44); try reflexivity; lia.
Qed.

Lemma digit_not_space a : is_digit a = true -> is_space a = false.
Proof.
  unfold is_digit, is_space. intros H. apply andb_true_iff in H as [H1 H2].
  apply N.leb_le in H1. apply N.leb_le in H2.
  repeat match goal with
         | |- context [N.eqb a ?c] => destruct (N.eqb_spec a c); [lia |]
         | |- context [N.leb ?x ?y] => destruct (N.leb_spec x y)
         end; simpl; try reflexivity; lia.
Qed.

Lemma sep_not_space a : is_sep a = true -> is_space a = false.
Proof.
  unfold is_sep, is_space. intros H. apply orb_true_iff in H.
  assert (a = 46 \/ a = 44)%N as [-> | ->]
    by (destruct H as [H | H]; apply N.eqb_eq in H; auto);
    reflexivity.
Qed.

Lemma rmatch_alt (A : Type) r1 r2 s c (k : jsstring -> captures -> option A) :
  rmatch (Alt r1 r2) s c k =
  match rmatch r1 s c k with Some a => Some a | None => rmatch r2 s c k end.
Proof. reflexivity. Qed.

Lemma rmatch_seq_class (A : Type) p r s c (k : jsstring -> captures -> option A) :
  rmatch (Seq (Class p) r) s c k =
  match s with
  | a :: s' => if p a then rmatch r s' c k else None
  | [] => None
  end.
Proof. destruct s; reflexivity. Qed.

Lemma rmatch_empty (A : Type) s c (k : jsstring -> captures -> option A) :
  rmatch Empty s c k = k s c.
Proof. reflexivity. Qed.

Lemma rmatch_group (A : Type) i r s c (k : jsstring -> captures -> option A) :
  rmatch (Group i r) s c k = rmatch r s c (fun s' c' => k s' ((i, consumed s s') :: c')).
Proof. reflexivity. Qed.

Lemma exec_eq r s :
  exec r s =
  match rmatch r s [] k0 with
  | Some c => Some c
  | None => match s with [] => None | _ :: s' => exec r s' end
  end.
Proof. destruct s; reflexivity. Qed.

Lemma first_scan_eq unit_ok s :
  first_scan unit_ok s =
  match scan unit_ok s with
  | Some cap => Some cap
  | None => match s with [] => None | _ :: s' => first_scan unit_ok s' end
  end.
Proof. destruct s; reflexivity. Qed.

(** The captures only grow: a success of the matcher is a success of its
    continuation, on captures that extend the ones the matcher was given. *)
Lemma star_loop_extends (A : Type)
    (body : jsstring -> captures -> (jsstring -> captures -> option A) -> option A)
    (k : jsstring -> captures -> option A) :
  (forall s c k' a, body s c k' = Some a -> exists s' l, k' s' (l ++ c) = Some a) ->
  forall fuel s c a,
    star_loop body k fuel s c = Some a -> exists s' l, k s' (l ++ c) = Some a.
Proof.
  intros Hbody. induction fuel as [| fuel IH]; intros s c a H; cbn [star_loop] in H.
  - exists s, []. exact H.
  - destruct (body s c _) as [a' |] eqn:E.
    + injection H as ->. apply Hbody in E. destruct E as (s1 & l1 & E).
      destruct (Nat.ltb (List.length s1) (List.length s)); [| discriminate E].
      apply IH in E. destruct E as (s2 & l2 & E).
      exists s2, (l2 ++ l1). rewrite <- app_assoc. exact E.
    + exists s, []. exact H.
Qed.

Lemma rmatch_extends (A : Type) r :
  forall s c (k : jsstring -> captures -> option A) a,
    rmatch r s c k = Some a -> exists s' l, k s' (l ++ c) = Some a.
Proof.
  induction r as [| p | r1 IH1 r2 IH2 | r1 IH1 r2 IH2 | r IH | i r IH];
    intros s c k a H; cbn [rmatch] in H.
  - exists s, []. exact H.
  - destruct s as [| x s']; [discriminate H |].
    destruct (p x); [| discriminate H]. exists s', []. exact H.
  - apply IH1 in H. destruct H as (s1 & l1 & H).
    apply IH2 in H. destruct H as (s2 & l2 & H).
    exists s2, (l2 ++ l1). rewrite <- app_assoc. exact H.
  - destruct (rmatch r1 s c k) as [a' |] eqn:E.
    + injection H as ->. apply IH1 in E. exact E.
    + apply IH2 in H. exact H.
  - eapply star_loop_extends; [exact IH | exact H].
  - apply IH in H. destruct H as (s1 & l1 & H).
    exists s1, ((i, consumed s s1) :: l1). exact H.
Qed.

Lemma capture_recorded i (l : captures) x rest :
  exists t, capture i (l ++ (i, x) :: rest) = Some t.
Proof.
  unfold capture. induction l as [| e l IH]; cbn [app find fst].
  - rewrite Nat.eqb_refl. eexists. reflexivity.
  - destruct (Nat.eqb (fst e) i); [eexists; reflexivity | exact IH].
Qed.

(** Group 1 takes part in every match of a distance pattern, so that
    [m[1]] is a string. *)
Lemma pattern_group1 U s m :
  rmatch (pattern U) s [] k0 = Some m -> exists t, capture 1 m = Some t.
Proof.
  intros E.
  change (rmatch (pattern U) s [] k0)
    with (rmatch number_re s []
            (fun s' c' =>
               rmatch (Seq (Star (Class is_space)) (Group 2 U)) s'
                 ((1%nat, consumed s s') :: c') k0)) in E.
  apply rmatch_extends in E. destruct E as (s1 & l1 & E).
  apply rmatch_extends in E. destruct E as (s2 & l2 & E).
  unfold k0 in E. injection E as <-. apply capture_recorded.
Qed.

Lemma exec_group1 U s m :
  exec (pattern U) s = Some m -> exists t, capture 1 m = Some t.
Proof.
  induction s as [| a s IH]; rewrite exec_eq;
    destruct (rmatch (pattern U) _ [] k0) as [c |] eqn:E; intros H.
  - injection H as <-. apply (pattern_group1 U _ _ E).
  - discriminate H.
  - injection H as <-. apply (pattern_group1 U _ _ E).
  - apply IH. exact H.
Qed.

Lemma group1_replace_defined U s m :
  exec (pattern U) s = Some m ->
  group1_replace m = Normal (replace (group1 m) (js ",") (js ".")).
Proof.
  intros H. destruct (exec_group1 U s _ H) as (t & E).
  unfold group1_replace, group1. rewrite E. reflexivity.
Qed.

Section NumberUnit.

Variable U : regex.
Variable unit_ok : jsstring -> bool.

Hypothesis U_spec : forall s c,
  if unit_ok s
  then exists c', rmatch (Group 2 U) s c k0 = Some c' /\ capture 1 c' = capture 1 c
  else rmatch (Group 2 U) s c k0 = None.

Hypothesis unit_first : forall a s,
  unit_ok (a :: s) = true ->
  is_digit a = false /\ is_sep a = false /\ is_space a = false.

Lemma unit_tail_rejects p :
  (forall a, p a = true -> is_digit a = true \/ is_sep a = true \/ is_space a = true) ->
  rejects _ p (unit_tail U).
Proof.
  intros Hp a s c Ha. unfold unit_tail. pose proof (U_spec (a :: s) c) as H.
  destruct (unit_ok (a :: s)) eqn:Hu; [| exact H].
  apply unit_first in Hu as (H1 & H2 & H3).
  destruct (Hp a Ha) as [E | [E | E]]; congruence.
Qed.

Lemma space_tail_eq s c : (space_tail U) s c = (unit_tail U) (skip is_space s) c.
Proof. unfold space_tail. apply star_class. apply unit_tail_rejects. auto. Qed.

Lemma space_tail_rejects p :
  (forall a, p a = true -> is_digit a = true \/ is_sep a = true) ->
  rejects _ p (space_tail U).
Proof.
  intros Hp a s c Ha. rewrite space_tail_eq.
  assert (is_space a = false) as Hs
    by (destruct (Hp a Ha); [apply digit_not_space | apply sep_not_space]; auto).
  simpl. rewrite Hs. apply (unit_tail_rejects p); auto.
  intros b Hb. destruct (Hp b Hb); auto.
Qed.

Lemma match_at s :
  option_map group1 (rmatch (pattern U) s [] k0) = scan unit_ok s.
Proof.
  unfold pattern.
  change (rmatch (Seq (Group 1 number_re) (Seq (Star (Class is_space)) (Group 2 U))) s [] k0)
    with (rmatch (Plus (Class is_digit)) s []
            (fun s1 c1 =>
               rmatch (Opt (Seq (Class is_sep) (Plus (Class is_digit)))) s1 c1
                 (fun s2 c2 => (space_tail U) s2 ((1%nat, consumed s s2) :: c2)))).
  set (K1 := fun s2 c2 => (space_tail U) s2 ((1%nat, consumed s s2) :: c2)).
  assert (R1 : forall p, (forall a, p a = true -> is_digit a = true \/ is_sep a = true) ->
                         rejects _ p K1).
  { intros p Hp a t c Ha. unfold K1. apply (space_tail_rejects p); auto. }
  assert (Fin : forall rest,
             option_map group1 (K1 rest []) =
             if unit_ok (skip is_space rest) then Some (consumed s rest) else None).
  { intros rest. unfold K1. rewrite space_tail_eq. unfold unit_tail.
    pose proof (U_spec (skip is_space rest) [(1%nat, consumed s rest)]) as H.
    destruct (unit_ok (skip is_space rest)).
    - destruct H as (c' & -> & H). simpl. unfold group1. rewrite H. reflexivity.
    - rewrite H. reflexivity. }
  assert (R2 : rejects _ is_digit
                 (fun s1 c1 =>
                    rmatch (Opt (Seq (Class is_sep) (Plus (Class is_digit)))) s1 c1 K1)).
  { intros a t c Ha. cbv beta. unfold Opt.
    rewrite rmatch_alt, rmatch_seq_class, rmatch_empty, (digit_not_sep a Ha).
    apply (R1 is_digit); auto. }
  rewrite (plus_class _ _ _ _ _ R2).
  unfold scan, after_number.
  destruct s as [| a s']; [reflexivity |].
  destruct (is_digit a) eqn:Ha; [| reflexivity].
  set (r1 := skip is_digit s').
  unfold Opt. rewrite rmatch_alt, rmatch_seq_class, rmatch_empty.
  destruct r1 as [| b [| d r2]].
  - apply Fin.
  - destruct (is_sep b); apply Fin.
  - rewrite plus_class by (apply (R1 is_digit); auto).
    destruct (is_sep b) eqn:Hb; simpl andb; [| apply Fin].
    destruct (is_digit d) eqn:Hd; [| apply Fin].
    destruct (K1 (skip is_digit r2) []) eqn:E.
    + rewrite <- E. apply Fin.
    + rewrite (R1 is_sep) by auto. rewrite <- E. apply Fin.
Qed.

Lemma exec_first_scan s :
  option_map group1 (exec (pattern U) s) = first_scan unit_ok s.
Proof.
  induction s as [| a s IH]; rewrite exec_eq, first_scan_eq, <- match_at;
    destruct (rmatch (pattern U) _ [] k0); try reflexivity.
  exact IH.
Qed.

End NumberUnit.

(** ** The scan and the numbers of a text *)

Lemma take_skip p s : s = take p s ++ skip p s.
Proof.
  induction s as [| a s IH]; [reflexivity |]. simpl.
  destruct (p a); [simpl; f_equal; exact IH | reflexivity].
Qed.

Lemma take_all p s : all_of p (take p s).
Proof.
  induction s as [| a s IH]; simpl; [constructor |].
  destruct (p a) eqn:E; constructor; auto.
Qed.

Lemma skip_app p l r : all_of p l -> no_head p r -> skip p (l ++ r) = r.
Proof.
  intros Hl Hr. induction Hl as [| a l Ha Hl IH]; simpl.
  - destruct r as [| b r]; [reflexivity |]. simpl in *. rewrite Hr. reflexivity.
  - rewrite Ha. exact IH.
Qed.

Lemma consumed_app (l r : jsstring) : consumed (l ++ r) r = l.
Proof.
  unfold consumed. rewrite length_app.
  replace (List.length l + List.length r - List.length r)%nat
    with (List.length l + 0)%nat by lia.
  rewrite firstn_app_2. simpl. apply app_nil_r.
Qed.

Section Scan.

Variable unit_ok : jsstring -> bool.

Hypothesis unit_first : forall a s,
  unit_ok (a :: s) = true ->
  is_digit a = false /\ is_sep a = false /\ is_space a = false.

Lemma unit_no_head rest p :
  unit_ok rest = true ->
  (forall a, p a = true -> is_digit a = true \/ is_sep a = true \/ is_space a = true) ->
  no_head p rest.
Proof.
  intros H Hp. destruct rest as [| a r]; [exact I |]. simpl.
  apply unit_first in H as (H1 & H2 & H3).
  destruct (p a) eqn:E; [| reflexivity].
  destruct (Hp a E) as [F | [F | F]]; congruence.
Qed.

Lemma tail_no_head ws rest p :
  all_of is_space ws -> unit_ok rest = true ->
  (forall a, p a = true -> is_digit a = true \/ is_sep a = true) ->
  no_head p (ws ++ rest).
Proof.
  intros Hws H Hp. destruct ws as [| w ws].
  - apply unit_no_head; auto. intros a Ha. destruct (Hp a Ha); auto.
  - simpl. inversion Hws as [| ? ? Hw _]; subst.
    destruct (p w) eqn:E; [| reflexivity].
    destruct (Hp w E) as [F | F].
    + apply digit_not_space in F. congruence.
    + apply sep_not_space in F. congruence.
Qed.

Lemma scan_sound s cap :
  scan unit_ok s = Some cap -> occurs unit_ok [] cap s.
Proof.
  unfold scan, after_number. destruct s as [| a s']; [discriminate |].
  destruct (is_digit a) eqn:Ha; [| discriminate].
  pose proof (take_skip is_digit s') as E1.
  pose proof (take_all is_digit s') as A1.
  set (l1 := take is_digit s') in *. set (r1 := skip is_digit s') in *.
  assert (Hint : forall rest,
             rest = r1 ->
             (if unit_ok (skip is_space rest)
              then Some (consumed (a :: s') rest) else None) = Some cap ->
             occurs unit_ok [] cap (a :: s')).
  { intros rest -> H. destruct (unit_ok (skip is_space r1)) eqn:Hu; [| discriminate].
    injection H as <-. exists (take is_space r1), (skip is_space r1).
    rewrite <- take_skip. rewrite E1.
    change (a :: l1 ++ r1) with ((a :: l1) ++ r1). rewrite consumed_app.
    split; [reflexivity |]. split; [| split; [apply take_all | exact Hu]].
    apply number_int; [discriminate | constructor; auto]. }
  destruct r1 as [| b [| d r2]] eqn:Er; try (apply Hint; reflexivity).
  destruct (is_sep b) eqn:Hb; simpl andb; [| apply Hint; reflexivity].
  destruct (is_digit d) eqn:Hd; [| apply Hint; reflexivity].
  intros H. destruct (unit_ok (skip is_space (skip is_digit r2))) eqn:Hu; [| discriminate].
  injection H as <-.
  pose proof (take_skip is_digit r2) as E2.
  set (l2 := take is_digit r2) in *. set (rest := skip is_digit r2) in *.
  exists (take is_space rest), (skip is_space rest).
  rewrite <- take_skip.
  assert (Es : a :: s' = ((a :: l1) ++ b :: d :: l2) ++ rest).
  { rewrite E1, E2. simpl. rewrite <- app_assoc. reflexivity. }
  rewrite Es, consumed_app.
  split; [reflexivity |]. split; [| split; [apply take_all | exact Hu]].
  apply number_frac; auto; try discriminate; constructor; auto.
  apply take_all.
Qed.

Lemma scan_complete cap ws rest :
  number_text cap -> all_of is_space ws -> unit_ok rest = true ->
  scan unit_ok (cap ++ ws ++ rest) = Some cap.
Proof.
  intros Hc Hws Hu.
  assert (Hsp : skip is_space (ws ++ rest) = rest).
  { apply skip_app; auto. apply unit_no_head; auto. }
  assert (Hnd : no_head is_digit (ws ++ rest)) by (apply tail_no_head; auto).
  assert (Hns : no_head is_sep (ws ++ rest)) by (apply tail_no_head; auto).
  destruct Hc as [ds Hne Hds | ds b fs Hne Hds Hb Hfe Hfs].
  - destruct ds as [| a ds']; [congruence |]. inversion Hds as [| ? ? Ha Hds']; subst.
    unfold scan, after_number. simpl app. cbv iota. rewrite Ha.
    rewrite (skip_app is_digit ds' (ws ++ rest)) by auto.
    set (tl := ws ++ rest) in *.
    etransitivity; [| apply f_equal; apply (consumed_app (a :: ds') tl)].
    simpl app.
    destruct tl as [| b [| d r2]]; cbv iota;
      try (simpl in Hns; rewrite Hns; simpl andb; cbv iota);
      rewrite Hsp, Hu; reflexivity.
  - destruct ds as [| a ds']; [congruence |]. inversion Hds as [| ? ? Ha Hds']; subst.
    destruct fs as [| d fs']; [congruence |]. inversion Hfs as [| ? ? Hd Hfs']; subst.
    unfold scan, after_number. rewrite <- !app_assoc. simpl app. cbv iota. rewrite Ha.
    rewrite (skip_app is_digit ds' (b :: d :: fs' ++ ws ++ rest)); auto.
    2:{ simpl. destruct (is_digit b) eqn:E; auto. apply digit_not_sep in E. congruence. }
    rewrite Hb, Hd. simpl andb. cbv iota.
    rewrite (skip_app is_digit fs' (ws ++ rest)) by auto.
    rewrite Hsp, Hu.
    change (a :: ds' ++ b :: d :: fs' ++ ws ++ rest)
      with ((a :: ds') ++ (b :: d :: fs') ++ ws ++ rest).
    rewrite app_assoc, consumed_app. reflexivity.
Qed.

Lemma first_scan_inv s cap :
  first_scan unit_ok s = Some cap -> exists pre, occurs unit_ok pre cap s.
Proof.
  induction s as [| a s IH]; rewrite first_scan_eq;
    destruct (scan unit_ok _) eqn:E.
  - intros [= <-]. exists []. apply scan_sound. exact E.
  - discriminate.
  - intros [= <-]. exists []. apply scan_sound. exact E.
  - intros H. destruct (IH H) as (pre & ws & rest & Hs & Hrest).
    exists (a :: pre), ws, rest. rewrite Hs. auto.
Qed.

Lemma first_scan_leftmost pre s0 cap :
  scan unit_ok s0 = Some cap ->
  (forall pre' s0', pre ++ s0 = pre' ++ s0' ->
     (List.length pre' < List.length pre)%nat -> scan unit_ok s0' = None) ->
  first_scan unit_ok (pre ++ s0) = Some cap.
Proof.
  intros Hs. induction pre as [| a pre IH]; intros Hmin.
  - simpl. rewrite first_scan_eq, Hs. reflexivity.
  - rewrite first_scan_eq.
    rewrite (Hmin [] ((a :: pre) ++ s0)) by (simpl; auto; lia).
    simpl. apply IH. intros pre' s0' E L.
    apply (Hmin (a :: pre') s0'); simpl; [f_equal; exact E | lia].
Qed.

Lemma first_scan_occurs pre cap s :
  occurs unit_ok pre cap s ->
  (forall pre' cap', occurs unit_ok pre' cap' s ->
     (List.length pre <= List.length pre')%nat) ->
  first_scan unit_ok s = Some cap.
Proof.
  intros (ws & rest & -> & Hc & Hws & Hu) Hmin.
  apply first_scan_leftmost.
  - apply scan_complete; auto.
  - intros pre' s0' E L. destruct (scan unit_ok s0') as [cap' |] eqn:Hs; [| reflexivity].
    exfalso. apply scan_sound in Hs. destruct Hs as (ws' & rest' & Hs' & Hrest).
    assert (O : occurs unit_ok pre' cap' (pre ++ cap ++ ws ++ rest)).
    { exists ws', rest'. rewrite E, Hs'. auto. }
    apply Hmin in O. lia.
Qed.

Lemma first_scan_none s :
  (forall pre cap, ~ occurs unit_ok pre cap s) -> first_scan unit_ok s = None.
Proof.
  intros H. destruct (first_scan unit_ok s) as [cap |] eqn:E; [| reflexivity].
  apply first_scan_inv in E. destruct E as (pre & O). exfalso. exact (H pre cap O).
Qed.

Lemma first_scan_some pre cap s :
  occurs unit_ok pre cap s -> exists cap', first_scan unit_ok s = Some cap'.
Proof.
  intros (ws & rest & -> & Hc & Hws & Hu).
  induction pre as [| a pre IH].
  - exists cap. rewrite first_scan_eq. simpl app.
    rewrite scan_complete by auto. reflexivity.
  - rewrite first_scan_eq. destruct (scan unit_ok ((a :: pre) ++ cap ++ ws ++ rest)) as [c |].
    + exists c. reflexivity.
    + exact IH.
Qed.

Lemma first_scan_inv_min s cap :
  first_scan unit_ok s = Some cap ->
  exists pre,
    occurs unit_ok pre cap s
    /\ forall pre' cap', occurs unit_ok pre' cap' s ->
         (List.length pre <= List.length pre')%nat.
Proof.
  induction s as [| a s IH]; rewrite first_scan_eq;
    destruct (scan unit_ok _) eqn:E.
  - intros [= <-]. exists []. split; [apply scan_sound; exact E |].
    intros; simpl; lia.
  - intros H. discriminate H.
  - intros [= <-]. exists []. split; [apply scan_sound; exact E |].
    intros; simpl; lia.
  - intros H. destruct (IH H) as (pre & (ws & rest & Hs & Hrest) & Hmin).
    exists (a :: pre). split.
    + exists ws, rest. rewrite Hs. auto.
    + intros pre' cap' (ws' & rest' & Hs' & Hc' & Hws' & Hu').
      destruct pre' as [| b pre'].
      * simpl in Hs'. rewrite Hs' in E. rewrite scan_complete in E by auto. discriminate.
      * injection Hs' as -> Hs'. simpl.
        apply le_n_S. apply (Hmin pre' cap'). exists ws', rest'. auto.
Qed.

End Scan.

(** ** parseFloat on a number text *)

Lemma is_digit_range a : is_digit a = true -> (48 <= a <= 57)%N.
Proof.
  unfold is_digit. intros H. apply andb_true_iff in H as [H1 H2].
  apply N.leb_le in H1. apply N.leb_le in H2. lia.
Qed.

Lemma span_digits_app ds r :
  all_of is_digit ds -> no_head is_digit r -> span_digits (ds ++ r) = (ds, r).
Proof.
  intros Hd Hr. induction Hd as [| a ds Ha Hd IH]; simpl.
  - destruct r as [| b r]; [reflexivity |]. simpl in *. rewrite Hr. reflexivity.
  - rewrite Ha, IH. reflexivity.
Qed.

Lemma span_digits_all ds : all_of is_digit ds -> span_digits ds = (ds, []).
Proof.
  intros H. rewrite <- (app_nil_r ds) at 1. apply span_digits_app; [exact H | exact I].
Qed.

Lemma replace_comma_cons a s :
  replace (a :: s) [44%N] [46%N] =
  if (44 =? a)%N then 46%N :: s else a :: replace s [44%N] [46%N].
Proof.
  cbn [replace starts_with skipn List.length app].
  destruct (44 =? a)%N; reflexivity.
Qed.

Lemma replace_no_comma s :
  Forall (fun c => c <> 44%N) s -> replace s [44%N] [46%N] = s.
Proof.
  induction 1 as [| a s Ha Hs IH]; [reflexivity |].
  rewrite replace_comma_cons. destruct (N.eqb_spec 44 a); [congruence |].
  rewrite IH. reflexivity.
Qed.

Lemma replace_first_comma ds fs :
  Forall (fun c => c <> 44%N) ds ->
  replace (ds ++ 44%N :: fs) [44%N] [46%N] = ds ++ 46%N :: fs.
Proof.
  induction 1 as [| a s Ha Hs IH].
  - simpl app. rewrite replace_comma_cons. reflexivity.
  - simpl app. rewrite replace_comma_cons. destruct (N.eqb_spec 44 a); [congruence |].
    rewrite IH. reflexivity.
Qed.

Lemma digits_no_comma ds : all_of is_digit ds -> Forall (fun c => c <> 44%N) ds.
Proof.
  intros H. eapply Forall_impl; [| exact H]. intros a Ha.
  apply is_digit_range in Ha. lia.
Qed.

Lemma digits_value_nonneg ds : all_of is_digit ds -> (0 <= digits_value ds)%Z.
Proof.
  unfold digits_value. intros H.
  assert (G : forall acc, (0 <= acc)%Z ->
            (0 <= fold_left (fun acc c => 10 * acc + (Z.of_N c - 48)) ds acc)%Z).
  { induction H as [| a ds Ha Hd IH]; intros acc Hacc; cbn [fold_left]; [exact Hacc |].
    apply IH. apply is_digit_range in Ha. lia. }
  apply G. lia.
Qed.

Lemma starts_with_head_ne b t a s :
  b <> a -> starts_with (b :: t) (a :: s) = false.
Proof.
  intros H. cbn [starts_with]. destruct (N.eqb_spec b a); [congruence | reflexivity].
Qed.

Lemma parseFloat_digits a ds tail :
  is_digit a = true -> all_of is_digit ds ->
  tail = [] \/ (exists fs, tail = 46%N :: fs /\ all_of is_digit fs) ->
  parseFloat ((a :: ds) ++ tail) =
  match tail with
  | [] => round_ratio false (digits_value (a :: ds)) 1
  | _ :: fs =>
      round_ratio false (digits_value ((a :: ds) ++ fs)) (10 ^ Z.of_nat (List.length fs))
  end.
Proof.
  intros Ha Hds Htail.
  pose proof (is_digit_range a Ha) as Ra.
  assert (Hsp : is_space a = false) by (apply digit_not_space; exact Ha).
  unfold parseFloat. cbn [app trimStart]. rewrite Hsp.
  unfold sign_prefix.
  destruct (N.eqb_spec a 43); [lia |]. destruct (N.eqb_spec a 45); [lia |].
  change (js "Infinity") with [73; 110; 102; 105; 110; 105; 116; 121]%N.
  change ((a :: ds) ++ tail) with (a :: ds ++ tail).
  rewrite starts_with_head_ne by lia.
  assert (Hnh : no_head is_digit tail).
  { destruct Htail as [-> | (fs & -> & _)]; [exact I | reflexivity]. }
  change (a :: ds ++ tail) with ((a :: ds) ++ tail).
  rewrite (span_digits_app (a :: ds) tail) by (try constructor; auto).
  destruct Htail as [-> | (fs & -> & Hfs)].
  - simpl app. simpl exponent_part. simpl List.length.
    change (Z.max 0 (0 - Z.of_nat 0)) with 0%Z. change (Z.max 0 (- (0 - Z.of_nat 0))) with 0%Z.
    rewrite app_nil_r. change (10 ^ 0)%Z with 1%Z. rewrite Z.mul_1_r. reflexivity.
  - rewrite N.eqb_refl. rewrite (span_digits_all fs Hfs).
    simpl exponent_part. simpl app.
    rewrite Z.max_l, Z.max_r by lia. change (10 ^ 0)%Z with 1%Z. rewrite Z.mul_1_r.
    replace (- (0 - Z.of_nat (List.length fs)))%Z with (Z.of_nat (List.length fs)) by lia.
    reflexivity.
Qed.

Lemma decimal_value_int ds :
  all_of is_digit ds -> decimal_value ds = (digits_value ds, 1%Z).
Proof. intros H. unfold decimal_value. rewrite span_digits_all by exact H. reflexivity. Qed.

Lemma decimal_value_frac ds b fs :
  all_of is_digit ds -> is_sep b = true ->
  decimal_value (ds ++ b :: fs) =
  (digits_value (ds ++ fs), (10 ^ Z.of_nat (List.length fs))%Z).
Proof.
  intros H Hb. unfold decimal_value. rewrite span_digits_app; auto.
  simpl. destruct (is_digit b) eqn:E; [| reflexivity].
  apply digit_not_sep in E. congruence.
Qed.

Lemma parseFloat_number_text cap :
  number_text cap ->
  parseFloat (replace cap (js ",") (js ".")) =
  round_ratio false (fst (decimal_value cap)) (snd (decimal_value cap)).
Proof.
  change (js ",") with [44%N]. change (js ".") with [46%N].
  intros [ds Hne Hds | ds b fs Hne Hds Hb Hfe Hfs].
  - rewrite replace_no_comma by (apply digits_no_comma; exact Hds).
    rewrite decimal_value_int by exact Hds.
    destruct ds as [| a ds]; [congruence |]. inversion Hds; subst.
    rewrite <- (app_nil_r (a :: ds)) at 1.
    rewrite parseFloat_digits; auto.
  - rewrite decimal_value_frac by auto.
    assert (E : replace (ds ++ b :: fs) [44%N] [46%N] = ds ++ 46%N :: fs).
    { unfold is_sep in Hb. apply orb_true_iff in Hb as [Hb | Hb]; apply N.eqb_eq in Hb; subst b.
      - apply replace_no_comma. apply Forall_app. split; [apply digits_no_comma; auto |].
        constructor; [lia | apply digits_no_comma; auto].
      - apply replace_first_comma. apply digits_no_comma; auto. }
    rewrite E. destruct ds as [| a ds]; [congruence |]. inversion Hds; subst.
    rewrite parseFloat_digits; auto. right. exists fs. auto.
Qed.

Lemma decimal_value_sound cap :
  number_text cap ->
  (0 <= fst (decimal_value cap) /\ 0 < snd (decimal_value cap))%Z.
Proof.
  intros [ds Hne Hds | ds b fs Hne Hds Hb Hfe Hfs].
  - rewrite decimal_value_int by auto. simpl. split; [apply digits_value_nonneg; auto | lia].
  - rewrite decimal_value_frac by auto. simpl. split.
    + apply digits_value_nonneg. apply Forall_app. auto.
    + apply Z.pow_pos_nonneg; lia.
Qed.

(** ** The units of the two patterns *)

Lemma starts_with_spec t s :
  starts_with t s = true <-> exists post, s = t ++ post.
Proof.
  revert s. induction t as [| a t IH]; intros s.
  - simpl. split; [intros _; exists s; reflexivity | reflexivity].
  - destruct s as [| b s]; cbn [starts_with].
    + split; [discriminate | intros (post & H); discriminate].
    + rewrite andb_true_iff, N.eqb_eq, IH. split.
      * intros (-> & post & ->). exists post. reflexivity.
      * intros (post & H). injection H as -> ->. split; [reflexivity | exists post; reflexivity].
Qed.

Lemma includes_spec s t :
  includes s t = true <-> exists pre post, s = pre ++ t ++ post.
Proof.
  induction s as [| a s IH].
  - cbn [includes]. rewrite orb_false_r, starts_with_spec. split.
    + intros (post & H). exists [], post. exact H.
    + intros (pre & post & H). destruct pre as [| ? ?]; [| discriminate].
      exists post. exact H.
  - cbn [includes]. rewrite orb_true_iff, starts_with_spec, IH. split.
    + intros [(post & H) | (pre & post & H)].
      * exists [], post. exact H.
      * exists (a :: pre), post. rewrite H. reflexivity.
    + intros (pre & post & H). destruct pre as [| b pre].
      * left. exists post. exact H.
      * right. injection H as -> H. exists pre, post. exact H.
Qed.

Lemma km_units_spec s c :
  if ok_km s
  then exists c', rmatch (Group 2 km_units) s c k0 = Some c' /\ capture 1 c' = capture 1 c
  else rmatch (Group 2 km_units) s c k0 = None.
Proof.
  unfold ok_km, km_units. rewrite rmatch_group.
  change (js "km") with [107; 109]%N. change (js "k") with [107]%N.
  change (js "kil") with [107; 105; 108]%N.
  cbn [Lit]. rewrite !rmatch_alt.
  destruct s as [| a s]; [reflexivity |].
  cbn [starts_with rmatch Chr]. destruct (107 =? a)%N; [| reflexivity].
  cbn [andb]. destruct s as [| b s].
  - eexists. split; reflexivity.
  - destruct (109 =? b)%N; eexists; split; reflexivity.
Qed.

Lemma mi_units_spec s c :
  if ok_mi s
  then exists c', rmatch (Group 2 mi_units) s c k0 = Some c' /\ capture 1 c' = capture 1 c
  else rmatch (Group 2 mi_units) s c k0 = None.
Proof.
  unfold ok_mi, mi_units. rewrite rmatch_group.
  change (js "mi") with [109; 105]%N.
  change (js "millas") with [109; 105; 108; 108; 97; 115]%N.
  cbn [Lit]. rewrite !rmatch_alt.
  destruct s as [| a s]; [reflexivity |].
  cbn [starts_with rmatch Chr]. destruct (109 =? a)%N; [| reflexivity].
  cbn [andb]. destruct s as [| b s]; [reflexivity |].
  destruct (105 =? b)%N; [| reflexivity].
  cbn [andb]. eexists. split; reflexivity.
Qed.

Lemma ok_km_first a s :
  ok_km (a :: s) = true ->
  is_digit a = false /\ is_sep a = false /\ is_space a = false.
Proof.
  unfold ok_km. change (js "k") with [107]%N. cbn [starts_with].
  destruct (N.eqb_spec 107 a) as [<- | _]; [| discriminate].
  intros _. repeat split.
Qed.

Lemma ok_mi_first a s :
  ok_mi (a :: s) = true ->
  is_digit a = false /\ is_sep a = false /\ is_space a = false.
Proof.
  unfold ok_mi. change (js "mi") with [109; 105]%N. cbn [starts_with].
  destruct (N.eqb_spec 109 a) as [<- | _]; [| discriminate].
  intros _. repeat split.
Qed.

Lemma number_before_km pre cap s :
  number_before km_unit pre cap s <-> occurs ok_km pre cap s.
Proof.
  unfold number_before, occurs, ok_km. split.
  - intros (ws & u & post & -> & Hc & Hws & Hu). exists ws, (u ++ post).
    repeat split; auto. apply starts_with_spec.
    destruct Hu as [-> | [-> | [-> | ->]]].
    + exists (109%N :: post). reflexivity.
    + exists post. reflexivity.
    + exists (skipn 1 (js "kilómetros") ++ post). reflexivity.
    + exists (skipn 1 (js "kilometros") ++ post). reflexivity.
  - intros (ws & rest & -> & Hc & Hws & Hu). apply starts_with_spec in Hu as (post & ->).
    exists ws, (js "k"), post. repeat split; auto. right. left. reflexivity.
Qed.

Lemma number_before_mi pre cap s :
  number_before mi_unit pre cap s <-> occurs ok_mi pre cap s.
Proof.
  unfold number_before, occurs, ok_mi. split.
  - intros (ws & u & post & -> & Hc & Hws & Hu). exists ws, (u ++ post).
    repeat split; auto. apply starts_with_spec.
    destruct Hu as [-> | ->].
    + exists post. reflexivity.
    + exists (skipn 2 (js "millas") ++ post). reflexivity.
  - intros (ws & rest & -> & Hc & Hws & Hu). apply starts_with_spec in Hu as (post & ->).
    exists ws, (js "mi"), post. repeat split; auto. left. reflexivity.
Qed.

Lemma exec_km s : option_map group1 (exec km_re s) = first_scan ok_km s.
Proof.
  apply (exec_first_scan km_units ok_km km_units_spec ok_km_first).
Qed.

Lemma exec_mi s : option_map group1 (exec mi_re s) = first_scan ok_mi s.
Proof.
  apply (exec_first_scan mi_units ok_mi mi_units_spec ok_mi_first).
Qed.

(** ** The distance of a prompt *)

Section Parser.

Context {RT : Runtime}.

Lemma parsePrompt_distance prompt mode :
  Parsed.distanceKm (parsePrompt prompt mode) =
  match first_scan ok_km (toLowerCase prompt) with
  | Some cap => Some (parseFloat (replace cap (js ",") (js ".")))
  | None =>
      match first_scan ok_mi (toLowerCase prompt) with
      | Some cap =>
          Some (mul (parseFloat (replace cap (js ",") (js "."))) (dec 1609 3))
      | None => None
      end
  end.
Proof.
  unfold parsePrompt. cbn [Parsed.distanceKm].
  rewrite <- exec_km, <- exec_mi.
  destruct (exec km_re (toLowerCase prompt)); [reflexivity |].
  destruct (exec mi_re (toLowerCase prompt)); reflexivity.
Qed.

Lemma first_scan_km pre cap s :
  number_before km_unit pre cap s -> leftmost km_unit pre s ->
  first_scan ok_km s = Some cap.
Proof.
  intros H L. apply (first_scan_occurs ok_km ok_km_first pre).
  - apply number_before_km. exact H.
  - intros pre' cap' O. apply (L pre' cap'). apply number_before_km. exact O.
Qed.

Lemma first_scan_mi pre cap s :
  number_before mi_unit pre cap s -> leftmost mi_unit pre s ->
  first_scan ok_mi s = Some cap.
Proof.
  intros H L. apply (first_scan_occurs ok_mi ok_mi_first pre).
  - apply number_before_mi. exact H.
  - intros pre' cap' O. apply (L pre' cap'). apply number_before_mi. exact O.
Qed.

Lemma first_scan_no_km s :
  (forall pre cap, ~ number_before km_unit pre cap s) -> first_scan ok_km s = None.
Proof.
  intros H. apply (first_scan_none ok_km). intros pre cap O.
  apply (H pre cap). apply number_before_km. exact O.
Qed.

Lemma first_scan_no_mi s :
  (forall pre cap, ~ number_before mi_unit pre cap s) -> first_scan ok_mi s = None.
Proof.
  intros H. apply (first_scan_none ok_mi). intros pre cap O.
  apply (H pre cap). apply number_before_mi. exact O.
Qed.

Lemma number_before_text units pre cap s :
  number_before units pre cap s -> number_text cap.
Proof. intros (ws & u & post & _ & H & _). exact H. Qed.

Lemma decimal_number_nearest cap :
  number_text cap ->
  nearest (decimal_number cap) false (fst (decimal_value cap)) (snd (decimal_value cap)).
Proof.
  intros H. destruct (decimal_value_sound cap H). apply round_ratio_nearest; auto.
Qed.

Lemma includes_false s t : ~ contains s t -> includes s t = false.
Proof.
  intros H. destruct (includes s t) eqn:E; [| reflexivity].
  exfalso. apply H. apply includes_spec. exact E.
Qed.

(** The distance of a prompt whose first number before a kilometre unit is
    [cap]. *)
Lemma distance_kilometres prompt mode pre cap :
  number_before km_unit pre cap (toLowerCase prompt) ->
  leftmost km_unit pre (toLowerCase prompt) ->
  Parsed.distanceKm (parsePrompt prompt mode) = Some (decimal_number cap).
Proof.
  intros H L. pose proof (number_before_text _ _ _ _ H) as Ht.
  rewrite parsePrompt_distance, (first_scan_km pre cap _ H L).
  rewrite parseFloat_number_text by exact Ht. reflexivity.
Qed.

(** A prompt that holds a number before a kilometre unit holds a leftmost
    one, and that one is its distance. *)
Lemma distance_kilometres_found prompt mode :
  (exists pre cap, number_before km_unit pre cap (toLowerCase prompt)) ->
  exists pre cap,
    number_before km_unit pre cap (toLowerCase prompt)
    /\ leftmost km_unit pre (toLowerCase prompt)
    /\ Parsed.distanceKm (parsePrompt prompt mode) = Some (decimal_number cap).
Proof.
  intros (pre0 & cap0 & O). apply number_before_km in O.
  destruct (first_scan_some ok_km ok_km_first _ _ _ O) as (cap & E).
  destruct (first_scan_inv_min ok_km ok_km_first _ _ E) as (pre & Oc & Hmin).
  exists pre, cap.
  assert (L : leftmost km_unit pre (toLowerCase prompt)).
  { intros pre' cap' O'. apply (Hmin pre' cap'). apply number_before_km. exact O'. }
  apply number_before_km in Oc. split; [exact Oc |]. split; [exact L |].
  apply (distance_kilometres prompt mode pre cap Oc L).
Qed.

(** C4 (amended). For every prompt whose lowercased text holds a number
    (digits, or digits, a dot or a comma, and digits) followed by optional
    white space and "km", "k", "kilómetros" or "kilometros", the parsed
    distance is the FIRST such number of the text: the binary64 value
    nearest to the decimal it writes, the comma read as a decimal point,
    which is within half a unit in the last place of that decimal.  A
    prompt that holds such a number always has a first one. *)
Theorem parsePrompt_kilometres prompt mode :
  (forall pre cap,
      number_before km_unit pre cap (toLowerCase prompt) ->
      leftmost km_unit pre (toLowerCase prompt) ->
      Parsed.distanceKm (parsePrompt prompt mode) = Some (decimal_number cap)
      /\ nearest (decimal_number cap) false
           (fst (decimal_value cap)) (snd (decimal_value cap)))
  /\ ((exists pre cap, number_before km_unit pre cap (toLowerCase prompt)) ->
      exists pre cap,
        number_before km_unit pre cap (toLowerCase prompt)
        /\ leftmost km_unit pre (toLowerCase prompt)
        /\ Parsed.distanceKm (parsePrompt prompt mode) = Some (decimal_number cap)).
Proof.
  split.
  - intros pre cap H L. split.
    + apply (distance_kilometres prompt mode pre cap H L).
    + apply decimal_number_nearest. apply (number_before_text _ _ _ _ H).
  - apply distance_kilometres_found.
Qed.

(** C5 (amended). For every prompt whose lowercased text holds no number
    before a kilometre unit and holds a number followed by optional white
    space and "mi" or "millas", the parsed distance is the FIRST such number
    multiplied by 1.609; the kilometre pattern is tried first, so a prompt
    that holds a number before a kilometre unit gets that number as its
    distance, whatever miles it mentions. *)
Theorem parsePrompt_miles prompt mode :
  (forall pre cap,
     (forall pre' cap', ~ number_before km_unit pre' cap' (toLowerCase prompt)) ->
     number_before mi_unit pre cap (toLowerCase prompt) ->
     leftmost mi_unit pre (toLowerCase prompt) ->
     Parsed.distanceKm (parsePrompt prompt mode)
       = Some (mul (decimal_number cap) (dec 1609 3))
     /\ nearest (decimal_number cap) false
          (fst (decimal_value cap)) (snd (decimal_value cap)))
  /\ (forall pre cap,
        number_before km_unit pre cap (toLowerCase prompt) ->
        leftmost km_unit pre (toLowerCase prompt) ->
        Parsed.distanceKm (parsePrompt prompt mode) = Some (decimal_number cap)).
Proof.
  split.
  - intros pre cap Hno H L. pose proof (number_before_text _ _ _ _ H) as Ht. split.
    + rewrite parsePrompt_distance, (first_scan_no_km _ Hno), (first_scan_mi pre cap _ H L).
      rewrite parseFloat_number_text by exact Ht. reflexivity.
    + apply decimal_number_nearest. exact Ht.
  - intros pre cap H L. apply (distance_kilometres prompt mode pre cap H L).
Qed.

(** C8 (amended). [parsePrompt] returns for every prompt and every current
    mode and never throws: its evaluation with the exceptions of the
    language made explicit completes normally, with the value of
    [parsePrompt], since group 1 takes part in every match of the two
    distance patterns.  For every prompt whose lowercased text holds none
    of the keywords and no number before a kilometre or mile unit it
    returns the defaults: the current mode, no distance, the focus label
    "Ruta equilibrada" and the training intent [easy]. *)
Theorem parsePrompt_defaults prompt mode :
  parsePrompt_completion prompt mode = Normal (parsePrompt prompt mode)
  /\ ((forall kw, In kw keywords -> ~ contains (toLowerCase prompt) kw) ->
      (forall pre cap, ~ number_before km_unit pre cap (toLowerCase prompt)) ->
      (forall pre cap, ~ number_before mi_unit pre cap (toLowerCase prompt)) ->
      parsePrompt prompt mode = Parsed.make mode None (js "Ruta equilibrada") easy).
Proof.
  split.
  { unfold parsePrompt_completion, parsePrompt.
    destruct (exec km_re (toLowerCase prompt)) as [m |] eqn:Ekm.
    - rewrite (group1_replace_defined km_units _ _ Ekm). reflexivity.
    - destruct (exec mi_re (toLowerCase prompt)) as [m |] eqn:Emi; [| reflexivity].
      rewrite (group1_replace_defined mi_units _ _ Emi). reflexivity. }
  intros Hkw Hkm Hmi.
  assert (D : Parsed.distanceKm (parsePrompt prompt mode) = None).
  { rewrite parsePrompt_distance, (first_scan_no_km _ Hkm), (first_scan_no_mi _ Hmi).
    reflexivity. }
  assert (K : forall kw, In kw keywords -> includes (toLowerCase prompt) kw = false).
  { intros kw Hin. apply includes_false. apply Hkw. exact Hin. }
  unfold parsePrompt in *. cbn [Parsed.distanceKm] in D. rewrite D.
  unfold keywords in K.
  rewrite !K by (cbn [In]; tauto). reflexivity.
Qed.

End Parser.

(** *** Examples of the parser *)

Lemma number_text_digits ds :
  ds <> [] -> forallb is_digit ds = true -> number_text ds.
Proof.
  intros Hne H. apply number_int; [exact Hne |].
  apply Forall_forall. intros c Hc. rewrite forallb_forall in H. apply H. exact Hc.
Qed.

Lemma number_text_fraction ds b fs :
  ds <> [] -> forallb is_digit ds = true -> is_sep b = true ->
  fs <> [] -> forallb is_digit fs = true -> number_text (ds ++ b :: fs).
Proof.
  intros Hne H Hb Hfe Hf. apply number_frac; auto;
    apply Forall_forall; intros c Hc;
    [rewrite forallb_forall in H; apply H | rewrite forallb_forall in Hf; apply Hf]; exact Hc.
Qed.

Lemma spaces_text ws : forallb is_space ws = true -> all_of is_space ws.
Proof.
  intros H. apply Forall_forall. intros c Hc. rewrite forallb_forall in H. apply H. exact Hc.
Qed.

Lemma no_km_by_scan s :
  first_scan ok_km s = None -> forall pre cap, ~ number_before km_unit pre cap s.
Proof.
  intros H pre cap O. apply number_before_km in O.
  destruct (first_scan_some ok_km ok_km_first pre cap s O) as (c & E). congruence.
Qed.

Lemma no_mi_by_scan s :
  first_scan ok_mi s = None -> forall pre cap, ~ number_before mi_unit pre cap s.
Proof.
  intros H pre cap O. apply number_before_mi in O.
  destruct (first_scan_some ok_mi ok_mi_first pre cap s O) as (c & E). congruence.
Qed.

Lemma leftmost_at_start units s : leftmost units [] s.
Proof. intros pre' cap' _. simpl. lia. Qed.

Lemma not_contains_by_includes s t : includes s t = false -> ~ contains s t.
Proof. intros H C. apply includes_spec in C. congruence. Qed.

Lemma reference_lowers_ascii : lowers_ascii reference_runtime.
Proof. intros s _. reflexivity. Qed.

Lemma ascii_text s :
  forallb (fun c => (c <? 128)%N) s = true -> Forall (fun c => (c < 128)%N) s.
Proof.
  intros H. apply Forall_forall. intros c Hc.
  rewrite forallb_forall in H. apply N.ltb_lt. apply H. exact Hc.
Qed.

(** C4, as first stated, fails on "3 km y 5 km": the text holds the number
    5 before "km", and the parsed distance is 3. *)
Lemma kilometres_second_number_ignored :
  ~ (forall (RT : Runtime) (prompt : jsstring) (mode : Mode) (pre cap : jsstring),
       number_before km_unit pre cap (toLowerCase prompt) ->
       Parsed.distanceKm (parsePrompt prompt mode) = Some (decimal_number cap)).
Proof.
  intros H.
  specialize (H reference_runtime (js "3 km y 5 km") run (js "3 km y ") (js "5")).
  assert (O : number_before km_unit (js "3 km y ") (js "5")
                (toLowerCase (Runtime := reference_runtime) (js "3 km y 5 km"))).
  { exists (js " "), (js "km"), []. split; [reflexivity |].
    split; [apply number_text_digits; [discriminate | reflexivity] |].
    split; [apply spaces_text; reflexivity | left; reflexivity]. }
  specialize (H O). vm_compute in H. discriminate H.
Qed.

Lemma parsePrompt_kilometres_witness :
  number_before km_unit [] (js "12,5")
    (toLowerCase (Runtime := reference_runtime) (js "12,5 km por el parque"))
  /\ Parsed.distanceKm
       (parsePrompt (RT := reference_runtime) (js "12,5 km por el parque") run)
     = Some (decimal_number (js "12,5")).
Proof.
  assert (O : number_before km_unit [] (js "12,5")
                (toLowerCase (Runtime := reference_runtime) (js "12,5 km por el parque"))).
  { exists (js " "), (js "km"), (js " por el parque"). split; [reflexivity |].
    split; [apply (number_text_fraction (js "12") 44%N (js "5"));
            [discriminate | reflexivity | reflexivity | discriminate | reflexivity] |].
    split; [apply spaces_text; reflexivity | left; reflexivity]. }
  split; [exact O |].
  destruct (parsePrompt_kilometres (RT := reference_runtime)
              (js "12,5 km por el parque") run) as [A _].
  destruct (A [] (js "12,5") O (leftmost_at_start _ _)) as [E _].
  exact E.
Defined.

(** C5, as first stated, fails on "3 mi y 5 mi": the text holds the number
    5 before "mi", and the parsed distance is 3 times 1.609. *)
Lemma miles_second_number_ignored :
  ~ (forall (RT : Runtime) (prompt : jsstring) (mode : Mode) (pre cap : jsstring),
       (forall pre' cap', ~ number_before km_unit pre' cap' (toLowerCase prompt)) ->
       number_before mi_unit pre cap (toLowerCase prompt) ->
       Parsed.distanceKm (parsePrompt prompt mode)
       = Some (mul (decimal_number cap) (dec 1609 3))).
Proof.
  intros H.
  specialize (H reference_runtime (js "3 mi y 5 mi") run (js "3 mi y ") (js "5")).
  assert (O : number_before mi_unit (js "3 mi y ") (js "5")
                (toLowerCase (Runtime := reference_runtime) (js "3 mi y 5 mi"))).
  { exists (js " "), (js "mi"), []. split; [reflexivity |].
    split; [apply number_text_digits; [discriminate | reflexivity] |].
    split; [apply spaces_text; reflexivity | left; reflexivity]. }
  assert (K : first_scan ok_km
                (toLowerCase (Runtime := reference_runtime) (js "3 mi y 5 mi")) = None)
    by (vm_compute; reflexivity).
  specialize (H (no_km_by_scan _ K) O). vm_compute in H. discriminate H.
Qed.

Lemma parsePrompt_miles_witness :
  number_before mi_unit [] (js "3")
    (toLowerCase (Runtime := reference_runtime) (js "3 millas por el parque"))
  /\ Parsed.distanceKm
       (parsePrompt (RT := reference_runtime) (js "3 millas por el parque") run)
     = Some (mul (decimal_number (js "3")) (dec 1609 3)).
Proof.
  assert (O : number_before mi_unit [] (js "3")
                (toLowerCase (Runtime := reference_runtime) (js "3 millas por el parque"))).
  { exists (js " "), (js "millas"), (js " por el parque"). split; [reflexivity |].
    split; [apply number_text_digits; [discriminate | reflexivity] |].
    split; [apply spaces_text; reflexivity | right; reflexivity]. }
  split; [exact O |].
  assert (K : first_scan ok_km
                (toLowerCase (Runtime := reference_runtime) (js "3 millas por el parque"))
              = None)
    by (vm_compute; reflexivity).
  destruct (parsePrompt_miles (RT := reference_runtime) (js "3 millas por el parque") run)
    as [A _].
  destruct (A [] (js "3") (no_km_by_scan _ K) O (leftmost_at_start _ _)) as [E _].
  exact E.
Defined.

Lemma hola_has_no_km :
  forall pre cap,
    ~ number_before km_unit pre cap (toLowerCase (Runtime := reference_runtime) (js "hola")).
Proof. apply no_km_by_scan. vm_compute. reflexivity. Qed.

Lemma hola_has_no_mi :
  forall pre cap,
    ~ number_before mi_unit pre cap (toLowerCase (Runtime := reference_runtime) (js "hola")).
Proof. apply no_mi_by_scan. vm_compute. reflexivity. Qed.

Lemma hola_has_no_keyword :
  forall kw, In kw keywords ->
    ~ contains (toLowerCase (Runtime := reference_runtime) (js "hola")) kw.
Proof.
  intros kw Hin. apply not_contains_by_includes.
  unfold keywords in Hin. cbn [In] in Hin.
  repeat (destruct Hin as [<- | Hin]; [reflexivity |]). destruct Hin.
Qed.

(** C8, as first stated, fails on the label: the default focus is the text
    "Ruta equilibrada". *)
Lemma defaults_label_is_not_balanced_route :
  ~ (forall (RT : Runtime) (prompt : jsstring) (mode : Mode),
       (forall kw, In kw keywords -> ~ contains (toLowerCase prompt) kw) ->
       (forall pre cap, ~ number_before km_unit pre cap (toLowerCase prompt)) ->
       (forall pre cap, ~ number_before mi_unit pre cap (toLowerCase prompt)) ->
       parsePrompt prompt mode = Parsed.make mode None (js "balanced route") easy).
Proof.
  intros H.
  specialize (H reference_runtime (js "hola") run hola_has_no_keyword
                hola_has_no_km hola_has_no_mi).
  vm_compute in H. discriminate H.
Qed.

Lemma parsePrompt_defaults_witness :
  parsePrompt_completion (RT := reference_runtime) (js "hola") walk
  = Normal (Parsed.make walk None (js "Ruta equilibrada") easy)
  /\ parsePrompt_completion (RT := reference_runtime) (js "a las 7, 5 km") walk
     = Normal (Parsed.make walk (Some (of_Z 5)) (js "Ruta equilibrada") easy).
Proof.
  split.
  - destruct (parsePrompt_defaults (RT := reference_runtime) (js "hola") walk) as [T H].
    rewrite T, (H hola_has_no_keyword hola_has_no_km hola_has_no_mi). reflexivity.
  - destruct (parsePrompt_defaults (RT := reference_runtime) (js "a las 7, 5 km") walk)
      as [T _].
    rewrite T. vm_compute. reflexivity.
Defined.

(** C6 (amended). With a runtime that lowers ASCII text as ECMAScript does,
    [parsePrompt("Quiero 7 km suaves en parque", "run")] has mode [run] (no
    keyword changes it), distance 7, focus "Parques" and training intent
    [easy]. *)
Theorem parsePrompt_park_example (RT : Runtime) :
  lowers_ascii RT ->
  parsePrompt (js "Quiero 7 km suaves en parque") run
  = Parsed.make run (Some (of_Z 7)) (js "Parques") easy.
Proof.
  intros H. unfold parsePrompt.
  rewrite (H (js "Quiero 7 km suaves en parque")) by (apply ascii_text; reflexivity).
  vm_compute. reflexivity.
Qed.

Lemma parsePrompt_park_example_witness :
  lowers_ascii reference_runtime
  /\ parsePrompt (RT := reference_runtime) (js "Quiero 7 km suaves en parque") run
     = Parsed.make run (Some (of_Z 7)) (js "Parques") easy.
Proof.
  split; [exact reference_lowers_ascii |].
  apply (parsePrompt_park_example reference_runtime reference_lowers_ascii).
Defined.

(** C6, as first stated, fails on the label: the focus is the text "Parques". *)
Lemma parsePrompt_park_not_Parks :
  ~ (forall RT : Runtime, lowers_ascii RT ->
       parsePrompt (js "Quiero 7 km suaves en parque") run
       = Parsed.make run (Some (of_Z 7)) (js "Parks") easy).
Proof.
  intros H. specialize (H reference_runtime reference_lowers_ascii).
  vm_compute in H. discriminate H.
Qed.

(** C7 (amended). With a runtime that lowers ASCII text as ECMAScript does
    and for every current mode, [parsePrompt("Un trail con desnivel", m)]
    has mode [hike], training intent [trail] and focus "Terreno mixto". *)
Theorem parsePrompt_trail_example (RT : Runtime) (currentMode : Mode) :
  lowers_ascii RT ->
  let parsed := parsePrompt (js "Un trail con desnivel") currentMode in
  Parsed.mode parsed = hike /\ Parsed.intent parsed = trail
  /\ Parsed.focus parsed = js "Terreno mixto".
Proof.
  intros H. unfold parsePrompt.
  rewrite (H (js "Un trail con desnivel")) by (apply ascii_text; reflexivity).
  destruct currentMode; vm_compute; repeat split.
Qed.

Lemma parsePrompt_trail_example_witness :
  lowers_ascii reference_runtime
  /\ Parsed.focus (parsePrompt (RT := reference_runtime) (js "Un trail con desnivel") walk)
     = js "Terreno mixto".
Proof.
  split; [exact reference_lowers_ascii |].
  apply (parsePrompt_trail_example reference_runtime walk reference_lowers_ascii).
Defined.

(** C7, as first stated, fails on the label: the focus is the text
    "Terreno mixto". *)
Lemma parsePrompt_trail_not_Mixed_terrain :
  ~ (forall (RT : Runtime) (currentMode : Mode), lowers_ascii RT ->
       let parsed := parsePrompt (js "Un trail con desnivel") currentMode in
       Parsed.mode parsed = hike /\ Parsed.intent parsed = trail
       /\ Parsed.focus parsed = js "Mixed terrain").
Proof.
  intros H. specialize (H reference_runtime run reference_lowers_ascii).
  destruct H as (_ & _ & H). vm_compute in H. discriminate H.
Qed.

(** ** Routes *)

(** C1. For every distance [d] and every mode, [estimateTime] is
    [Math.round] of [d] times the pace of the mode (walk 11.5, run 5.2,
    jog 6.5, hike 10.5 minutes per kilometre); [estimateTime(8, "run")] is
    42.  The division by [1.0] of the source changes nothing, since the
    product is a binary64 value in normal form. *)
Theorem estimateTime_rounds (d : number) :
  estimateTime d walk = Math_round (mul d (dec 115 1))
  /\ estimateTime d run = Math_round (mul d (dec 52 1))
  /\ estimateTime d jog = Math_round (mul d (dec 65 1))
  /\ estimateTime d hike = Math_round (mul d (dec 105 1))
  /\ estimateTime (of_Z 8) run = of_Z 42.
Proof.
  unfold estimateTime. fold one.
  rewrite !div_one by apply mul_canonical.
  do 4 (split; [reflexivity |]). vm_compute. reflexivity.
Qed.

Lemma compare_opp x y : compare y x = option_map CompOpp (compare x y).
Proof.
  destruct x as [sx | sx | | sx mx ex], y as [sy | sy | | sy my ey];
    try reflexivity; try (destruct sx; reflexivity); try (destruct sy; reflexivity);
    try (destruct sx, sy; reflexivity).
  unfold compare. rewrite (Z.min_comm ey ex).
  cbn [option_map]. rewrite Z.compare_antisym. reflexivity.
Qed.

Lemma leb_not_gtb x y : leb x y = true -> gtb x y = false.
Proof.
  unfold leb, gtb, ltb. rewrite (compare_opp x y).
  destruct (compare x y) as [[| |] |]; try discriminate; reflexivity.
Qed.

Lemma ltb_const_mono m1 m2 e0 d :
  (m1 <= m2)%positive ->
  ltb (S754_finite false m2 e0) d = true -> ltb (S754_finite false m1 e0) d = true.
Proof.
  intros Hm. destruct d as [s | s | | s m e]; try (intros H; exact H).
  unfold ltb, compare, scaled.
  set (k := (e0 - Z.min e0 e)%Z).
  assert (0 < 2 ^ k)%Z by (apply Z.pow_pos_nonneg; unfold k; lia).
  destruct (Z.compare_spec (Z.pos m2 * 2 ^ k)
              (if s then - (Z.pos m * 2 ^ (e - Z.min e0 e)) else Z.pos m * 2 ^ (e - Z.min e0 e)))%Z;
    try discriminate.
  intros _.
  destruct (Z.compare_spec (Z.pos m1 * 2 ^ k)
              (if s then - (Z.pos m * 2 ^ (e - Z.min e0 e)) else Z.pos m * 2 ^ (e - Z.min e0 e)))%Z;
    try reflexivity; exfalso; nia.
Qed.

Lemma gtb_12_9 d : gtb d (of_Z 12) = true -> gtb d (of_Z 9) = true.
Proof.
  unfold gtb.
  change (of_Z 12) with (S754_finite false 6755399441055744 (-49)).
  change (of_Z 9) with (S754_finite false 5066549580791808 (-49)).
  apply ltb_const_mono. lia.
Qed.

Lemma generateShape_cases d :
  generateShape d =
  if gtb d (of_Z 9) then (if gtb d (of_Z 12) then shape6 else shape5)
  else (if gtb d (of_Z 12) then splice_insert shape4 1 (pt 26 74 (Some (js "Extra")))
        else shape4).
Proof.
  unfold generateShape. destruct (gtb d (of_Z 9)), (gtb d (of_Z 12)); reflexivity.
Qed.

(** C2. The waypoints of a coach route start from the four base points;
    a distance above 9 inserts the mid-point "Punto" before the third point
    and moves the end point, and a distance above 12 also inserts the point
    "Extra" after the start.  So there are exactly four points when
    [d <= 9], five when [9 < d <= 12] and six when [d > 12]; the routes
    built for 10 km and for 13 km have five and six points. *)
Theorem generateShape_points (RT : Runtime) (d : number) :
  (leb d (of_Z 9) = true ->
     generateShape d = shape4 /\ List.length (generateShape d) = 4%nat)
  /\ (ltb (of_Z 9) d = true -> leb d (of_Z 12) = true ->
        generateShape d = shape5 /\ List.length (generateShape d) = 5%nat)
  /\ (ltb (of_Z 12) d = true ->
        generateShape d = shape6 /\ List.length (generateShape d) = 6%nat)
  /\ List.length (RouteOption.points (buildRouteFromPrompt (of_Z 10) run (js "Parks"))) = 5%nat
  /\ List.length (RouteOption.points (buildRouteFromPrompt (of_Z 13) run (js "Parks"))) = 6%nat.
Proof.
  rewrite generateShape_cases.
  split; [| split; [| split; [| split]]].
  - intros H.
    assert (G9 : gtb d (of_Z 9) = false) by (apply leb_not_gtb; exact H).
    assert (G12 : gtb d (of_Z 12) = false).
    { destruct (gtb d (of_Z 12)) eqn:E; [| reflexivity].
      apply gtb_12_9 in E. congruence. }
    rewrite G9, G12. split; reflexivity.
  - intros H H0.
    assert (G9 : gtb d (of_Z 9) = true) by exact H.
    assert (G12 : gtb d (of_Z 12) = false) by (apply leb_not_gtb; exact H0).
    rewrite G9, G12. split; reflexivity.
  - intros H.
    assert (G12 : gtb d (of_Z 12) = true) by exact H.
    assert (G9 : gtb d (of_Z 9) = true) by (apply gtb_12_9; exact G12).
    rewrite G9, G12. split; reflexivity.
  - vm_compute. reflexivity.
  - vm_compute. reflexivity.
Qed.

Lemma generateShape_points_witness :
  ltb (of_Z 9) (of_Z 10) = true /\ leb (of_Z 10) (of_Z 12) = true
  /\ generateShape (of_Z 10) = shape5.
Proof.
  assert (A : ltb (of_Z 9) (of_Z 10) = true) by (vm_compute; reflexivity).
  assert (B : leb (of_Z 10) (of_Z 12) = true) by (vm_compute; reflexivity).
  split; [exact A |]. split; [exact B |].
  destruct (generateShape_points reference_runtime (of_Z 10)) as (_ & H & _).
  destruct (H A B) as [E _]. exact E.
Defined.

Lemma jsstring_eqb_spec a b : jsstring_eqb a b = true <-> a = b.
Proof.
  revert b. induction a as [| x a IH]; intros [| y b]; cbn [jsstring_eqb];
    try (split; [discriminate | discriminate]); try (split; reflexivity).
  rewrite andb_true_iff, N.eqb_eq, IH. split.
  - intros [-> ->]. reflexivity.
  - intros [= -> ->]. split; reflexivity.
Qed.

Lemma ByMode_get_set (A : Type) (r : ByMode.t A) m m' v :
  ByMode.get (ByMode.set r m v) m' = if Mode_eqb m m' then v else ByMode.get r m'.
Proof. destruct m, m'; reflexivity. Qed.

Lemma NoDup_snoc (A : Type) (l : list A) x : NoDup l -> ~ In x l -> NoDup (l ++ [x]).
Proof.
  induction 1 as [| a l Ha Hl IH]; intros Hx; simpl.
  - constructor; [intros [] | constructor].
  - constructor.
    + rewrite in_app_iff. intros [H | [H | []]]; [contradiction |].
      apply Hx. left. symmetry. exact H.
    + apply IH. intros H. apply Hx. right. exact H.
Qed.

Lemma NoDup_map_filter (A B : Type) (f : A -> B) (p : A -> bool) l :
  NoDup (map f l) -> NoDup (map f (filter p l)).
Proof.
  induction l as [| a l IH]; simpl; intros H; [constructor |].
  inversion H as [| ? ? Ha Hl]; subst. destruct (p a); simpl; [constructor |]; auto.
  intros Hin. apply Ha. apply in_map_iff in Hin as (x & E & Hx).
  apply filter_In in Hx as [Hx _]. apply in_map_iff. exists x. auto.
Qed.

Lemma replace_by_id_NoDup (l : list RouteOption.t) (r : RouteOption.t) :
  NoDup (ids l) ->
  NoDup (ids (filter (fun x => negb (jsstring_eqb (RouteOption.id x) (RouteOption.id r))) l
              ++ [r])).
Proof.
  intros H. unfold ids. rewrite map_app. apply NoDup_snoc.
  - apply NoDup_map_filter. exact H.
  - intros Hin. apply in_map_iff in Hin as (x & E & Hx).
    apply filter_In in Hx as [_ Hx]. apply negb_true_iff in Hx.
    apply jsstring_eqb_spec in E. congruence.
Qed.

Lemma nth_error_mapi_from (A B : Type) (f : A -> nat -> B) l i k :
  nth_error (mapi_from f i l) k = option_map (fun a => f a (i + k)%nat) (nth_error l k).
Proof.
  revert i k. induction l as [| a l IH]; intros i k.
  - destruct k; reflexivity.
  - destruct k as [| k]; cbn [mapi_from nth_error option_map].
    + rewrite Nat.add_0_r. reflexivity.
    + rewrite IH. replace (S i + k)%nat with (i + S k)%nat by lia. reflexivity.
Qed.

Lemma length_mapi_from (A B : Type) (f : A -> nat -> B) l i :
  List.length (mapi_from f i l) = List.length l.
Proof. revert i. induction l; intros i; simpl; auto. Qed.

Section Coach.

Context {RT : Runtime}.

Lemma handleCoachPlan_unique_ids p st :
  unique_ids st -> unique_ids (handleCoachPlan p st).
Proof.
  intros H m. unfold handleCoachPlan. destruct (trim p) as [| c t]; [apply H |].
  cbn [PlanState.customRoutes]. rewrite ByMode_get_set.
  destruct (Mode_eqb _ m); [| apply H]. apply replace_by_id_NoDup. apply H.
Qed.

Lemma step_unique_ids st ev : unique_ids st -> unique_ids (step st ev).
Proof.
  intros H. destruct ev; cbn [step]; [apply handleCoachPlan_unique_ids; exact H | | |];
    exact H.
Qed.

Lemma after_unique_ids evs : unique_ids (after evs).
Proof.
  unfold after.
  assert (G : forall st, unique_ids st -> unique_ids (fold_left step evs st)).
  { induction evs as [| ev evs IH]; intros st H; [exact H |].
    simpl. apply IH. apply step_unique_ids. exact H. }
  apply G. intros m. destruct m; constructor.
Qed.

(** C3. The id of a coach route depends on the mode and on the distance
    scaled by 10 and rounded only, so two distances that round to the same
    tenth give the same id for a mode; [handleCoachPlan] removes the routes
    with the id of the new route from the list of its mode before it appends
    the new route; and after any sequence of user actions no list of coach
    routes holds two routes with one id. *)
Theorem coach_routes_overwrite :
  (forall m d1 d2 focus1 focus2,
      Math_round (mul d1 (of_Z 10)) = Math_round (mul d2 (of_Z 10)) ->
      RouteOption.id (buildRouteFromPrompt d1 m focus1)
      = RouteOption.id (buildRouteFromPrompt d2 m focus2))
  /\ (forall coachPrompt st,
        trim coachPrompt <> [] ->
        let parsed := parsePrompt (trim coachPrompt) (PlanState.mode st) in
        let distanceKm :=
          match Parsed.distanceKm parsed with
          | Some d => d
          | None => suggestDistance (Parsed.mode parsed)
          end in
        let newRoute :=
          buildRouteFromPrompt distanceKm (Parsed.mode parsed) (Parsed.focus parsed) in
        ByMode.get (PlanState.customRoutes (handleCoachPlan coachPrompt st))
          (Parsed.mode parsed)
        = filter (fun r => negb (jsstring_eqb (RouteOption.id r) (RouteOption.id newRoute)))
            (ByMode.get (PlanState.customRoutes st) (Parsed.mode parsed))
          ++ [newRoute])
  /\ (forall evs m,
        NoDup (map RouteOption.id (ByMode.get (PlanState.customRoutes (after evs)) m))).
Proof.
  split; [| split].
  - intros m d1 d2 f1 f2 H. unfold buildRouteFromPrompt. cbn [RouteOption.id].
    rewrite H. reflexivity.
  - intros p st Hp. unfold handleCoachPlan.
    destruct (trim p) as [| c t] eqn:E; [congruence |].
    cbn [PlanState.customRoutes]. rewrite ByMode_get_set.
    destruct (Parsed.mode (parsePrompt (c :: t) (PlanState.mode st))); reflexivity.
  - intros evs m. apply after_unique_ids.
Qed.

(** C10. When the prompt is not empty and yields no distance, the coach
    flow takes the default distance of the parsed mode (4.5 km for walk,
    6.5 km for jog, 10.5 km for hike, 8.0 km for run), builds the route from
    it, appends it to the coach routes of that mode and makes it the active
    route. *)
Theorem coach_default_distance coachPrompt st :
  trim coachPrompt <> [] ->
  let parsed := parsePrompt (trim coachPrompt) (PlanState.mode st) in
  Parsed.distanceKm parsed = None ->
  let newRoute :=
    buildRouteFromPrompt (suggestDistance (Parsed.mode parsed)) (Parsed.mode parsed)
      (Parsed.focus parsed) in
  let st' := handleCoachPlan coachPrompt st in
  (exists others,
      ByMode.get (PlanState.customRoutes st') (Parsed.mode parsed) = others ++ [newRoute])
  /\ PlanState.activeRouteId st' = RouteOption.id newRoute
  /\ RouteOption.distanceKm newRoute = suggestDistance (Parsed.mode parsed)
  /\ suggestDistance walk = dec 45 1
  /\ suggestDistance jog = dec 65 1
  /\ suggestDistance hike = dec 105 1
  /\ suggestDistance run = dec 80 1.
Proof.
  intros Hp parsed Hd newRoute st'. subst st' newRoute parsed.
  unfold handleCoachPlan. revert Hd.
  destruct (trim coachPrompt) as [| c t]; [congruence |]. intros Hd. rewrite Hd.
  cbn [PlanState.customRoutes PlanState.activeRouteId].
  split; [| repeat split].
  rewrite ByMode_get_set.
  destruct (Parsed.mode (parsePrompt (c :: t) (PlanState.mode st)));
    eexists; reflexivity.
Qed.

(** C9 (amended). For a route with at least one point, the map gets one
    feature for each waypoint, in order; the feature of the waypoint [(x, y)]
    has the coordinates [(center.lng + (x - 50) * 0.00075,
    center.lat + (50 - y) * 0.00075)] around [MAP_CENTER], and the same
    coordinates make the line.  The first point has the kind "start", the
    last one the kind "end" when the route has more than one point, and the
    points between them the kind "mid". *)
Theorem buildRouteGeo_points (route : RouteOption.t) :
  RouteOption.points route <> [] ->
  exists geo,
    buildRouteGeo route = Some geo
    /\ RouteGeo.line geo = map geo_coordinate (RouteOption.points route)
    /\ List.length (RouteGeo.points geo) = List.length (RouteOption.points route)
    /\ forall idx p,
         nth_error (RouteOption.points route) idx = Some p ->
         exists f,
           nth_error (RouteGeo.points geo) idx = Some f
           /\ Feature.coordinates f = geo_coordinate p
           /\ (idx = 0%nat -> Feature.kind f = js "start")
           /\ (idx = (List.length (RouteOption.points route) - 1)%nat ->
               (0 < idx)%nat -> Feature.kind f = js "end")
           /\ ((0 < idx < List.length (RouteOption.points route) - 1)%nat ->
               Feature.kind f = js "mid").
Proof.
  intros Hne. unfold buildRouteGeo.
  destruct (RouteOption.points route) as [| p0 ps] eqn:Ep; [congruence |].
  cbn [map]. eexists. split; [reflexivity |].
  cbn [RouteGeo.line RouteGeo.points]. split; [reflexivity |].
  split; [unfold mapi; rewrite length_mapi_from; cbn [List.length];
          rewrite length_map; reflexivity |].
  intros idx p Hp. unfold mapi. rewrite nth_error_mapi_from.
  change (toCoord p0 :: map toCoord ps) with (map toCoord (p0 :: ps)).
  rewrite nth_error_map, Hp. cbn [option_map]. eexists. split; [reflexivity |].
  cbn [Feature.coordinates Feature.kind]. rewrite length_map.
  split; [reflexivity |]. cbn [List.length Nat.add].
  split; [| split].
  - intros ->. reflexivity.
  - intros -> H. destruct (Nat.eqb_spec (S (List.length ps) - 1) 0); [lia |].
    rewrite Nat.eqb_refl. reflexivity.
  - intros H. destruct (Nat.eqb_spec idx 0); [lia |].
    destruct (Nat.eqb_spec idx (S (List.length ps) - 1)); [lia |]. reflexivity.
Qed.

End Coach.

Lemma coach_routes_overwrite_witness :
  Math_round (mul (dec 701 2) (of_Z 10)) = Math_round (mul (dec 704 2) (of_Z 10))
  /\ RouteOption.id (buildRouteFromPrompt (RT := reference_runtime) (dec 701 2) run (js "Parques"))
     = RouteOption.id (buildRouteFromPrompt (RT := reference_runtime) (dec 704 2) run (js "Parques")).
Proof.
  assert (A : Math_round (mul (dec 701 2) (of_Z 10)) = Math_round (mul (dec 704 2) (of_Z 10)))
    by (vm_compute; reflexivity).
  split; [exact A |].
  destruct (coach_routes_overwrite (RT := reference_runtime)) as [H _].
  exact (H run (dec 701 2) (dec 704 2) (js "Parques") (js "Parques") A).
Defined.

Lemma coach_default_distance_witness :
  trim (js " algo suave ") <> []
  /\ Parsed.distanceKm
       (parsePrompt (RT := reference_runtime) (trim (js " algo suave "))
          (PlanState.mode initialState)) = None
  /\ PlanState.activeRouteId
       (handleCoachPlan (RT := reference_runtime) (js " algo suave ") initialState)
     = RouteOption.id
         (buildRouteFromPrompt (RT := reference_runtime) (dec 80 1) run
            (js "Ruta equilibrada")).
Proof.
  assert (A : trim (js " algo suave ") <> []) by (vm_compute; discriminate).
  assert (B : Parsed.distanceKm
                (parsePrompt (RT := reference_runtime) (trim (js " algo suave "))
                   (PlanState.mode initialState)) = None)
    by (vm_compute; reflexivity).
  split; [exact A |]. split; [exact B |].
  destruct (coach_default_distance (RT := reference_runtime) (js " algo suave ")
              initialState A B) as (_ & E & _).
  rewrite E. vm_compute. reflexivity.
Defined.

(** C9, as first stated, fails on a route with a single point: its last
    point is its first one and has the kind "start". *)
Lemma buildRouteGeo_single_point_is_start :
  ~ (forall (RT : Runtime) (route : RouteOption.t) (geo : RouteGeo.t) (idx : nat) (f : Feature.t),
       buildRouteGeo route = Some geo ->
       nth_error (RouteGeo.points geo) idx = Some f ->
       (idx = 0%nat -> Feature.kind f = js "start")
       /\ (idx = (List.length (RouteOption.points route) - 1)%nat -> Feature.kind f = js "end")).
Proof.
  intros H.
  destruct (@buildRouteGeo reference_runtime single_point_route) as [geo |] eqn:E;
    [| vm_compute in E; discriminate E].
  destruct (nth_error (RouteGeo.points geo) 0) as [f |] eqn:F.
  - destruct (H reference_runtime single_point_route geo 0%nat f E F) as [A B].
    specialize (A eq_refl). specialize (B eq_refl). rewrite A in B.
    vm_compute in B. discriminate B.
  - vm_compute in E. injection E as <-. vm_compute in F. discriminate F.
Qed.

Lemma buildRouteGeo_points_witness :
  RouteOption.points walk_daily <> []
  /\ exists geo,
       buildRouteGeo (RT := reference_runtime) walk_daily = Some geo
       /\ RouteGeo.line geo = map geo_coordinate (RouteOption.points walk_daily)
       /\ map Feature.coordinates (RouteGeo.points geo)
          = map geo_coordinate
              [ pt 16 84 (Some (js "Inicio")); pt 38 70 None; pt 60 60 None;
                pt 82 34 (Some (js "Fin")) ]
       /\ map Feature.kind (RouteGeo.points geo)
          = [ js "start"; js "mid"; js "mid"; js "end" ].
Proof.
  assert (A : RouteOption.points walk_daily <> []) by (cbn; discriminate).
  split; [exact A |].
  destruct (buildRouteGeo_points (RT := reference_runtime) walk_daily A)
    as (geo & E & L & N & H).
  exists geo. split; [exact E |]. split; [exact L |].
  destruct (H 0%nat _ eq_refl) as (f0 & F0 & C0 & K0 & _).
  destruct (H 1%nat _ eq_refl) as (f1 & F1 & C1 & _ & _ & K1).
  destruct (H 2%nat _ eq_refl) as (f2 & F2 & C2 & _ & _ & K2).
  destruct (H 3%nat _ eq_refl) as (f3 & F3 & C3 & _ & K3 & _).
  destruct (RouteGeo.points geo) as [| g0 [| g1 [| g2 [| g3 [| g4 gs]]]]];
    try discriminate N.
  cbn [nth_error] in F0, F1, F2, F3.
  injection F0 as ->. injection F1 as ->. injection F2 as ->. injection F3 as ->.
  cbn [map]. rewrite C0, C1, C2, C3.
  rewrite (K0 eq_refl), (K3 eq_refl (Nat.lt_0_succ 2)).
  rewrite K1, K2 by (cbn; lia).
  split; reflexivity.
Defined.

(** ** Checks of the further operations on known values *)

Example Math_floor_examples :
  Math_floor (dec 25 1) = of_Z 2 /\ Math_floor (dec (-5) 1) = of_Z (-1)
  /\ Math_floor (dec 5 1) = S754_zero false /\ Math_floor (of_Z 7) = of_Z 7.
Proof. repeat split. Qed.

Example rem_examples :
  rem (dec 55 1) (of_Z 2) = dec 15 1 /\ rem (of_Z (-7)) (of_Z 3) = of_Z (-1)
  /\ rem (of_Z 120) (of_Z 60) = S754_zero false
  /\ rem (of_Z 5) (S754_zero false) = S754_nan
  /\ rem (of_Z 5) (S754_infinity false) = of_Z 5.
Proof. repeat split. Qed.

Example decimal_examples :
  decimal 0 = js "0" /\ decimal 7 = js "7" /\ decimal 1234 = js "1234"
  /\ decimal 9007199254740992 = js "9007199254740992".
Proof. repeat split. Qed.

Example toFixed_examples :
  toFixed (RT := reference_runtime) (dec 825 2) 1 = js "8.3"
  /\ toFixed (RT := reference_runtime) (dec 835 2) 1 = js "8.3"
  /\ toFixed (RT := reference_runtime) (dec 1005 3) 2 = js "1.00"
  /\ toFixed (RT := reference_runtime) (dec 5 2) 1 = js "0.1"
  /\ toFixed (RT := reference_runtime) (dec (-4) 2) 1 = js "-0.0"
  /\ toFixed (RT := reference_runtime) (S754_zero true) 1 = js "0.0"
  /\ toFixed (RT := reference_runtime) (dec 125 1) 0 = js "13"
  /\ toFixed (RT := reference_runtime) S754_nan 1 = js "NaN".
Proof. repeat split. Qed.

Example formatEta_examples :
  formatEta (RT := reference_runtime) (of_Z 45) = js "45 min"
  /\ formatEta (RT := reference_runtime) (of_Z 60) = js "1h 00m"
  /\ formatEta (RT := reference_runtime) (of_Z 92) = js "1h 32m".
Proof. repeat split. Qed.

Example cleanEnvValue_example :
  cleanEnvValue (Some ([32; 34] ++ js "pk.a'b" ++ [34; 32; 10])%N) = js "pk.ab".
Proof. reflexivity. Qed.

(** * Further properties *)

(** ** The keywords of a prompt *)

Lemma includes_contains s t : includes s t = true <-> contains s t.
Proof. apply includes_spec. Qed.

(** Settles the keyword tests of the goal from the hypotheses on what the
    text contains. *)
Ltac keywords_known :=
  repeat match goal with
         | H : _ \/ _ |- _ => destruct H
         | H : ~ (_ \/ _) |- _ => apply Decidable.not_or in H; destruct H
         | H : contains ?s ?t |- context [includes ?s ?t] =>
             rewrite (proj2 (includes_contains s t) H)
         | H : ~ contains ?s ?t |- context [includes ?s ?t] =>
             rewrite (includes_false s t H)
         end;
  repeat first [rewrite orb_true_r | progress (cbn [orb])].

Section Keywords.

Context {RT : Runtime}.

(** X1. The mode of a prompt follows the keywords of its lowercased text by
    priority: "correr", "rápido" or "interval" give run whatever else the
    prompt says; otherwise "trail" or "sendero" give hike; otherwise "trot"
    gives jog; otherwise "caminar" gives walk; a prompt with none of the
    seven keeps the current mode. *)
Theorem parsePrompt_mode_priority prompt currentMode :
  let has := contains (toLowerCase prompt) in
  let mode := Parsed.mode (parsePrompt prompt currentMode) in
  let fast := has (js "correr") \/ has (js "rápido") \/ has (js "interval") in
  let path := has (js "trail") \/ has (js "sendero") in
  (fast -> mode = run)
  /\ (~ fast -> path -> mode = hike)
  /\ (~ fast -> ~ path -> has (js "trot") -> mode = jog)
  /\ (~ fast -> ~ path -> ~ has (js "trot") -> has (js "caminar") -> mode = walk)
  /\ (~ fast -> ~ path -> ~ has (js "trot") -> ~ has (js "caminar") ->
      mode = currentMode).
Proof.
  intros has mode fast path. subst has mode fast path.
  unfold parsePrompt. cbn [Parsed.mode].
  repeat split; intros; keywords_known; reflexivity.
Qed.

(** X2. The training intent follows the keywords by priority: "interval" or
    "series" give intervals; otherwise "tempo" or "ritmo" give tempo;
    otherwise "trail" or "desnivel" give trail; otherwise easy.  The focus
    label is "Parques" for "parque", otherwise "Iluminación alta" for
    "ilumin", otherwise "Tráfico bajo" for "tráfico"; without these three
    it is "Terreno mixto" exactly when the intent is trail and
    "Ruta equilibrada" for every other intent. *)
Theorem parsePrompt_intent_focus_priority prompt currentMode :
  let has := contains (toLowerCase prompt) in
  let parsed := parsePrompt prompt currentMode in
  let reps := has (js "interval") \/ has (js "series") in
  let pace := has (js "tempo") \/ has (js "ritmo") in
  let hill := has (js "trail") \/ has (js "desnivel") in
  ((reps -> Parsed.intent parsed = intervals)
   /\ (~ reps -> pace -> Parsed.intent parsed = tempo)
   /\ (~ reps -> ~ pace -> hill -> Parsed.intent parsed = trail)
   /\ (~ reps -> ~ pace -> ~ hill -> Parsed.intent parsed = easy))
  /\ ((has (js "parque") -> Parsed.focus parsed = js "Parques")
      /\ (~ has (js "parque") -> has (js "ilumin") ->
          Parsed.focus parsed = js "Iluminación alta")
      /\ (~ has (js "parque") -> ~ has (js "ilumin") -> has (js "tráfico") ->
          Parsed.focus parsed = js "Tráfico bajo")
      /\ (~ has (js "parque") -> ~ has (js "ilumin") -> ~ has (js "tráfico") ->
          Parsed.focus parsed
          = match Parsed.intent parsed with
            | trail => js "Terreno mixto"
            | _ => js "Ruta equilibrada"
            end)).
Proof.
  intros has parsed reps pace hill. subst has parsed reps pace hill.
  unfold parsePrompt. cbn [Parsed.intent Parsed.focus].
  repeat split; intros; keywords_known; reflexivity.
Qed.

(** X3. Parsing is stable under its own result: parsing the prompt again
    with the mode it returned gives the same result.  The current mode only
    enters the returned mode: distance, focus and intent are the same for
    every current mode. *)
Theorem parsePrompt_stable prompt :
  (forall m, parsePrompt prompt (Parsed.mode (parsePrompt prompt m)) = parsePrompt prompt m)
  /\ (forall m1 m2,
        Parsed.distanceKm (parsePrompt prompt m1) = Parsed.distanceKm (parsePrompt prompt m2)
        /\ Parsed.focus (parsePrompt prompt m1) = Parsed.focus (parsePrompt prompt m2)
        /\ Parsed.intent (parsePrompt prompt m1) = Parsed.intent (parsePrompt prompt m2)).
Proof.
  split.
  - intros m. unfold parsePrompt. cbn [Parsed.mode]. f_equal.
    repeat match goal with
           | |- context [if ?b then _ else _] => destruct b
           end; reflexivity.
  - intros m1 m2. repeat split.
Qed.

End Keywords.

(** ** The sign of a parsed distance *)

Lemma round_ratio_not_negative n d : not_negative (round_ratio false n d).
Proof.
  unfold round_ratio. destruct (n <=? 0)%Z; [reflexivity |].
  destruct (shift_ratio n d _) as [n' d'].
  destruct (rne n' d' =? 2 ^ prec)%Z.
  - cbv beta iota. destruct (2 ^ (prec - 1))%Z; try reflexivity.
    destruct (emax <? _)%Z; reflexivity.
  - cbv beta iota. destruct (rne n' d'); try reflexivity.
    destruct (emax <? _)%Z; reflexivity.
Qed.

Lemma mul_not_negative x m e :
  not_negative x -> not_negative (mul x (S754_finite false m e)).
Proof.
  destruct x as [s | s | | s mx ex]; cbn [not_negative mul]; intros H;
    try contradiction; subst; try reflexivity.
  destruct (exact _ _) as [n d]. apply round_ratio_not_negative.
Qed.

Section DistanceSign.

Context {RT : Runtime}.

(** X4. A distance read from a prompt is never NaN and never negative: it
    is a zero, a positive finite number or +Infinity with the sign bit
    clear, since the patterns capture digits and a separator only and a
    sign before the number is not part of the match. *)
Theorem parsePrompt_distance_not_negative prompt mode d :
  Parsed.distanceKm (parsePrompt prompt mode) = Some d -> not_negative d.
Proof.
  rewrite parsePrompt_distance.
  destruct (first_scan ok_km (toLowerCase prompt)) as [cap |] eqn:Ekm.
  - intros [= <-].
    destruct (first_scan_inv ok_km _ _ Ekm) as (pre & ws & rest & _ & Ht & _).
    rewrite parseFloat_number_text by exact Ht. apply round_ratio_not_negative.
  - destruct (first_scan ok_mi (toLowerCase prompt)) as [cap |] eqn:Emi; [| discriminate].
    intros [= <-].
    destruct (first_scan_inv ok_mi _ _ Emi) as (pre & ws & rest & _ & Ht & _).
    rewrite parseFloat_number_text by exact Ht.
    replace (dec 1609 3) with (S754_finite false 7246291800439128 (-52))
      by (vm_compute; reflexivity).
    apply mul_not_negative. apply round_ratio_not_negative.
Qed.

End DistanceSign.

Lemma parsePrompt_distance_not_negative_witness :
  Parsed.distanceKm (parsePrompt (RT := reference_runtime) (js "-5 km") run) = Some (of_Z 5)
  /\ not_negative (of_Z 5).
Proof.
  assert (E : Parsed.distanceKm (parsePrompt (RT := reference_runtime) (js "-5 km") run)
              = Some (of_Z 5)) by (vm_compute; reflexivity).
  split; [exact E |].
  exact (parsePrompt_distance_not_negative (RT := reference_runtime) (js "-5 km") run (of_Z 5) E).
Defined.

(** ** The coach flow and the session *)

Lemma trimStart_blank s : all_of is_space s -> trimStart s = [].
Proof.
  induction 1 as [| c s Hc _ IH]; [reflexivity |].
  cbn [trimStart]. rewrite Hc. exact IH.
Qed.

Lemma trim_blank s : all_of is_space s -> trim s = [].
Proof. intros H. unfold trim. rewrite (trimStart_blank s H). reflexivity. Qed.

Lemma jsstring_eqb_refl a : jsstring_eqb a a = true.
Proof. apply jsstring_eqb_spec. reflexivity. Qed.

Lemma Mode_eqb_refl m : Mode_eqb m m = true.
Proof. destruct m; reflexivity. Qed.

Lemma ByMode_set_set (A : Type) (r : ByMode.t A) m v w :
  ByMode.set (ByMode.set r m v) m w = ByMode.set r m w.
Proof. destruct m; reflexivity. Qed.

Lemma filter_filter (A : Type) (p : A -> bool) l : filter p (filter p l) = filter p l.
Proof.
  induction l as [| a l IH]; [reflexivity |].
  cbn [filter]. destruct (p a) eqn:E; [| exact IH].
  cbn [filter]. rewrite E, IH. reflexivity.
Qed.

Lemma find_none_app (A : Type) (p : A -> bool) l1 l2 :
  find p l1 = None -> find p (l1 ++ l2) = find p l2.
Proof.
  induction l1 as [| a l1 IH]; [reflexivity |].
  cbn [find app]. destruct (p a); [discriminate | exact IH].
Qed.

Lemma find_filter_none (A : Type) (p : A -> bool) l :
  find p (filter (fun x => negb (p x)) l) = None.
Proof.
  induction l as [| a l IH]; [reflexivity |].
  cbn [filter]. destruct (p a) eqn:E; cbn [negb]; [exact IH |].
  cbn [find]. rewrite E. exact IH.
Qed.

Lemma find_listed (l : list RouteOption.t) id :
  In id (ids l) ->
  exists r, find (fun r => jsstring_eqb (RouteOption.id r) id) l = Some r
            /\ In r l /\ RouteOption.id r = id.
Proof.
  induction l as [| a l IH]; [intros [] |].
  cbn [ids map In find]. intros H.
  destruct (jsstring_eqb (RouteOption.id a) id) eqn:E.
  - exists a. split; [reflexivity |]. split; [left; reflexivity |].
    apply jsstring_eqb_spec. exact E.
  - destruct H as [H | H].
    + rewrite H, jsstring_eqb_refl in E. discriminate.
    + destruct (IH H) as (r & Hf & Hin & Hid). exists r. auto.
Qed.

(** The ids of the catalogue start with the letter of their mode, the ids
    of the coach routes with "c". *)
Lemma baseRoutes_not_coach m r t :
  In r (ByMode.get baseRoutes m) -> jsstring_eqb (RouteOption.id r) (99%N :: t) = false.
Proof.
  destruct m; cbn [ByMode.get baseRoutes ByMode.at_run ByMode.at_jog ByMode.at_walk
                   ByMode.at_hike In];
    intros H; repeat (destruct H as [<- | H]; [reflexivity |]); destruct H.
Qed.

Lemma baseRoutes_first m :
  exists c t, first_id (ByMode.get baseRoutes m) = c :: t
              /\ In (c :: t) (ids (ByMode.get baseRoutes m)).
Proof.
  destruct m; vm_compute; do 2 eexists; (split; [reflexivity | left; reflexivity]).
Qed.

Section CoachFlow.

Context {RT : Runtime}.

Lemma coach_id_head d m focus :
  exists t, RouteOption.id (buildRouteFromPrompt d m focus) = 99%N :: t.
Proof.
  unfold buildRouteFromPrompt. cbn [RouteOption.id].
  replace (js "coach-") with [99; 111; 97; 99; 104; 45]%N by (vm_compute; reflexivity).
  eexists. reflexivity.
Qed.

Lemma parsePrompt_mode_fixed prompt m :
  parsePrompt prompt (Parsed.mode (parsePrompt prompt m)) = parsePrompt prompt m.
Proof.
  unfold parsePrompt. cbn [Parsed.mode]. f_equal.
  repeat match goal with
         | |- context [if ?b then _ else _] => destruct b
         end; reflexivity.
Qed.

(** The state after [handleCoachPlan] on a prompt that is not blank. *)
Lemma handleCoachPlan_eq p st c t :
  trim p = c :: t ->
  let parsed := parsePrompt (c :: t) (PlanState.mode st) in
  let distanceKm :=
    match Parsed.distanceKm parsed with
    | Some d => d
    | None => suggestDistance (Parsed.mode parsed)
    end in
  let newRoute :=
    buildRouteFromPrompt distanceKm (Parsed.mode parsed) (Parsed.focus parsed) in
  handleCoachPlan p st =
  PlanState.make (Parsed.mode parsed)
    (ByMode.set (PlanState.customRoutes st) (Parsed.mode parsed)
       (filter (fun r => negb (jsstring_eqb (RouteOption.id r) (RouteOption.id newRoute)))
          (ByMode.get (PlanState.customRoutes st) (Parsed.mode parsed)) ++ [newRoute]))
    (RouteOption.id newRoute) (buildRoutine (Parsed.intent parsed)) 0.
Proof. intros E. unfold handleCoachPlan. rewrite E. reflexivity. Qed.

(** X5. A prompt made of white space only, the empty prompt included,
    changes nothing: mode, coach routes, active route, routine and step
    stay as they are. *)
Theorem handleCoachPlan_blank coachPrompt st :
  all_of is_space coachPrompt -> handleCoachPlan coachPrompt st = st.
Proof.
  intros H. unfold handleCoachPlan. rewrite (trim_blank _ H). reflexivity.
Qed.

(** X6. Generating twice with the same prompt gives the state of the first
    time: the second run parses to the same mode, builds the route with the
    same id, and replaces the first one by it. *)
Theorem handleCoachPlan_idempotent coachPrompt st :
  handleCoachPlan coachPrompt (handleCoachPlan coachPrompt st)
  = handleCoachPlan coachPrompt st.
Proof.
  destruct (trim coachPrompt) as [| c t] eqn:E.
  - unfold handleCoachPlan. rewrite E. reflexivity.
  - rewrite (handleCoachPlan_eq coachPrompt st c t E). cbv zeta.
    rewrite (handleCoachPlan_eq coachPrompt _ c t E). cbv zeta.
    cbn [PlanState.mode PlanState.customRoutes].
    rewrite parsePrompt_mode_fixed.
    set (parsed := parsePrompt (c :: t) (PlanState.mode st)).
    set (newRoute := buildRouteFromPrompt _ _ _).
    rewrite ByMode_get_set, Mode_eqb_refl, ByMode_set_set.
    rewrite filter_app, filter_filter. cbn [filter].
    rewrite jsstring_eqb_refl. cbn [negb]. rewrite app_nil_r. reflexivity.
Qed.

(** X7. After a prompt that is not blank the active route is the route
    that was just built: it is the last route of the list of the parsed
    mode, which is the mode of the page now, it is found under the active
    id (no catalogue route and no older coach route has that id), and the
    routine starts again at its first step, with four steps. *)
Theorem handleCoachPlan_activates coachPrompt st :
  trim coachPrompt <> [] ->
  let parsed := parsePrompt (trim coachPrompt) (PlanState.mode st) in
  let distanceKm :=
    match Parsed.distanceKm parsed with
    | Some d => d
    | None => suggestDistance (Parsed.mode parsed)
    end in
  let newRoute :=
    buildRouteFromPrompt distanceKm (Parsed.mode parsed) (Parsed.focus parsed) in
  let st' := handleCoachPlan coachPrompt st in
  PlanState.mode st' = Parsed.mode parsed
  /\ activeRoute st' = Some newRoute
  /\ (exists others, routes st' = others ++ [newRoute])
  /\ PlanState.routine st' = buildRoutine (Parsed.intent parsed)
  /\ List.length (PlanState.routine st') = 4%nat
  /\ PlanState.currentStepIndex st' = 0%nat.
Proof.
  intros Hne. destruct (trim coachPrompt) as [| c t] eqn:E; [congruence |].
  intros parsed distanceKm newRoute st'. subst st'.
  rewrite (handleCoachPlan_eq coachPrompt st c t E). cbv zeta.
  fold parsed. fold distanceKm. fold newRoute.
  cbn [PlanState.mode PlanState.routine PlanState.currentStepIndex].
  split; [reflexivity |]. split; [| split; [| split; [reflexivity | split; [| reflexivity]]]].
  - unfold activeRoute, routes.
    cbn [PlanState.mode PlanState.customRoutes PlanState.activeRouteId].
    rewrite ByMode_get_set, Mode_eqb_refl.
    destruct (coach_id_head distanceKm (Parsed.mode parsed) (Parsed.focus parsed))
      as (tail & Hid).
    fold newRoute in Hid.
    rewrite find_none_app.
    + rewrite find_none_app.
      * cbn [find]. rewrite jsstring_eqb_refl. reflexivity.
      * apply (find_filter_none _
                 (fun r => jsstring_eqb (RouteOption.id r) (RouteOption.id newRoute))).
    + destruct (find _ (ByMode.get baseRoutes _)) as [r |] eqn:F; [| reflexivity].
      apply find_some in F as [Hin Heq]. rewrite Hid in Heq.
      rewrite (baseRoutes_not_coach _ _ _ Hin) in Heq. discriminate.
  - unfold routes. cbn [PlanState.mode PlanState.customRoutes].
    rewrite ByMode_get_set, Mode_eqb_refl. rewrite app_assoc. eexists. reflexivity.
  - destruct (Parsed.intent parsed); reflexivity.
Qed.

Lemma step_routes_kept st ev m id :
  In id (ids (ByMode.get (PlanState.customRoutes st) m)) ->
  In id (ids (ByMode.get (PlanState.customRoutes (step st ev)) m)).
Proof.
  destruct ev as [p | m' | id' | i]; cbn [step]; try (intros H; exact H).
  intros H. destruct (trim p) as [| c t] eqn:E.
  - unfold handleCoachPlan. rewrite E. exact H.
  - rewrite (handleCoachPlan_eq p st c t E). cbv zeta.
    cbn [PlanState.customRoutes]. rewrite ByMode_get_set.
    destruct (Mode_eqb _ m) eqn:Em; [| exact H].
    assert (Parsed.mode (parsePrompt (c :: t) (PlanState.mode st)) = m) as ->
      by (destruct (Parsed.mode _), m; (reflexivity || discriminate)).
    set (newRoute := buildRouteFromPrompt _ _ _).
    unfold ids. rewrite map_app, in_app_iff. cbn [map In].
    destruct (jsstring_eqb id (RouteOption.id newRoute)) eqn:Eid.
    + right. left. symmetry. apply jsstring_eqb_spec. exact Eid.
    + left. apply in_map_iff in H as (r & Hr & Hin). apply in_map_iff.
      exists r. split; [exact Hr |]. apply filter_In. split; [exact Hin |].
      rewrite Hr, Eid. reflexivity.
Qed.

(** X10. A coach route stays available: whatever the user does next, the
    list of coach routes of its mode keeps a route with its id (the route
    itself, or the one that replaced it under the same id), and the lists
    of the other modes are not touched by [handleCoachPlan]. *)
Theorem coach_routes_persist :
  (forall evs st m id,
      In id (ids (ByMode.get (PlanState.customRoutes st) m)) ->
      In id (ids (ByMode.get (PlanState.customRoutes (fold_left step evs st)) m)))
  /\ (forall coachPrompt st m,
        m <> PlanState.mode (handleCoachPlan coachPrompt st) ->
        ByMode.get (PlanState.customRoutes (handleCoachPlan coachPrompt st)) m
        = ByMode.get (PlanState.customRoutes st) m).
Proof.
  split.
  - induction evs as [| ev evs IH]; intros st m id H; [exact H |].
    cbn [fold_left]. apply IH. apply step_routes_kept. exact H.
  - intros p st m. destruct (trim p) as [| c t] eqn:E.
    + unfold handleCoachPlan. rewrite E. reflexivity.
    + rewrite (handleCoachPlan_eq p st c t E). cbv zeta.
      cbn [PlanState.mode PlanState.customRoutes]. intros Hm.
      rewrite ByMode_get_set.
      destruct (Parsed.mode _), m; try reflexivity; congruence.
Qed.

Lemma step_active_listed st ev :
  offered st ev ->
  In (PlanState.activeRouteId st) (ids (routes st)) ->
  In (PlanState.activeRouteId (step st ev)) (ids (routes (step st ev))).
Proof.
  destruct ev as [p | m | id | i]; cbn [step offered]; intros Hoff H.
  - destruct (trim p) as [| c t] eqn:E.
    + unfold handleCoachPlan. rewrite E. exact H.
    + rewrite (handleCoachPlan_eq p st c t E). cbv zeta. unfold routes.
      cbn [PlanState.mode PlanState.customRoutes PlanState.activeRouteId].
      rewrite ByMode_get_set, Mode_eqb_refl. unfold ids.
      rewrite !map_app, !in_app_iff. right. right. left. reflexivity.
  - unfold selectMode, routes.
    cbn [PlanState.mode PlanState.customRoutes PlanState.activeRouteId].
    destruct (baseRoutes_first m) as (c & t & Hf & Hin).
    assert (F : first_id (ByMode.get baseRoutes m ++ ByMode.get (PlanState.customRoutes st) m)
                = c :: t).
    { destruct (ByMode.get baseRoutes m); [discriminate | exact Hf]. }
    rewrite F. unfold ids. rewrite map_app, in_app_iff. left. exact Hin.
  - exact Hoff.
  - exact H.
Qed.

(** X8. In every state of a session the active id names a route of the
    list on display: [activeRoute] finds a route with that id among the
    routes of the current mode, and never has to fall back on the first
    route or on nothing. *)
Theorem active_route_listed st :
  reachable st ->
  exists r,
    activeRoute st = Some r
    /\ In r (routes st)
    /\ RouteOption.id r = PlanState.activeRouteId st.
Proof.
  intros R.
  assert (L : In (PlanState.activeRouteId st) (ids (routes st))).
  { induction R as [| st ev R IH Hoff].
    - left. reflexivity.
    - apply step_active_listed; assumption. }
  destruct (find_listed _ _ L) as (r & Hf & Hin & Hid).
  exists r. unfold activeRoute. rewrite Hf. auto.
Qed.

(** X9. In every state of a session the current step is a step of the
    routine: the index is below the number of steps, so the step on display
    always exists. *)
Theorem step_index_in_range st :
  reachable st ->
  (PlanState.currentStepIndex st < List.length (PlanState.routine st))%nat.
Proof.
  induction 1 as [| st ev R IH Hoff].
  - cbn. lia.
  - destruct ev as [p | m | id | i]; cbn [step offered] in *.
    + destruct (trim p) as [| c t] eqn:E.
      * unfold handleCoachPlan. rewrite E. exact IH.
      * rewrite (handleCoachPlan_eq p st c t E). cbv zeta.
        cbn [PlanState.currentStepIndex PlanState.routine].
        destruct (Parsed.intent _); cbn; lia.
    + exact IH.
    + cbn [selectRoute PlanState.currentStepIndex PlanState.routine]. lia.
    + exact Hoff.
Qed.

End CoachFlow.

(** ** Letter case, mode buttons and the ids on display *)

Lemma NoDup_append (A : Type) (l l' : list A) :
  NoDup l -> NoDup l' -> (forall a, In a l -> ~ In a l') -> NoDup (l ++ l').
Proof.
  induction 1 as [| a l Ha _ IH]; intros H' D; [exact H' |].
  cbn [app]. constructor.
  - rewrite in_app_iff. intros [H | H]; [contradiction |].
    apply (D a); [left; reflexivity | exact H].
  - apply IH; [exact H' |]. intros b Hb. apply D. right. exact Hb.
Qed.

Lemma count_id (l : list RouteOption.t) id :
  NoDup (ids l) -> In id (ids l) ->
  List.length (filter (fun r => jsstring_eqb (RouteOption.id r) id) l) = 1%nat.
Proof.
  induction l as [| a l IH]; [intros _ [] |].
  cbn [ids map filter]. intros N H. inversion N as [| ? ? Ha Nl]; subst.
  destruct (jsstring_eqb (RouteOption.id a) id) eqn:E.
  - apply jsstring_eqb_spec in E. cbn [List.length]. f_equal.
    assert (F : forall r, In r l -> jsstring_eqb (RouteOption.id r) id = false).
    { intros r Hr. destruct (jsstring_eqb (RouteOption.id r) id) eqn:E'; [| reflexivity].
      apply jsstring_eqb_spec in E'. exfalso. apply Ha. rewrite E, <- E'.
      apply in_map. exact Hr. }
    clear - F. induction l as [| b l IH]; [reflexivity |].
    cbn [filter]. rewrite (F b (or_introl eq_refl)). apply IH.
    intros r Hr. apply F. right. exact Hr.
  - destruct H as [H | H]; [rewrite H, jsstring_eqb_refl in E; discriminate |].
    apply IH; assumption.
Qed.

Lemma baseRoutes_unique m : NoDup (ids (ByMode.get baseRoutes m)).
Proof.
  destruct m; vm_compute;
    repeat (constructor; [cbn [In]; intros H; repeat destruct H as [H | H];
                          try discriminate H; exact H |]);
    constructor.
Qed.

Section Catalogue.

Context {RT : Runtime}.

(** X19. The parser does not depend on the letter case: on a runtime that
    lowers ASCII letters as ECMAScript does, two ASCII prompts that differ
    in the case of their letters only are parsed to the same result. *)
Theorem parsePrompt_case_insensitive prompt1 prompt2 mode :
  lowers_ascii RT ->
  Forall (fun c => (c < 128)%N) prompt1 -> Forall (fun c => (c < 128)%N) prompt2 ->
  map ascii_lower prompt1 = map ascii_lower prompt2 ->
  parsePrompt prompt1 mode = parsePrompt prompt2 mode.
Proof.
  intros L A1 A2 E. unfold parsePrompt. rewrite (L prompt1 A1), (L prompt2 A2), E.
  reflexivity.
Qed.

(** X20. A mode button always activates the first catalogue route of its
    mode, never a coach route, also when the page is in that mode already;
    it keeps the coach routes, the routine and, unlike the choice of a
    route, the current step. *)
Theorem selectMode_first_catalogue m st :
  let st' := selectMode m st in
  PlanState.mode st' = m
  /\ activeRoute st' = hd_error (ByMode.get baseRoutes m)
  /\ PlanState.activeRouteId st' = first_id (ByMode.get baseRoutes m)
  /\ PlanState.customRoutes st' = PlanState.customRoutes st
  /\ PlanState.routine st' = PlanState.routine st
  /\ PlanState.currentStepIndex st' = PlanState.currentStepIndex st
  /\ PlanState.currentStepIndex (selectRoute (PlanState.activeRouteId st') st') = 0%nat.
Proof.
  cbv zeta. unfold selectMode, activeRoute, routes.
  cbn [PlanState.mode PlanState.customRoutes PlanState.activeRouteId PlanState.routine
       PlanState.currentStepIndex selectRoute].
  repeat split; destruct m; reflexivity.
Qed.

Lemma step_coach_ids st ev : coach_ids st -> coach_ids (step st ev).
Proof.
  intros H. destruct ev as [p | m' | id | i]; cbn [step]; try exact H.
  destruct (trim p) as [| c t] eqn:E.
  - unfold handleCoachPlan. rewrite E. exact H.
  - rewrite (handleCoachPlan_eq p st c t E). cbv zeta. intros m r.
    cbn [PlanState.customRoutes]. rewrite ByMode_get_set.
    destruct (Mode_eqb _ m); [| apply H].
    rewrite in_app_iff. intros [Hr | [<- | []]].
    + apply filter_In in Hr as [Hr _]. apply (H _ r Hr).
    + apply coach_id_head.
Qed.

Lemma routes_unique st : unique_ids st -> coach_ids st -> NoDup (ids (routes st)).
Proof.
  intros U C. unfold routes, ids. rewrite map_app. apply NoDup_append.
  - apply baseRoutes_unique.
  - apply U.
  - intros id Hb Hc.
    apply in_map_iff in Hb as (r & <- & Hr). apply in_map_iff in Hc as (r' & E & Hr').
    destruct (C _ _ Hr') as (t & Ht). rewrite Ht in E.
    pose proof (baseRoutes_not_coach _ _ t Hr) as F.
    rewrite <- E, jsstring_eqb_refl in F. discriminate.
Qed.

(** X21. The routes on display never share an id: after any sequence of
    actions the ids of the catalogue routes and of the coach routes of the
    current mode are pairwise different, and in every state of a session
    exactly one route of the list has the active id, so exactly one route
    button is highlighted. *)
Theorem routes_ids_unique :
  (forall evs, NoDup (ids (routes (after evs))))
  /\ (forall st,
        reachable st ->
        List.length
          (filter (fun r => jsstring_eqb (RouteOption.id r) (PlanState.activeRouteId st))
             (routes st)) = 1%nat).
Proof.
  assert (I0 : unique_ids initialState /\ coach_ids initialState).
  { split; [intros m; destruct m; constructor | intros m r; destruct m; intros []]. }
  split.
  - intros evs. unfold after.
    assert (G : forall st, unique_ids st /\ coach_ids st ->
                           NoDup (ids (routes (fold_left step evs st)))).
    { induction evs as [| ev evs IH]; intros st [U C].
      - apply routes_unique; assumption.
      - cbn [fold_left]. apply IH.
        split; [apply step_unique_ids | apply step_coach_ids]; assumption. }
    apply G. exact I0.
  - intros st R.
    assert (G : unique_ids st /\ coach_ids st
                /\ In (PlanState.activeRouteId st) (ids (routes st))).
    { induction R as [| st ev R (U & C & L) Hoff].
      - destruct I0 as [U C]. split; [exact U |]. split; [exact C |]. left. reflexivity.
      - split; [apply step_unique_ids; exact U |].
        split; [apply step_coach_ids; exact C |].
        apply step_active_listed; assumption. }
    destruct G as (U & C & L). apply count_id; [apply routes_unique; assumption | exact L].
Qed.

End Catalogue.

(** ** The order of the numbers *)

Lemma compare_not_nan x y c :
  compare x y = Some c -> is_nan x = false /\ is_nan y = false.
Proof. destruct x, y; cbn; try discriminate; auto. Qed.

Lemma scaled_shift s m ex e0 e :
  (e <= e0 <= ex)%Z -> scaled s m ex e = (scaled s m ex e0 * 2 ^ (e0 - e))%Z.
Proof.
  intros H. unfold scaled.
  replace (ex - e)%Z with ((ex - e0) + (e0 - e))%Z by lia.
  rewrite Z.pow_add_r by lia. destruct s; lia.
Qed.

Lemma scaled_sign (s : bool) (m : positive) (ex e : Z) :
  (e <= ex)%Z -> if s then (scaled s m ex e < 0)%Z else (0 < scaled s m ex e)%Z.
Proof.
  intros H. unfold scaled.
  assert (0 < 2 ^ (ex - e))%Z by (apply Z.pow_pos_nonneg; lia).
  destruct s; nia.
Qed.

(** Comparing two numbers is comparing their ranks and then their
    multiples of a common power of two. *)
Lemma compare_order e x y :
  is_nan x = false -> is_nan y = false ->
  (e <= exponent x)%Z -> (e <= exponent y)%Z ->
  compare x y = Some (order e x y).
Proof.
  destruct x as [sx | sx | | sx mx ex], y as [sy | sy | | sy my ey];
    cbn [is_nan exponent]; intros Hx Hy Ex Ey; try discriminate;
    unfold order; cbn [compare rank units].
  - reflexivity.
  - destruct sy; reflexivity.
  - pose proof (scaled_sign sy my ey e Ey) as S. f_equal. rewrite Z.compare_refl.
    destruct sy; symmetry; [apply Z.compare_gt_iff | apply Z.compare_lt_iff]; exact S.
  - destruct sx; reflexivity.
  - destruct sx, sy; reflexivity.
  - destruct sx; reflexivity.
  - pose proof (scaled_sign sx mx ex e Ex) as S. f_equal. rewrite Z.compare_refl.
    destruct sx; symmetry; [apply Z.compare_lt_iff | apply Z.compare_gt_iff]; exact S.
  - destruct sy; reflexivity.
  - f_equal. rewrite Z.compare_refl.
    rewrite (scaled_shift sx mx ex (Z.min ex ey) e) by lia.
    rewrite (scaled_shift sy my ey (Z.min ex ey) e) by lia.
    assert (0 < 2 ^ (Z.min ex ey - e))%Z by (apply Z.pow_pos_nonneg; lia).
    set (a := scaled sx mx ex (Z.min ex ey)). set (b := scaled sy my ey (Z.min ex ey)).
    destruct (Z.compare_spec a b), (Z.compare_spec (a * 2 ^ (Z.min ex ey - e))
                                      (b * 2 ^ (Z.min ex ey - e)))%Z;
      try reflexivity; exfalso; nia.
Qed.

Lemma compare_refl x : is_nan x = false -> compare x x = Some Eq.
Proof.
  intros H. rewrite (compare_order (exponent x)) by (auto; lia).
  unfold order. rewrite !Z.compare_refl. reflexivity.
Qed.

(** Rewrites the comparisons of up to three numbers over one power of two
    and leaves a goal on integers. *)
Ltac order_of x y z :=
  let e := constr:(Z.min (exponent x) (Z.min (exponent y) (exponent z))) in
  repeat match goal with
         | H : context [compare ?a ?b] |- _ =>
             rewrite (compare_order e a b) in H by (auto; lia)
         | |- context [compare ?a ?b] =>
             rewrite (compare_order e a b) by (auto; lia)
         end;
  unfold order in *;
  repeat match goal with
         | H : context [(?a ?= ?b)%Z] |- _ => destruct (Z.compare_spec a b)
         | |- context [(?a ?= ?b)%Z] => destruct (Z.compare_spec a b)
         end;
  try discriminate; try reflexivity; try lia.

Lemma leb_not_nan x y : leb x y = true -> is_nan x = false /\ is_nan y = false.
Proof.
  unfold leb. destruct (compare x y) eqn:E; [| discriminate].
  intros _. apply (compare_not_nan _ _ _ E).
Qed.

Lemma leb_trans x y z : leb x y = true -> leb y z = true -> leb x z = true.
Proof.
  intros Hxy Hyz.
  destruct (leb_not_nan _ _ Hxy) as [Nx Ny].
  destruct (leb_not_nan _ _ Hyz) as [_ Nz].
  unfold leb in *. order_of x y z.
Qed.

Lemma compare_eq_trans x y z :
  compare x y = Some Eq -> compare y z = Some Eq -> compare x z = Some Eq.
Proof.
  intros Hxy Hyz.
  destruct (compare_not_nan _ _ _ Hxy) as [Nx Ny].
  destruct (compare_not_nan _ _ _ Hyz) as [_ Nz].
  order_of x y z.
Qed.

Lemma compare_eq_leb x y : compare x y = Some Eq -> leb x y = true /\ leb y x = true.
Proof.
  intros H. unfold leb. rewrite (compare_opp x y), H. auto.
Qed.

Lemma Math_min_spec x y :
  is_nan x = false -> is_nan y = false ->
  is_nan (Math_min x y) = false
  /\ leb (Math_min x y) x = true /\ leb (Math_min x y) y = true
  /\ (compare (Math_min x y) x = Some Eq \/ compare (Math_min x y) y = Some Eq).
Proof.
  intros Nx Ny. unfold Math_min, leb.
  pose proof (compare_refl x Nx) as Rx. pose proof (compare_refl y Ny) as Ry.
  pose proof (compare_opp x y) as O.
  destruct (compare x y) as [[| |] |] eqn:E; cbn [option_map CompOpp] in O.
  - destruct x as [sx | | |], y as [sy | | |];
      rewrite ?Rx, ?E; auto; try discriminate.
  - rewrite Rx, E. auto.
  - rewrite Ry, O. auto.
  - destruct x, y; discriminate.
Qed.

Lemma Math_max_spec x y :
  is_nan x = false -> is_nan y = false ->
  is_nan (Math_max x y) = false
  /\ leb x (Math_max x y) = true /\ leb y (Math_max x y) = true
  /\ (compare (Math_max x y) x = Some Eq \/ compare (Math_max x y) y = Some Eq).
Proof.
  intros Nx Ny. unfold Math_max, leb.
  pose proof (compare_refl x Nx) as Rx. pose proof (compare_refl y Ny) as Ry.
  pose proof (compare_opp x y) as O.
  destruct (compare x y) as [[| |] |] eqn:E; cbn [option_map CompOpp] in O.
  - destruct x as [sx | | |], y as [sy | | |];
      rewrite ?Rx, ?E, ?O; auto; try discriminate.
  - rewrite Ry, E. auto.
  - rewrite Rx, O. auto.
  - destruct x, y; discriminate.
Qed.

(** ** The map adapter: bounds and labels *)

Lemma round_ratio_not_nan s n d : is_nan (round_ratio s n d) = false.
Proof.
  unfold round_ratio. destruct (n <=? 0)%Z; [reflexivity |].
  destruct (shift_ratio n d _) as [n' d'].
  destruct (rne n' d' =? 2 ^ prec)%Z; cbv beta iota.
  - destruct (2 ^ (prec - 1))%Z; try reflexivity. destruct (emax <? _)%Z; reflexivity.
  - destruct (rne n' d'); try reflexivity. destruct (emax <? _)%Z; reflexivity.
Qed.

Lemma opp_not_nan x : is_nan x = false -> is_nan (opp x) = false.
Proof. destruct x; auto. Qed.

Lemma add_finite_not_nan x y :
  is_nan x = false -> is_nan y = false ->
  rank x = 0%Z \/ rank y = 0%Z ->
  is_nan (add x y) = false.
Proof.
  destruct x as [sx | sx | | sx mx ex], y as [sy | sy | | sy my ey];
    cbn [is_nan rank add]; intros Hx Hy Hr; try discriminate; try reflexivity.
  - destruct sx, sy; cbn in Hr; destruct Hr; discriminate.
  - destruct (_ =? 0)%Z; [reflexivity |].
    destruct (exact _ _). apply round_ratio_not_nan.
Qed.

Lemma mul_finite_not_nan x s m e :
  is_nan x = false -> is_nan (mul x (S754_finite s m e)) = false.
Proof.
  destruct x as [sx | sx | | sx mx ex]; cbn [is_nan mul]; intros Hx;
    try discriminate; try reflexivity.
  destruct (exact _ _). apply round_ratio_not_nan.
Qed.

Lemma geo_coordinate_not_nan p :
  is_nan (Point.x p) = false -> is_nan (Point.y p) = false ->
  is_nan (fst (geo_coordinate p)) = false /\ is_nan (snd (geo_coordinate p)) = false.
Proof.
  intros Hx Hy. unfold geo_coordinate, sub. cbn [fst snd].
  assert (K : exists s m e, dec 75 5 = S754_finite s m e)
    by (vm_compute; do 3 eexists; reflexivity).
  destruct K as (s & m & e & ->).
  assert (F : rank (of_Z 50) = 0%Z /\ is_nan (of_Z 50) = false
              /\ rank (opp (of_Z 50)) = 0%Z /\ is_nan (opp (of_Z 50)) = false
              /\ rank (fst MAP_CENTER) = 0%Z /\ is_nan (fst MAP_CENTER) = false
              /\ rank (snd MAP_CENTER) = 0%Z /\ is_nan (snd MAP_CENTER) = false)
    by (vm_compute; repeat split).
  destruct F as (F1 & F2 & F3 & F4 & F5 & F6 & F7 & F8).
  split; apply add_finite_not_nan; auto; apply mul_finite_not_nan;
    apply add_finite_not_nan; auto using opp_not_nan.
Qed.

Lemma fold_min (A : Type) (g : A -> number) l :
  forall a,
    is_nan a = false -> (forall c, In c l -> is_nan (g c) = false) ->
    let r := fold_left (fun a c => Math_min a (g c)) l a in
    is_nan r = false /\ leb r a = true
    /\ (forall c, In c l -> leb r (g c) = true)
    /\ (compare r a = Some Eq \/ exists c, In c l /\ compare r (g c) = Some Eq).
Proof.
  induction l as [| c l IH]; intros a Na Nl; cbn [fold_left].
  - pose proof (compare_refl a Na) as R. unfold leb. rewrite R.
    repeat split; auto; intros c [].
  - destruct (Math_min_spec a (g c) Na (Nl c (or_introl eq_refl)))
      as (Nm & La & Lc & T).
    destruct (IH (Math_min a (g c)) Nm (fun c' H => Nl c' (or_intror H)))
      as (Nr & Lr & Lall & Tr).
    split; [exact Nr |]. split; [apply (leb_trans _ _ _ Lr La) |]. split.
    + intros c' [<- | H]; [apply (leb_trans _ _ _ Lr Lc) | apply Lall; exact H].
    + destruct Tr as [Tr | (c' & Hin & Tr)].
      * destruct T as [T | T].
        -- left. apply (compare_eq_trans _ _ _ Tr T).
        -- right. exists c. split; [left; reflexivity | apply (compare_eq_trans _ _ _ Tr T)].
      * right. exists c'. split; [right; exact Hin | exact Tr].
Qed.

Lemma fold_max (A : Type) (g : A -> number) l :
  forall a,
    is_nan a = false -> (forall c, In c l -> is_nan (g c) = false) ->
    let r := fold_left (fun a c => Math_max a (g c)) l a in
    is_nan r = false /\ leb a r = true
    /\ (forall c, In c l -> leb (g c) r = true)
    /\ (compare r a = Some Eq \/ exists c, In c l /\ compare r (g c) = Some Eq).
Proof.
  induction l as [| c l IH]; intros a Na Nl; cbn [fold_left].
  - pose proof (compare_refl a Na) as R. unfold leb. rewrite R.
    repeat split; auto; intros c [].
  - destruct (Math_max_spec a (g c) Na (Nl c (or_introl eq_refl)))
      as (Nm & La & Lc & T).
    destruct (IH (Math_max a (g c)) Nm (fun c' H => Nl c' (or_intror H)))
      as (Nr & Lr & Lall & Tr).
    split; [exact Nr |]. split; [apply (leb_trans _ _ _ La Lr) |]. split.
    + intros c' [<- | H]; [apply (leb_trans _ _ _ Lc Lr) | apply Lall; exact H].
    + destruct Tr as [Tr | (c' & Hin & Tr)].
      * destruct T as [T | T].
        -- left. apply (compare_eq_trans _ _ _ Tr T).
        -- right. exists c. split; [left; reflexivity | apply (compare_eq_trans _ _ _ Tr T)].
      * right. exists c'. split; [right; exact Hin | exact Tr].
Qed.

(** The fold of [buildRouteGeo] works on the four corner values
    independently. *)
Lemma fold_bounds (l : list (number * number)) :
  forall acc,
    fold_left
      (fun acc c =>
         ((Math_min (fst (fst acc)) (fst c), Math_min (snd (fst acc)) (snd c)),
          (Math_max (fst (snd acc)) (fst c), Math_max (snd (snd acc)) (snd c))))
      l acc
    = ((fold_left (fun a c => Math_min a (fst c)) l (fst (fst acc)),
        fold_left (fun a c => Math_min a (snd c)) l (snd (fst acc))),
       (fold_left (fun a c => Math_max a (fst c)) l (fst (snd acc)),
        fold_left (fun a c => Math_max a (snd c)) l (snd (snd acc)))).
Proof.
  induction l as [| c l IH]; intros [[a b] [a' b']]; [reflexivity |].
  cbn [fold_left]. rewrite IH. reflexivity.
Qed.

Lemma fold_left_mapped (A B C : Type) (f : A -> B -> A) (g : C -> B) l :
  forall a, fold_left f (map g l) a = fold_left (fun a c => f a (g c)) l a.
Proof. induction l as [| c l IH]; intros a; [reflexivity | apply IH]. Qed.

Lemma generateShape_three d :
  generateShape d = shape4 \/ generateShape d = shape5 \/ generateShape d = shape6.
Proof.
  rewrite generateShape_cases.
  destruct (gtb d (of_Z 12)) eqn:G12.
  - rewrite (gtb_12_9 d G12). auto.
  - destruct (gtb d (of_Z 9)); auto.
Qed.

Section MapAdapter.

Context {RT : Runtime}.

(** X14. The bounds that [buildRouteGeo] hands to [fitBounds] contain every
    point of the route and are tight: for a route with at least one point,
    none of them with a NaN coordinate, the longitude and the latitude of
    every point lie between those of the south-west and of the north-east
    corner, and each of the four corner values is the value of some point
    of the route. *)
Theorem buildRouteGeo_bounds route :
  RouteOption.points route <> [] ->
  (forall p, In p (RouteOption.points route) ->
     is_nan (Point.x p) = false /\ is_nan (Point.y p) = false) ->
  exists geo,
    buildRouteGeo route = Some geo
    /\ (forall p, In p (RouteOption.points route) ->
          leb (fst (RouteGeo.sw geo)) (fst (geo_coordinate p)) = true
          /\ leb (fst (geo_coordinate p)) (fst (RouteGeo.ne geo)) = true
          /\ leb (snd (RouteGeo.sw geo)) (snd (geo_coordinate p)) = true
          /\ leb (snd (geo_coordinate p)) (snd (RouteGeo.ne geo)) = true)
    /\ (exists p, In p (RouteOption.points route)
          /\ compare (fst (RouteGeo.sw geo)) (fst (geo_coordinate p)) = Some Eq)
    /\ (exists p, In p (RouteOption.points route)
          /\ compare (snd (RouteGeo.sw geo)) (snd (geo_coordinate p)) = Some Eq)
    /\ (exists p, In p (RouteOption.points route)
          /\ compare (fst (RouteGeo.ne geo)) (fst (geo_coordinate p)) = Some Eq)
    /\ (exists p, In p (RouteOption.points route)
          /\ compare (snd (RouteGeo.ne geo)) (snd (geo_coordinate p)) = Some Eq).
Proof.
  intros Hne Hnan. unfold buildRouteGeo.
  destruct (RouteOption.points route) as [| p0 ps] eqn:Ep; [congruence |].
  change (map toCoord (p0 :: ps)) with (map geo_coordinate (p0 :: ps)).
  set (pts := p0 :: ps) in *.
  change (map geo_coordinate pts) with (geo_coordinate p0 :: map geo_coordinate ps) at 1.
  cbv beta iota. rewrite fold_bounds. cbn [fst snd].
  change (geo_coordinate p0 :: map geo_coordinate ps) with (map geo_coordinate pts).
  eexists. split; [reflexivity |]. cbn [RouteGeo.sw RouteGeo.ne fst snd].
  rewrite !fold_left_mapped.
  assert (I0 : In p0 pts) by (left; reflexivity).
  assert (N0 : is_nan (fst (geo_coordinate p0)) = false
               /\ is_nan (snd (geo_coordinate p0)) = false).
  { destruct (Hnan p0 I0) as [X Y]. exact (geo_coordinate_not_nan p0 X Y). }
  assert (N1 : forall p, In p pts -> is_nan (fst (geo_coordinate p)) = false).
  { intros p Hp. destruct (Hnan p Hp) as [X Y].
    exact (proj1 (geo_coordinate_not_nan p X Y)). }
  assert (N2 : forall p, In p pts -> is_nan (snd (geo_coordinate p)) = false).
  { intros p Hp. destruct (Hnan p Hp) as [X Y].
    exact (proj2 (geo_coordinate_not_nan p X Y)). }
  destruct (fold_min _ (fun p => fst (geo_coordinate p)) pts _ (proj1 N0) N1)
    as (_ & _ & A1 & T1).
  destruct (fold_min _ (fun p => snd (geo_coordinate p)) pts _ (proj2 N0) N2)
    as (_ & _ & A2 & T2).
  destruct (fold_max _ (fun p => fst (geo_coordinate p)) pts _ (proj1 N0) N1)
    as (_ & _ & A3 & T3).
  destruct (fold_max _ (fun p => snd (geo_coordinate p)) pts _ (proj2 N0) N2)
    as (_ & _ & A4 & T4).
  cbv zeta in *.
  split; [intros p Hp; auto |].
  repeat split;
    match goal with
    | |- exists p, In p pts /\ compare ?r (?f (geo_coordinate p)) = Some Eq =>
        match goal with
        | T : compare r _ = Some Eq \/ _ |- _ =>
            destruct T as [T | (c & Hc & T)];
            [exists p0; split; [exact I0 | exact T] | exists c; split; [exact Hc | exact T]]
        end
    end.
Qed.

(** X15. The label of a feature is the label of its waypoint when it has
    one, an empty label included; a waypoint without a label gets "Inicio"
    when it is the first one, "Fin" when it is the last one of several, and
    "P" followed by its position counted from one otherwise.  The line
    carries the title of the route. *)
Theorem buildRouteGeo_labels route :
  RouteOption.points route <> [] ->
  exists geo,
    buildRouteGeo route = Some geo
    /\ RouteGeo.line_title geo = RouteOption.title route
    /\ forall idx p,
         nth_error (RouteOption.points route) idx = Some p ->
         exists f,
           nth_error (RouteGeo.points geo) idx = Some f
           /\ (forall l, Point.label p = Some l -> Feature.label f = l)
           /\ (Point.label p = None ->
               (idx = 0%nat -> Feature.label f = js "Inicio")
               /\ (idx = (List.length (RouteOption.points route) - 1)%nat ->
                   (0 < idx)%nat -> Feature.label f = js "Fin")
               /\ ((0 < idx < List.length (RouteOption.points route) - 1)%nat ->
                   Feature.label f
                   = js "P" ++ Number_toString (of_Z (Z.of_nat idx + 1)))).
Proof.
  intros Hne. unfold buildRouteGeo.
  destruct (RouteOption.points route) as [| p0 ps] eqn:Ep; [congruence |].
  cbn [map]. eexists. split; [reflexivity |].
  cbn [RouteGeo.line_title RouteGeo.points]. split; [reflexivity |].
  intros idx p Hp. unfold mapi. rewrite nth_error_mapi_from.
  change (toCoord p0 :: map toCoord ps) with (map toCoord (p0 :: ps)).
  rewrite nth_error_map, Hp. cbn [option_map]. eexists. split; [reflexivity |].
  cbn [Feature.label Nat.add]. rewrite Hp, length_map. cbn [List.length].
  destruct p as [px py [l |]]; cbn [Point.label].
  - split; [intros l' [= <-]; reflexivity | discriminate].
  - split; [discriminate |]. intros _. split; [| split].
    + intros ->. reflexivity.
    + intros -> H. destruct (Nat.eqb_spec (S (List.length ps) - 1) 0); [lia |].
      rewrite Nat.eqb_refl. reflexivity.
    + intros H. destruct (Nat.eqb_spec idx 0); [lia |].
      destruct (Nat.eqb_spec idx (S (List.length ps) - 1)); [lia |]. reflexivity.
Qed.

(** X13. The bounds of a coach route are spanned by its two ends: for
    every distance, mode and focus the south-west corner is the coordinate
    of the first waypoint of the generated shape and the north-east corner
    the coordinate of its last one. *)
Theorem coach_route_bounds d m focus :
  exists geo first others last,
    buildRouteGeo (buildRouteFromPrompt d m focus) = Some geo
    /\ generateShape d = first :: others ++ [last]
    /\ RouteGeo.sw geo = geo_coordinate first
    /\ RouteGeo.ne geo = geo_coordinate last.
Proof.
  unfold buildRouteGeo, buildRouteFromPrompt. cbn [RouteOption.points].
  destruct (generateShape_three d) as [-> | [-> | ->]].
  - eexists. exists (pt 12 86 (Some (js "Inicio"))),
      [pt 36 64 None; pt 58 50 None], (pt 82 26 (Some (js "Fin"))).
    split; [reflexivity |]. split; [reflexivity |].
    cbn [RouteGeo.sw RouteGeo.ne]. split; vm_compute; reflexivity.
  - eexists. exists (pt 12 86 (Some (js "Inicio"))),
      [pt 36 64 None; pt 48 56 (Some (js "Punto")); pt 58 50 None],
      (pt 86 18 (Some (js "Fin"))).
    split; [reflexivity |]. split; [reflexivity |].
    cbn [RouteGeo.sw RouteGeo.ne]. split; vm_compute; reflexivity.
  - eexists. exists (pt 12 86 (Some (js "Inicio"))),
      [pt 26 74 (Some (js "Extra")); pt 36 64 None; pt 48 56 (Some (js "Punto"));
       pt 58 50 None],
      (pt 86 18 (Some (js "Fin"))).
    split; [reflexivity |]. split; [reflexivity |].
    cbn [RouteGeo.sw RouteGeo.ne]. split; vm_compute; reflexivity.
Qed.

End MapAdapter.

(** X12. Every generated shape runs from the point "Inicio" at (12, 86) to
    a point "Fin", to the right and upwards all the way: along the
    waypoints [x] strictly increases and [y] strictly decreases, whatever
    the distance. *)
Theorem generateShape_monotone d :
  (exists rest, generateShape d = pt 12 86 (Some (js "Inicio")) :: rest)
  /\ (exists others last,
        generateShape d = others ++ [last] /\ Point.label last = Some (js "Fin"))
  /\ increasing (map Point.x (generateShape d))
  /\ increasing (rev (map Point.y (generateShape d))).
Proof.
  destruct (generateShape_three d) as [-> | [-> | ->]].
  - split; [eexists; reflexivity |].
    split; [exists [pt 12 86 (Some (js "Inicio")); pt 36 64 None; pt 58 50 None];
            eexists; split; reflexivity |].
    split; vm_compute; repeat split.
  - split; [eexists; reflexivity |].
    split; [exists [pt 12 86 (Some (js "Inicio")); pt 36 64 None;
                    pt 48 56 (Some (js "Punto")); pt 58 50 None];
            eexists; split; reflexivity |].
    split; vm_compute; repeat split.
  - split; [eexists; reflexivity |].
    split; [exists [pt 12 86 (Some (js "Inicio")); pt 26 74 (Some (js "Extra"));
                    pt 36 64 None; pt 48 56 (Some (js "Punto")); pt 58 50 None];
            eexists; split; reflexivity |].
    split; vm_compute; repeat split.
Qed.

(** ** Cleaning of configuration values *)

Lemma trimStart_skip s : trimStart s = skip is_space s.
Proof. induction s as [| c s IH]; [reflexivity |]. cbn. rewrite IH. reflexivity. Qed.

Lemma trimStart_split s : exists ws, s = ws ++ trimStart s /\ all_of is_space ws.
Proof.
  exists (take is_space s). rewrite trimStart_skip.
  split; [apply take_skip | apply take_all].
Qed.

Lemma trimStart_no_head s : no_head is_space (trimStart s).
Proof.
  induction s as [| c s IH]; [exact I |].
  cbn [trimStart]. destruct (is_space c) eqn:E; [exact IH | exact E].
Qed.

Lemma trimStart_fixed s : no_head is_space s -> trimStart s = s.
Proof. destruct s as [| c s]; [reflexivity |]. cbn. intros ->. reflexivity. Qed.

Lemma trim_split s :
  exists l r, s = l ++ trim s ++ r /\ all_of is_space l /\ all_of is_space r.
Proof.
  unfold trim. destruct (trimStart_split s) as (l & Hl & Sl).
  destruct (trimStart_split (rev (trimStart s))) as (r & Hr & Sr).
  exists l, (rev r). split; [| split; [exact Sl |]].
  - rewrite Hl at 1. f_equal.
    rewrite <- (rev_involutive (trimStart s)), Hr at 1.
    rewrite rev_app_distr. reflexivity.
  - apply Forall_rev. exact Sr.
Qed.

Lemma trim_trimmed s :
  no_head is_space (trim s) /\ no_head is_space (rev (trim s)).
Proof.
  unfold trim. rewrite rev_involutive. split; [| apply trimStart_no_head].
  destruct (trimStart_split (rev (trimStart s))) as (r & Hr & Sr).
  pose proof (trimStart_no_head s) as H.
  rewrite <- (rev_involutive (trimStart s)), Hr, rev_app_distr in H.
  destruct (rev (trimStart (rev (trimStart s)))) as [| c t]; [exact I | exact H].
Qed.

Lemma trim_fixed s :
  no_head is_space s -> no_head is_space (rev s) -> trim s = s.
Proof.
  intros H1 H2. unfold trim.
  rewrite (trimStart_fixed s H1), (trimStart_fixed (rev s) H2). apply rev_involutive.
Qed.

Lemma filter_fixed (A : Type) (p : A -> bool) l :
  Forall (fun c => p c = true) l -> filter p l = l.
Proof.
  induction 1 as [| c l Hc _ IH]; [reflexivity |].
  cbn [filter]. rewrite Hc, IH. reflexivity.
Qed.

Lemma cleanEnvValue_fixed s :
  Forall (fun c => is_quote c = false) s ->
  no_head is_space s -> no_head is_space (rev s) ->
  cleanEnvValue (Some s) = s.
Proof.
  intros Hq H1 H2. unfold cleanEnvValue.
  rewrite filter_fixed; [apply trim_fixed; assumption |].
  apply Forall_impl with (2 := Hq). intros c ->. reflexivity.
Qed.

Lemma cleanEnvValue_no_quote value :
  Forall (fun c => is_quote c = false) (cleanEnvValue value).
Proof.
  unfold cleanEnvValue.
  set (v := filter _ _).
  assert (Hv : Forall (fun c => is_quote c = false) v).
  { apply Forall_forall. intros c Hc. apply filter_In in Hc as [_ Hc].
    apply negb_true_iff. exact Hc. }
  destruct (trim_split v) as (l & r & E & _). rewrite E in Hv.
  apply Forall_app in Hv as [_ Hv]. apply Forall_app in Hv as [Hv _]. exact Hv.
Qed.

(** X18. [cleanEnvValue] gives a text without any single or double quote
    and without white space at its ends, whatever it is given; cleaning is
    idempotent; a text that is already free of quotes and of white space at
    its ends is returned as it is; and a missing value gives the empty
    text. *)
Theorem cleanEnvValue_clean :
  (forall value,
      Forall (fun c => is_quote c = false) (cleanEnvValue value)
      /\ no_head is_space (cleanEnvValue value)
      /\ no_head is_space (rev (cleanEnvValue value))
      /\ cleanEnvValue (Some (cleanEnvValue value)) = cleanEnvValue value)
  /\ (forall s,
        Forall (fun c => is_quote c = false) s ->
        no_head is_space s -> no_head is_space (rev s) ->
        cleanEnvValue (Some s) = s)
  /\ cleanEnvValue None = [].
Proof.
  split; [| split; [exact cleanEnvValue_fixed | reflexivity]].
  intros value.
  pose proof (cleanEnvValue_no_quote value) as Q.
  assert (T : no_head is_space (cleanEnvValue value)
              /\ no_head is_space (rev (cleanEnvValue value)))
    by apply trim_trimmed.
  destruct T as [T1 T2].
  split; [exact Q |]. split; [exact T1 |]. split; [exact T2 |].
  apply cleanEnvValue_fixed; assumption.
Qed.

(** ** The panels *)

Lemma panelStep_exclusive p ev :
  ev <> RailRoutes ->
  Panels.showCoachPanel p && Panels.sheetOpen p = false ->
  Panels.showCoachPanel (panelStep p ev) && Panels.sheetOpen (panelStep p ev) = false.
Proof.
  destruct p as [c s i m]. cbn [Panels.showCoachPanel Panels.sheetOpen].
  destruct ev; intros Hev H; try congruence; destruct c, s; try discriminate;
    try reflexivity; destruct m; reflexivity.
Qed.

(** X11. The coach panel and the routes sheet are never open together as
    long as the "Ruta" item of the side rail is not used, at every width of
    the window: every other control closes the other panel when it opens
    its own.  The "Ruta" and "Coach" buttons of the bottom navigation
    always leave their panel open and the other one closed.  The "Ruta"
    item of the side rail toggles the sheet alone, so after "Coach" and
    "Ruta" on the side rail both are open.  On a wide window the toggle
    button of the collapsed sheet does not open it, since its click runs
    [onToggle] a second time on the container, and a click anywhere else in
    the collapsed sheet opens it and closes the coach panel. *)
Theorem panels_exclusive :
  (forall evs,
      ~ In RailRoutes evs ->
      Panels.showCoachPanel (panelsAfter evs) && Panels.sheetOpen (panelsAfter evs) = false)
  /\ (forall p,
        Panels.sheetOpen (panelStep p NavRoutes) = true
        /\ Panels.showCoachPanel (panelStep p NavRoutes) = false
        /\ Panels.showCoachPanel (panelStep p NavCoach) = true
        /\ Panels.sheetOpen (panelStep p NavCoach) = false)
  /\ (Panels.showCoachPanel (panelsAfter [RailCoach; RailRoutes]) = true
      /\ Panels.sheetOpen (panelsAfter [RailCoach; RailRoutes]) = true)
  /\ (forall p,
        Panels.isMobile p = false -> Panels.sheetOpen p = false ->
        panelStep p SheetToggle = closeCoachPanel p
        /\ panelStep p SheetInside = toggleRoutes (closeCoachPanel p))
  /\ (forall p,
        Panels.isMobile p || Panels.sheetOpen p = true ->
        panelStep p SheetToggle = onToggle p p
        /\ panelStep p SheetInside = p).
Proof.
  split; [| split; [| split; [| split]]].
  - unfold panelsAfter.
    assert (G : forall evs p,
               ~ In RailRoutes evs ->
               Panels.showCoachPanel p && Panels.sheetOpen p = false ->
               Panels.showCoachPanel (fold_left panelStep evs p)
               && Panels.sheetOpen (fold_left panelStep evs p) = false).
    { induction evs as [| ev evs IH]; intros p Hno Hp; [exact Hp |].
      cbn [fold_left]. apply IH.
      - intros H. apply Hno. right. exact H.
      - apply panelStep_exclusive; [| exact Hp].
        intros ->. apply Hno. left. reflexivity. }
    intros evs Hno. apply G; [exact Hno | reflexivity].
  - intros [c s i m]. repeat split.
  - split; reflexivity.
  - intros [c s i m]. cbn [Panels.isMobile Panels.sheetOpen]. intros -> ->.
    split; reflexivity.
  - intros [c s i m]. cbn [Panels.isMobile Panels.sheetOpen]. intros H.
    unfold panelStep, sheetContainerClick. cbn [Panels.isMobile Panels.sheetOpen].
    destruct m, s; try discriminate H; split; reflexivity.
Qed.

(** ** Integers as numbers *)

Section Integers.

Local Open Scope Z_scope.

(** The integers below [2^53] are numbers: [of_Z] is exact on them. *)
Lemma of_Z_exact n :
  0 < n < 2 ^ 53 ->
  of_Z n = S754_finite false (Z.to_pos (n * 2 ^ (52 - Z.log2 n))) (Z.log2 n - 52)
  /\ canonical_me (n * 2 ^ (52 - Z.log2 n)) (Z.log2 n - 52).
Proof.
  intros Hn.
  destruct (Z.log2_spec n ltac:(lia)) as [L U].
  assert (HL : 0 <= Z.log2 n < 53).
  { split; [apply Z.log2_nonneg |]. apply Z.log2_lt_pow2; lia. }
  assert (P : 2 ^ Z.log2 n * 2 ^ (52 - Z.log2 n) = 2 ^ 52).
  { rewrite <- Z.pow_add_r by lia. f_equal. lia. }
  assert (Q : 0 < 2 ^ (52 - Z.log2 n)) by (apply Z.pow_pos_nonneg; lia).
  assert (C : canonical_me (n * 2 ^ (52 - Z.log2 n)) (Z.log2 n - 52)).
  { left. unfold emin, emax. split; [| lia].
    rewrite Z.pow_succ_r in U by lia.
    change (2 ^ 53) with (2 * 2 ^ 52). nia. }
  split; [| exact C].
  unfold of_Z. replace (n <? 0) with false by (symmetry; apply Z.ltb_ge; lia).
  rewrite Z.abs_eq by lia.
  apply round_ratio_exact; [lia | exact C |].
  rewrite p2_of_nonneg, p2_of_nonpos by lia.
  replace (- (Z.log2 n - 52)) with (52 - Z.log2 n) by lia. lia.
Qed.

Lemma of_Z_zero : of_Z 0 = S754_zero false.
Proof. reflexivity. Qed.

(** A fraction that is an integer below [2^53] rounds to that integer. *)
Lemma round_ratio_integer t c :
  0 < t < 2 ^ 53 -> 0 < c -> round_ratio false (t * c) c = of_Z t.
Proof.
  intros Ht Hc. destruct (of_Z_exact t Ht) as [-> C].
  assert (HL : 0 <= Z.log2 t < 53).
  { split; [apply Z.log2_nonneg |]. apply Z.log2_lt_pow2; lia. }
  apply round_ratio_exact; [exact Hc | exact C |].
  rewrite p2_of_nonneg, p2_of_nonpos by lia.
  replace (- (Z.log2 t - 52)) with (52 - Z.log2 t) by lia. lia.
Qed.

Lemma cross_le a b n d n' d' :
  0 < d -> 0 < d' -> n * d' = n' * d -> a * n' <= b * d' -> a * n <= b * d.
Proof.
  intros Hd Hd' E H. apply (Z.mul_le_mono_pos_r _ _ d'); [exact Hd' |].
  replace (a * n * d') with (a * n' * d) by (rewrite <- !Z.mul_assoc, E; reflexivity).
  replace (b * d * d') with (b * d' * d) by ring.
  apply Z.mul_le_mono_nonneg_r; lia.
Qed.

Lemma cross_ge a b n d n' d' :
  0 < d -> 0 < d' -> n * d' = n' * d -> a * d' <= b * n' -> a * d <= b * n.
Proof.
  intros Hd Hd' E H. apply (Z.mul_le_mono_pos_r _ _ d'); [exact Hd' |].
  replace (b * n * d') with (b * n' * d) by (rewrite <- !Z.mul_assoc, E; reflexivity).
  replace (a * d * d') with (a * d' * d) by ring.
  apply Z.mul_le_mono_nonneg_r; lia.
Qed.

(** Being within half a unit in the last place of a fraction depends on
    the value of the fraction only. *)
Lemma within_half_ulp_ratio x s n d n' d' :
  0 < d -> 0 < d' -> n * d' = n' * d ->
  within_half_ulp x s n' d' -> within_half_ulp x s n d.
Proof.
  intros Hd Hd' E. destruct x as [s0 | s0 | | s0 m e]; cbn [within_half_ulp].
  - intros [-> H]. split; [reflexivity |].
    replace (2 * n * 2 ^ 1074) with (2 * 2 ^ 1074 * n) by ring.
    replace d with (1 * d) at 1 by ring.
    apply (cross_le _ _ n d n' d'); auto. lia.
  - intros [-> H]. split; [reflexivity |].
    replace n with (1 * n) by ring.
    apply (cross_ge _ _ n d n' d'); auto. lia.
  - exact (fun H => H).
  - intros [-> H]. split; [reflexivity |].
    pose proof (p2_pos e) as P1. pose proof (p2_pos (- e)) as P2.
    apply (Z.mul_le_mono_pos_r _ _ d'); [lia |].
    replace (2 * Z.abs (Z.pos m * (d * p2 e) - n * p2 (- e)) * d')
      with (2 * Z.abs (Z.pos m * (d' * p2 e) - n' * p2 (- e)) * d).
    + replace (d * p2 e * d') with (d' * p2 e * d) by ring.
      apply Z.mul_le_mono_nonneg_r; lia.
    + rewrite <- !Z.mul_assoc. f_equal.
      rewrite <- (Z.abs_eq d) at 1 by lia. rewrite <- (Z.abs_eq d') at 2 by lia.
      rewrite <- !Z.abs_mul. f_equal.
      rewrite !Z.mul_sub_distr_r.
      replace (n * p2 (- e) * d') with (n' * p2 (- e) * d)
        by (rewrite (Z.mul_comm n), (Z.mul_comm n'), <- !Z.mul_assoc, E; reflexivity).
      ring.
Qed.

(** The quotient of two integers below [2^53], computed on numbers, is
    within half a unit in the last place of their fraction. *)
Lemma div_of_Z n d :
  0 < n < 2 ^ 53 -> 0 < d < 2 ^ 53 ->
  canonical (div (of_Z n) (of_Z d))
  /\ within_half_ulp (div (of_Z n) (of_Z d)) false n d.
Proof.
  intros Hn Hd.
  destruct (of_Z_exact n Hn) as [-> Cn]. destruct (of_Z_exact d Hd) as [-> Cd].
  assert (Ln : 0 <= Z.log2 n < 53).
  { split; [apply Z.log2_nonneg |]. apply Z.log2_lt_pow2; lia. }
  assert (Ld : 0 <= Z.log2 d < 53).
  { split; [apply Z.log2_nonneg |]. apply Z.log2_lt_pow2; lia. }
  set (mn := n * 2 ^ (52 - Z.log2 n)) in *. set (md := d * 2 ^ (52 - Z.log2 d)) in *.
  assert (Pn : 0 < mn) by (destruct Cn as [[? _] | [? _]]; lia).
  assert (Pd : 0 < md) by (destruct Cd as [[? _] | [? _]]; lia).
  unfold div, shift_ratio. cbn [xorb]. rewrite !Z2Pos.id by lia.
  set (k := Z.log2 d - 52 - (Z.log2 n - 52)).
  pose proof (p2_pos k) as K1. pose proof (p2_pos (- k)) as K2.
  split; [apply round_ratio_canonical; nia |].
  apply (within_half_ulp_ratio _ _ _ _ (mn * p2 (- k)) (md * p2 k)); [lia | nia | |].
  - pose proof (pow_p2 (52 - Z.log2 d) (52 - Z.log2 n) ltac:(lia) ltac:(lia)) as E.
    replace (52 - Z.log2 n - (52 - Z.log2 d)) with k in E by (unfold k; lia).
    replace (52 - Z.log2 d - (52 - Z.log2 n)) with (- k) in E by (unfold k; lia).
    unfold mn, md. nia.
  - apply round_ratio_half_ulp; nia.
Qed.

(** [Math.floor(n / 60)] is the integer quotient. *)
Lemma floor_div_60 n :
  0 < n < 2 ^ 53 ->
  Math_floor (div (of_Z n) (of_Z 60))
  = if n / 60 =? 0 then S754_zero false else of_Z (n / 60).
Proof.
  intros Hn.
  destruct (div_of_Z n 60 Hn ltac:(split; [lia | reflexivity])) as [C W].
  change (2 ^ 53) with 9007199254740992 in Hn.
  destruct (div (of_Z n) (of_Z 60)) as [s | s | | s M E];
    cbn [within_half_ulp canonical] in C, W.
  - destruct W as [_ W]. exfalso.
    assert (1 <= 2 ^ 1074) by (apply Z.leb_le; vm_compute; reflexivity). nia.
  - destruct W as [_ W]. exfalso.
    assert (9007199254740992 <= (2 ^ 54 - 1) * 2 ^ 970)
      by (apply Z.leb_le; vm_compute; reflexivity).
    lia.
  - contradiction.
  - destruct W as [-> W].
    assert (HE : E <= -5).
    { destruct C as [[[A B] C] | [_ ->]]; [| unfold emin; lia].
      change (2 ^ 52) with 4503599627370496 in A.
      destruct (Z.le_gt_cases E (-5)) as [? | G]; [assumption | exfalso].
      destruct (Z.le_gt_cases 0 E) as [G0 | G0].
      - rewrite p2_of_nonneg, p2_of_nonpos in W by lia.
        assert (1 <= 2 ^ E) by (apply (Z.pow_le_mono_r 2 0 E); lia). nia.
      - rewrite p2_of_nonpos, p2_of_nonneg in W by lia.
        assert (2 ^ (- E) <= 2 ^ 4) by (apply Z.pow_le_mono_r; lia).
        change (2 ^ 4) with 16 in *.
        assert (0 < 2 ^ (- E)) by (apply Z.pow_pos_nonneg; lia). nia. }
    rewrite p2_of_nonpos, p2_of_nonneg in W by lia.
    assert (T : 2 ^ 5 <= 2 ^ (- E)) by (apply Z.pow_le_mono_r; lia).
    change (2 ^ 5) with 32 in T.
    cbn [Math_floor]. destruct (Z.leb_spec 0 E); [lia |].
    pose proof (Z.div_mod n 60 ltac:(lia)) as D.
    pose proof (Z.mod_pos_bound n 60 ltac:(lia)) as R.
    assert (Q : Z.pos M / 2 ^ (- E) = n / 60).
    { symmetry. apply (Z.div_unique _ _ _ (Z.pos M - n / 60 * 2 ^ (- E))); [left | ring].
      assert (n mod 60 * 2 ^ (- E) <= 59 * 2 ^ (- E)) by nia.
      assert (0 <= n mod 60 * 2 ^ (- E)) by nia.
      lia. }
    rewrite Q. reflexivity.
Qed.

(** [n % 60] is the integer remainder. *)
Lemma rem_60 n :
  0 <= n < 2 ^ 53 -> rem (of_Z n) (of_Z 60) = of_Z (n mod 60).
Proof.
  intros Hn. destruct (Z.eq_dec n 0) as [-> | N0]; [reflexivity |].
  destruct (of_Z_exact n ltac:(lia)) as [-> Cn].
  destruct (of_Z_exact 60 ltac:(split; [lia | reflexivity])) as [-> _].
  change (Z.log2 60) with 5. change (52 - 5) with 47. change (5 - 52) with (-47).
  assert (Ln : 0 <= Z.log2 n < 53).
  { split; [apply Z.log2_nonneg |]. apply Z.log2_lt_pow2; lia. }
  assert (Pn : 0 < n * 2 ^ (52 - Z.log2 n)) by (destruct Cn as [[? _] | [? _]]; lia).
  cbn [rem]. rewrite !Z2Pos.id by (try exact Pn; reflexivity).
  set (e := Z.min (Z.log2 n - 52) (-47)).
  assert (He : e <= Z.log2 n - 52 /\ e <= -47) by (unfold e; lia).
  assert (Hc : 0 < 2 ^ (- e)) by (apply Z.pow_pos_nonneg; lia).
  replace (n * 2 ^ (52 - Z.log2 n) * 2 ^ (Z.log2 n - 52 - e)) with (n * 2 ^ (- e)).
  2:{ rewrite <- Z.mul_assoc, <- Z.pow_add_r by lia. do 2 f_equal. lia. }
  replace (60 * 2 ^ 47 * 2 ^ (-47 - e)) with (60 * 2 ^ (- e)).
  2:{ rewrite <- Z.mul_assoc, <- Z.pow_add_r by lia. do 2 f_equal. lia. }
  rewrite Z.mul_mod_distr_r by lia.
  pose proof (Z.mod_pos_bound n 60 ltac:(lia)) as R.
  destruct (Z.eqb_spec (n mod 60 * 2 ^ (- e)) 0) as [Z0 | Z0].
  - assert (n mod 60 = 0) as -> by nia. reflexivity.
  - assert (n mod 60 <> 0) by (intros E0; rewrite E0 in Z0; lia).
    unfold exact. rewrite p2_of_nonpos, p2_of_nonneg, Z.mul_1_r by lia.
    apply round_ratio_integer; [| exact Hc].
    change (2 ^ 53) with 9007199254740992. lia.
Qed.

End Integers.

Section Eta.

Context {RT : Runtime}.

(** The text for [60 * q + r] minutes. *)
Lemma formatEta_parts q r :
  (0 <= q)%Z -> (0 <= r < 60)%Z -> (60 * q + r < 2 ^ 53)%Z ->
  formatEta (of_Z (60 * q + r))
  = if (q =? 0)%Z then Number_toString (of_Z r) ++ js " min"
    else Number_toString (of_Z q) ++ js "h "
           ++ padStart (Number_toString (of_Z r)) 2 48%N ++ js "m".
Proof.
  intros Hq Hr Hn. unfold formatEta.
  assert (Q : ((60 * q + r) / 60 = q)%Z).
  { symmetry. apply (Z.div_unique _ _ _ r); [left; exact Hr | reflexivity]. }
  assert (R : ((60 * q + r) mod 60 = r)%Z).
  { symmetry. apply (Z.mod_unique _ _ q); [left; exact Hr | reflexivity]. }
  rewrite rem_60, R by lia.
  destruct (Z.eq_dec (60 * q + r) 0) as [E | N0].
  - assert (q = 0 /\ r = 0)%Z as [-> ->] by lia. reflexivity.
  - rewrite floor_div_60, Q by lia.
    destruct (Z.eqb_spec q 0) as [-> | Nq]; [reflexivity |].
    assert (B : (0 < q < 2 ^ 53)%Z)
      by (change (2 ^ 53)%Z with 9007199254740992%Z in *; lia).
    destruct (of_Z_exact q B) as [-> _]. reflexivity.
Qed.

(** X16. For a whole number of minutes [n] below [2^53], [formatEta] shows
    the minutes alone when [n < 60], and otherwise the integer quotient
    [n / 60] as hours and the remainder [n mod 60] as minutes, padded to two
    places: the quotient and the remainder computed on binary64 numbers are
    the exact ones. *)
Theorem formatEta_hours_minutes n :
  (0 <= n < 2 ^ 53)%Z ->
  formatEta (of_Z n)
  = if (n <? 60)%Z then Number_toString (of_Z n) ++ js " min"
    else Number_toString (of_Z (n / 60)) ++ js "h "
           ++ padStart (Number_toString (of_Z (n mod 60))) 2 48%N ++ js "m".
Proof.
  intros Hn.
  pose proof (Z.div_mod n 60 ltac:(lia)) as D.
  pose proof (Z.mod_pos_bound n 60 ltac:(lia)) as R.
  assert (Q : (0 <= n / 60)%Z) by (apply Z.div_pos; lia).
  rewrite D at 1. rewrite formatEta_parts by (auto; lia).
  destruct (Z.ltb_spec n 60) as [L | L].
  - rewrite Z.div_small, Z.mod_small by lia. reflexivity.
  - destruct (Z.eqb_spec (n / 60) 0) as [E | _]; [| reflexivity].
    rewrite E in D. lia.
Qed.

End Eta.

(** ** Decimal digits and [toFixed] *)

Section Digits.

Local Open Scope Z_scope.

Lemma log2_div_10 n : 10 <= n -> Z.log2 (n / 10) < Z.log2 n.
Proof.
  intros H. destruct (Z.log2_spec n ltac:(lia)) as [L U].
  pose proof (Z.log2_nonneg n) as P.
  rewrite Z.pow_succ_r in U by exact P.
  assert (0 < n / 10) by (apply Z.div_str_pos; lia).
  apply Z.log2_lt_pow2; [assumption |].
  apply Z.div_lt_upper_bound; lia.
Qed.

Lemma digits_of_more fuel :
  forall n, 0 <= n -> Z.log2 n < Z.of_nat fuel ->
            digits_of (S fuel) n = digits_of fuel n.
Proof.
  induction fuel as [| fuel IH]; intros n H0 H.
  - pose proof (Z.log2_nonneg n). lia.
  - change (digits_of (S (S fuel)) n)
      with ((if n <? 10 then [] else digits_of (S fuel) (n / 10))
              ++ [Z.to_N (48 + n mod 10)]).
    change (digits_of (S fuel) n)
      with ((if n <? 10 then [] else digits_of fuel (n / 10))
              ++ [Z.to_N (48 + n mod 10)]).
    destruct (Z.ltb_spec n 10); [reflexivity |].
    rewrite IH; [reflexivity | apply Z.div_pos; lia |].
    pose proof (log2_div_10 n ltac:(lia)). lia.
Qed.

Lemma digits_of_any a b n :
  0 <= n -> Z.log2 n < Z.of_nat a -> (a <= b)%nat -> digits_of b n = digits_of a n.
Proof.
  intros H0 H. induction 1 as [| b Hb IH]; [reflexivity |].
  rewrite digits_of_more; [exact IH | exact H0 | lia].
Qed.

Lemma decimal_small n : 0 <= n < 10 -> decimal n = [Z.to_N (48 + n)].
Proof.
  intros H. unfold decimal. cbn [digits_of].
  destruct (Z.ltb_spec n 10); [| lia]. rewrite Z.mod_small by lia. reflexivity.
Qed.

Lemma decimal_step n :
  10 <= n -> decimal n = decimal (n / 10) ++ [Z.to_N (48 + n mod 10)].
Proof.
  intros H. unfold decimal at 1. cbn [digits_of].
  destruct (Z.ltb_spec n 10); [lia |]. f_equal.
  unfold decimal. apply digits_of_any.
  - apply Z.div_pos; lia.
  - pose proof (Z.log2_nonneg (n / 10)). lia.
  - pose proof (log2_div_10 n H). pose proof (Z.log2_nonneg (n / 10)). lia.
Qed.

Lemma decimal_length n : (1 <= List.length (decimal n))%nat.
Proof.
  unfold decimal. cbn [digits_of]. rewrite length_app. cbn [List.length]. lia.
Qed.

Lemma split_last (A : Type) (q : list A) x :
  firstn (List.length q) (q ++ [x]) = q /\ skipn (List.length q) (q ++ [x]) = [x].
Proof.
  induction q as [| a q [IH1 IH2]]; [split; reflexivity |].
  cbn [List.length app firstn skipn]. rewrite IH1, IH2. split; reflexivity.
Qed.

(** One digit after the point: the tenths are split off. *)
Lemma fixed_text_tenths n :
  0 <= n -> fixed_text n 1 = decimal (n / 10) ++ js "." ++ decimal (n mod 10).
Proof.
  intros H. unfold fixed_text.
  pose proof (Z.mod_pos_bound n 10 ltac:(lia)) as R.
  rewrite (decimal_small (n mod 10)) by lia.
  destruct (Z.lt_ge_cases n 10) as [L | L].
  - rewrite Z.div_small, Z.mod_small by lia.
    rewrite (decimal_small n), (decimal_small 0) by lia. reflexivity.
  - rewrite (decimal_step n L).
    pose proof (decimal_length (n / 10)) as P.
    set (q := decimal (n / 10)) in *.
    set (d := Z.to_N (48 + n mod 10)).
    assert (E : (1 + 1 - List.length (q ++ [d]) = 0)%nat)
      by (rewrite length_app; cbn [List.length]; lia).
    cbv zeta. rewrite E. cbn [repeat app].
    assert (E' : (List.length (q ++ [d]) - 1 = List.length q)%nat)
      by (rewrite length_app; cbn [List.length]; lia).
    rewrite E'.
    destruct (split_last _ q d) as [-> ->]. reflexivity.
Qed.

(** The value of [n / 10]: a mantissa and an exponent of at most [-4],
    within five tenths of a unit of [n * 2^k]. *)
Lemma dec_tenths n :
  0 < n < 10 ^ 15 ->
  exists M E,
    dec n 1 = S754_finite false M E /\ canonical_me (Z.pos M) E /\ E <= -4
    /\ Z.abs (Z.pos M * 10 - n * 2 ^ (- E)) <= 5.
Proof.
  intros Hn. unfold dec. replace (n <? 0) with false by (symmetry; apply Z.ltb_ge; lia).
  rewrite Z.abs_eq by lia. change (10 ^ 1) with 10.
  change (10 ^ 15) with 1000000000000000 in Hn.
  pose proof (round_ratio_canonical false n 10 ltac:(lia)) as C.
  pose proof (round_ratio_half_ulp false n 10 ltac:(lia) ltac:(lia)) as W.
  destruct (round_ratio false n 10) as [s | s | | s M E];
    cbn [within_half_ulp canonical] in C, W.
  - destruct W as [_ W]. exfalso.
    assert (1 <= 2 ^ 1074) by (apply Z.leb_le; vm_compute; reflexivity). nia.
  - destruct W as [_ W]. exfalso.
    assert (1000000000000000 <= (2 ^ 54 - 1) * 2 ^ 970)
      by (apply Z.leb_le; vm_compute; reflexivity).
    lia.
  - contradiction.
  - destruct W as [-> W]. exists M, E. split; [reflexivity |]. split; [exact C |].
    assert (HE : E <= -4).
    { destruct C as [[[A B] C] | [_ ->]]; [| unfold emin; lia].
      change (2 ^ 52) with 4503599627370496 in A.
      destruct (Z.le_gt_cases E (-4)) as [? | G]; [assumption | exfalso].
      destruct (Z.le_gt_cases 0 E) as [G0 | G0].
      - rewrite p2_of_nonneg, p2_of_nonpos in W by lia.
        assert (1 <= 2 ^ E) by (apply (Z.pow_le_mono_r 2 0 E); lia). nia.
      - rewrite p2_of_nonpos, p2_of_nonneg in W by lia.
        assert (2 ^ (- E) <= 2 ^ 3) by (apply Z.pow_le_mono_r; lia).
        change (2 ^ 3) with 8 in *.
        assert (0 < 2 ^ (- E)) by (apply Z.pow_pos_nonneg; lia). nia. }
    split; [exact HE |].
    rewrite p2_of_nonpos, p2_of_nonneg in W by lia. lia.
Qed.

End Digits.

Section Distance.

Context {RT : Runtime}.

Local Open Scope Z_scope.

(** The nearest tenth of the number written [n / 10] is [n]. *)
Lemma toFixed_tenths n :
  0 <= n < 10 ^ 15 -> toFixed (dec n 1) 1 = fixed_text n 1.
Proof.
  intros Hn. destruct (Z.eq_dec n 0) as [-> | N0]; [reflexivity |].
  destruct (dec_tenths n ltac:(lia)) as (M & E & -> & C & HE & W).
  assert (HM : 0 < Z.pos M < 2 ^ 53) by (destruct C as [[? _] | [? _]]; lia).
  change (2 ^ 53) with 9007199254740992 in HM.
  assert (T : 2 ^ 4 <= 2 ^ (- E)) by (apply Z.pow_le_mono_r; lia).
  change (2 ^ 4) with 16 in T.
  unfold toFixed, exact.
  rewrite (p2_of_nonpos E), (p2_of_nonneg (- E)), Z.mul_1_r by lia.
  cbn [app]. change (Z.of_nat 1) with 1. change (10 ^ 1) with 10.
  destruct (Z.leb_spec (10 ^ 21 * 2 ^ (- E)) (Z.pos M)) as [B | _].
  - exfalso. change (10 ^ 21) with 1000000000000000000000 in B. lia.
  - f_equal. symmetry.
    apply (Z.div_unique _ _ _ (2 * Z.pos M * 10 + 2 ^ (- E) - 2 * 2 ^ (- E) * n));
      [left | ring].
    lia.
Qed.

(** X17. A distance written with one decimal is displayed as written: for
    every number of tenths [n] below [10^15], [formatDistance] of the
    binary64 value of [n / 10] is the digits of [n / 10], a point, the digit
    [n mod 10] and " km". *)
Theorem formatDistance_one_decimal n :
  0 <= n < 10 ^ 15 ->
  formatDistance (dec n 1) = decimal (n / 10) ++ js "." ++ decimal (n mod 10) ++ js " km".
Proof.
  intros Hn. unfold formatDistance.
  rewrite (toFixed_tenths n Hn), (fixed_text_tenths n) by lia.
  rewrite <- !app_assoc. reflexivity.
Qed.

End Distance.

(** ** The tenths in the id of a coach route *)

Section Tenths.

Local Open Scope Z_scope.

Lemma tenths_no_large M M2 T S n :
  16 <= T -> 1 <= S -> 0 <= n -> n < M2 ->
  Z.abs (M * 10 - n * T) <= 5 ->
  2 * Z.abs (M2 * (T * S) - M * 10 * 1) <= T * S -> False.
Proof.
  intros HT HS Hn HM W W2.
  assert (A : (2 * M2 - 1) * T <= (2 * M2 - 1) * (T * S)).
  { apply Z.mul_le_mono_nonneg_l; [lia |]. nia. }
  assert (B : (2 * n + 1) * T <= (2 * M2 - 1) * T).
  { apply Z.mul_le_mono_nonneg_r; lia. }
  lia.
Qed.

Lemma tenths_no_half M M2 T n :
  16 <= T -> 0 <= n -> 2 * n + 2 <= M2 ->
  Z.abs (M * 10 - n * T) <= 5 ->
  2 * Z.abs (M2 * (T * 1) - M * 10 * 2) <= T * 1 -> False.
Proof.
  intros HT Hn HM W W2.
  assert (B : (2 * n + 2) * T <= M2 * T).
  { apply Z.mul_le_mono_nonneg_r; lia. }
  lia.
Qed.

Lemma tenths_close M M2 T T2 n :
  16 <= T -> 4 <= T2 ->
  Z.abs (M * 10 - n * T) <= 5 ->
  2 * Z.abs (M2 * (T * 1) - M * 10 * T2) <= T * 1 ->
  2 * Z.abs (M2 - n * T2) < T2.
Proof.
  intros HT HT2 W W2.
  assert (A : Z.abs (M * 10 * T2 - n * T * T2) <= 5 * T2).
  { replace (M * 10 * T2 - n * T * T2) with ((M * 10 - n * T) * T2) by ring.
    rewrite Z.abs_mul, (Z.abs_eq T2) by lia.
    apply Z.mul_le_mono_nonneg_r; lia. }
  assert (P : T + 10 * T2 < T * T2).
  { assert (0 <= (T - 10) * (T2 - 1) - 11) by nia. lia. }
  assert (S1 : 2 * (Z.abs (M2 - n * T2) * T) < T2 * T).
  { rewrite <- (Z.abs_eq T) at 1 by lia. rewrite <- Z.abs_mul.
    replace ((M2 - n * T2) * T) with (M2 * T - n * T * T2) by ring. lia. }
  apply (Z.mul_lt_mono_pos_r T); lia.
Qed.

(** Ten times the value of [n / 10] rounds to [n]. *)
Lemma round_tenths n :
  0 <= n < 10 ^ 15 -> Math_round (mul (dec n 1) (of_Z 10)) = of_Z n.
Proof.
  intros Hn. destruct (Z.eq_dec n 0) as [-> | N0]; [reflexivity |].
  destruct (dec_tenths n ltac:(lia)) as (M & E & -> & C & HE & W).
  change (10 ^ 15) with 1000000000000000 in Hn.
  destruct (of_Z_exact 10 ltac:(split; [lia | reflexivity])) as [-> _].
  change (Z.log2 10) with 3. change (52 - 3) with 49. change (3 - 52) with (-49).
  assert (HM : 0 < Z.pos M < 2 ^ 53 /\ emin <= E)
    by (destruct C as [[? ?] | [? ?]]; unfold emin in *; lia).
  change (2 ^ 53) with 9007199254740992 in HM. destruct HM as [HM Hmin].
  clear C.
  set (T := 2 ^ (- E)) in *.
  assert (HT : 16 <= T) by (apply (Z.pow_le_mono_r 2 4 (- E)); lia).
  unfold mul, exact. cbn [xorb].
  rewrite Z2Pos.id by reflexivity.
  rewrite (p2_of_nonpos (E + -49)), (p2_of_nonneg (- (E + -49))), Z.mul_1_r by lia.
  assert (D2 : 0 < 2 ^ (- (E + -49))) by (apply Z.pow_pos_nonneg; lia).
  assert (R : Z.pos M * (10 * 2 ^ 49) * T = Z.pos M * 10 * 2 ^ (- (E + -49))).
  { unfold T. replace (- (E + -49)) with (49 + - E) by lia.
    rewrite Z.pow_add_r by lia. ring. }
  pose proof (round_ratio_canonical false (Z.pos M * (10 * 2 ^ 49)) (2 ^ (- (E + -49))) D2)
    as C2.
  assert (W2 : within_half_ulp
                 (round_ratio false (Z.pos M * (10 * 2 ^ 49)) (2 ^ (- (E + -49))))
                 false (Z.pos M * 10) T).
  { apply (within_half_ulp_ratio _ _ _ _ (Z.pos M * (10 * 2 ^ 49)) (2 ^ (- (E + -49))));
      [lia | exact D2 | symmetry; exact R |].
    apply round_ratio_half_ulp; [lia | exact D2]. }
  clear R D2.
  destruct (round_ratio false _ _) as [s | s | | s M2 E2];
    cbn [within_half_ulp canonical] in C2, W2.
  - destruct W2 as [_ W2]. exfalso.
    assert (T <= 2 ^ 1074) by (apply Z.pow_le_mono_r; unfold emin in Hmin; lia).
    assert (0 < 2 ^ 1074) by lia.
    assert (1 * 2 ^ 1074 <= Z.pos M * 2 ^ 1074)
      by (apply Z.mul_le_mono_nonneg_r; lia).
    lia.
  - destruct W2 as [_ W2]. exfalso.
    assert (B : 10 * 9007199254740992 <= (2 ^ 54 - 1) * 2 ^ 970)
      by (apply Z.leb_le; vm_compute; reflexivity).
    assert ((2 ^ 54 - 1) * 2 ^ 970 * 1 <= (2 ^ 54 - 1) * 2 ^ 970 * T)
      by (apply Z.mul_le_mono_nonneg_l; lia).
    lia.
  - contradiction.
  - destruct W2 as [-> W2].
    assert (HE2 : E2 <= -2).
    { destruct C2 as [[[A B] C2] | [_ ->]]; [| unfold emin; lia].
      change (2 ^ 52) with 4503599627370496 in A.
      destruct (Z.le_gt_cases E2 (-2)) as [? | G]; [assumption | exfalso].
      destruct (Z.le_gt_cases 0 E2) as [G0 | G0].
      - rewrite p2_of_nonneg, p2_of_nonpos in W2 by lia.
        assert (1 <= 2 ^ E2) by (apply (Z.pow_le_mono_r 2 0 E2); lia).
        apply (tenths_no_large (Z.pos M) (Z.pos M2) T (2 ^ E2) n); auto; lia.
      - assert (E2 = -1) as -> by lia.
        change (p2 (-1)) with 1 in W2. change (p2 (- -1)) with 2 in W2.
        apply (tenths_no_half (Z.pos M) (Z.pos M2) T n); auto; lia. }
    clear C2.
    rewrite p2_of_nonpos, p2_of_nonneg in W2 by lia.
    set (T2 := 2 ^ (- E2)) in *.
    assert (HT2 : 4 <= T2) by (apply (Z.pow_le_mono_r 2 2 (- E2)); lia).
    pose proof (tenths_close (Z.pos M) (Z.pos M2) T T2 n HT HT2 W W2) as K.
    cbn [Math_round]. destruct (Z.leb_spec 0 E2); [lia |].
    replace (- E2 + 1) with (Z.succ (- E2)) by lia.
    rewrite Z.pow_succ_r by lia. fold T2.
    assert (Q : (2 * Z.pos M2 + T2) / (2 * T2) = n).
    { symmetry.
      apply (Z.div_unique _ _ _ (2 * Z.pos M2 + T2 - 2 * T2 * n)); [left | ring].
      lia. }
    rewrite Q. destruct (Z.eqb_spec n 0); [lia | reflexivity].
Qed.

End Tenths.

Section CoachId.

Context {RT : Runtime}.

(** X22. The id of a coach route spells the tenths of its distance: for a
    distance written with one decimal, [n / 10] with [n] below [10^15], the
    id is "coach-", the mode, "-" and the integer [n] as text, since ten
    times the binary64 value of [n / 10] rounds to [n] exactly. *)
Theorem coach_id_tenths n m focus :
  (0 <= n < 10 ^ 15)%Z ->
  RouteOption.id (buildRouteFromPrompt (dec n 1) m focus)
  = js "coach-" ++ Mode_text m ++ js "-" ++ Number_toString (of_Z n).
Proof.
  intros Hn. unfold buildRouteFromPrompt. cbn [RouteOption.id].
  rewrite (round_tenths n Hn). reflexivity.
Qed.

End CoachId.

(** ** Rounding is monotone *)

Section Monotone.

Local Open Scope Z_scope.

Lemma div_le_cross n1 d1 n2 d2 :
  0 < d1 -> 0 < d2 -> n1 * d2 <= n2 * d1 -> n1 / d1 <= n2 / d2.
Proof.
  intros H1 H2 H.
  pose proof (Z.div_mod n1 d1 ltac:(lia)) as E1.
  pose proof (Z.mod_pos_bound n1 d1 H1) as B1.
  pose proof (Z.div_mod n2 d2 ltac:(lia)) as E2.
  pose proof (Z.mod_pos_bound n2 d2 H2) as B2.
  set (q1 := n1 / d1) in *. set (r1 := n1 mod d1) in *.
  set (q2 := n2 / d2) in *. set (r2 := n2 mod d2) in *.
  destruct (Z.le_gt_cases q1 q2) as [? | G]; [assumption | exfalso].
  assert (A : (q2 + 1) * (d1 * d2) <= q1 * (d1 * d2))
    by (apply Z.mul_le_mono_nonneg_r; nia).
  assert (B : n2 * d1 < (q2 + 1) * (d1 * d2)).
  { replace ((q2 + 1) * (d1 * d2)) with ((d2 * q2 + d2) * d1) by ring.
    apply Z.mul_lt_mono_pos_r; lia. }
  assert (C : q1 * (d1 * d2) <= n1 * d2).
  { replace (q1 * (d1 * d2)) with ((d1 * q1) * d2) by ring.
    apply Z.mul_le_mono_nonneg_r; lia. }
  lia.
Qed.

Lemma rne_mono n1 d1 n2 d2 :
  0 < d1 -> 0 < d2 -> n1 * d2 <= n2 * d1 -> rne n1 d1 <= rne n2 d2.
Proof.
  intros H1 H2 H. pose proof (div_le_cross n1 d1 n2 d2 H1 H2 H) as Q.
  unfold rne.
  pose proof (Z.div_mod n1 d1 ltac:(lia)) as E1.
  pose proof (Z.mod_pos_bound n1 d1 H1) as B1.
  pose proof (Z.div_mod n2 d2 ltac:(lia)) as E2.
  pose proof (Z.mod_pos_bound n2 d2 H2) as B2.
  set (q1 := n1 / d1) in *. set (r1 := n1 mod d1) in *.
  set (q2 := n2 / d2) in *. set (r2 := n2 mod d2) in *.
  destruct (Z.eq_dec q1 q2) as [E | N].
  - assert (R : r1 * d2 <= r2 * d1).
    { rewrite E1, E2, E in H.
      replace ((d1 * q2 + r1) * d2) with (q2 * (d1 * d2) + r1 * d2) in H by ring.
      replace ((d2 * q2 + r2) * d1) with (q2 * (d1 * d2) + r2 * d1) in H by ring.
      lia. }
    rewrite E. clear E1 E2 H Q.
    destruct (Z.compare_spec (2 * r1) d1) as [C1 | C1 | C1],
             (Z.compare_spec (2 * r2) d2) as [C2 | C2 | C2];
      try (destruct (Z.even q2)); try lia; exfalso;
      clear B1 B2; nia.
  - destruct (Z.compare_spec (2 * r1) d1), (Z.compare_spec (2 * r2) d2);
      try (destruct (Z.even q1)); try (destruct (Z.even q2)); lia.
Qed.

Lemma ge_pow2_mono n1 d1 n2 d2 k :
  0 < d1 -> 0 < d2 -> n1 * d2 <= n2 * d1 -> ge_pow2 n1 d1 k -> ge_pow2 n2 d2 k.
Proof.
  unfold ge_pow2. intros H1 H2 H G.
  pose proof (p2_pos k) as P. pose proof (p2_pos (- k)) as P'.
  apply (Z.mul_le_mono_pos_r _ _ d1); [exact H1 |].
  assert (A : d1 * p2 k * d2 <= n1 * p2 (- k) * d2)
    by (apply Z.mul_le_mono_nonneg_r; lia).
  assert (B : n1 * d2 * p2 (- k) <= n2 * d1 * p2 (- k))
    by (apply Z.mul_le_mono_nonneg_r; lia).
  replace (d2 * p2 k * d1) with (d1 * p2 k * d2) by ring.
  replace (n2 * p2 (- k) * d1) with (n2 * d1 * p2 (- k)) by ring.
  replace (n1 * p2 (- k) * d2) with (n1 * d2 * p2 (- k)) in A by ring.
  lia.
Qed.

Lemma ilog2_mono n1 d1 n2 d2 :
  0 < n1 -> 0 < d1 -> 0 < n2 -> 0 < d2 -> n1 * d2 <= n2 * d1 ->
  ilog2 n1 d1 <= ilog2 n2 d2.
Proof.
  intros Hn1 Hd1 Hn2 Hd2 H.
  destruct (ilog2_spec n1 d1 Hn1 Hd1) as [L1 _].
  destruct (ilog2_spec n2 d2 Hn2 Hd2) as [_ U2].
  destruct (Z.le_gt_cases (ilog2 n1 d1) (ilog2 n2 d2)) as [? | G]; [assumption |].
  exfalso. apply U2. apply (ge_pow2_mono n1 d1); auto.
  apply (ge_pow2_le n1 d1 _ (ilog2 n1 d1)); auto. lia.
Qed.

(** The result of rounding a positive fraction, in units of [2^emin]. *)
Lemma round_ratio_units n d :
  0 < n -> 0 < d ->
  (round_ratio false n d = S754_infinity false
   /\ overflow_units <= rounded_units n d)
  \/ (rank (round_ratio false n d) = 0
      /\ is_nan (round_ratio false n d) = false
      /\ emin <= exponent (round_ratio false n d)
      /\ units emin (round_ratio false n d) = rounded_units n d
      /\ rounded_units n d < overflow_units).
Proof.
  intros Hn Hd. unfold rounded_units, rounding_exponent, round_ratio, overflow_units.
  destruct (Z.leb_spec n 0) as [? | _]; [lia |].
  destruct (rounding_facts n d Hn Hd) as (Hd' & Hn' & Hub & Hlb & Hsub).
  set (k := ilog2 n d) in *.
  set (e := Z.max (k - (prec - 1)) emin) in *.
  unfold shift_ratio.
  set (n' := n * p2 (- e)) in *. set (d' := d * p2 e) in *.
  assert (He : emin <= e) by (unfold e; lia).
  assert (Hm0 : 0 <= rne n' d' <= 2 ^ 53) by (apply rne_bounds; auto; lia).
  assert (Hnorm : emin < e -> 2 ^ 52 <= rne n' d').
  { intros G. apply (rne_bounds n' d' (2 ^ 52) (2 ^ 53)); auto.
    apply Hlb. unfold e, prec in *. lia. }
  set (m := rne n' d') in *. clearbody m. clear Hub Hlb Hsub.
  set (A := 2 ^ (e - emin)). set (B := 2 ^ (emax - emin)).
  assert (HA : 0 < A) by (apply Z.pow_pos_nonneg; lia).
  assert (HB : 0 < B) by (apply Z.pow_pos_nonneg; unfold emax, emin; lia).
  assert (Hle : e <= emax -> A <= B) by (intros; apply Z.pow_le_mono_r; lia).
  assert (Hlt : e < emax -> 2 * A <= B).
  { intros G. unfold A, B. rewrite <- Z.pow_succ_r by lia.
    apply Z.pow_le_mono_r; lia. }
  assert (Hgt : emax < e -> 2 * B <= A).
  { intros G. unfold A, B. rewrite <- Z.pow_succ_r by (unfold emax, emin; lia).
    apply Z.pow_le_mono_r; lia. }
  assert (Hge : emax <= e -> B <= A) by (intros; apply Z.pow_le_mono_r; unfold emax, emin in *; lia).
  change (2 ^ prec) with 9007199254740992 in *.
  change (2 ^ 53) with 9007199254740992 in *.
  change (2 ^ 52) with 4503599627370496 in *.
  destruct (Z.eqb_spec m 9007199254740992) as [Hc | Hc].
  - change (2 ^ (prec - 1)) with (Z.pos 4503599627370496). cbv beta iota.
    destruct (Z.ltb_spec emax (e + 1)) as [G | G].
    + left. split; [reflexivity |]. rewrite Hc.
      apply Z.mul_le_mono_nonneg_l; [lia | apply Hge; lia].
    + right. cbn [rank is_nan exponent units]. unfold scaled.
      replace (e + 1 - emin) with (Z.succ (e - emin)) by lia.
      rewrite Z.pow_succ_r by lia. fold A. rewrite Hc.
      split; [reflexivity |]. split; [reflexivity |]. split; [lia |].
      split; [ring |].
      assert (9007199254740992 * (2 * A) <= 9007199254740992 * B)
        by (apply Z.mul_le_mono_nonneg_l; [lia | apply Hlt; lia]).
      lia.
  - destruct m as [| p | p]; [| | lia]; cbv beta iota.
    + right. cbn [rank is_nan exponent units].
      repeat split; try reflexivity; unfold emin; lia.
    + destruct (Z.ltb_spec emax e) as [G | G].
      * left. split; [reflexivity |].
        assert (4503599627370496 <= Z.pos p) by (apply Hnorm; unfold emax, emin in *; lia).
        assert (4503599627370496 * (2 * B) <= 4503599627370496 * A)
          by (apply Z.mul_le_mono_nonneg_l; [lia | apply Hgt; lia]).
        assert (4503599627370496 * A <= Z.pos p * A)
          by (apply Z.mul_le_mono_nonneg_r; lia).
        lia.
      * right. cbn [rank is_nan exponent units]. unfold scaled. fold A.
        split; [reflexivity |]. split; [reflexivity |]. split; [lia |].
        split; [reflexivity |].
        assert (Z.pos p * A <= 9007199254740991 * A)
          by (apply Z.mul_le_mono_nonneg_r; lia).
        assert (9007199254740991 * A <= 9007199254740991 * B)
          by (apply Z.mul_le_mono_nonneg_l; [lia | apply Hle; lia]).
        lia.
Qed.

(** The units of a larger fraction are not fewer. *)
Lemma rounded_units_mono n1 d1 n2 d2 :
  0 < n1 -> 0 < d1 -> 0 < n2 -> 0 < d2 -> n1 * d2 <= n2 * d1 ->
  rounded_units n1 d1 <= rounded_units n2 d2.
Proof.
  intros Hn1 Hd1 Hn2 Hd2 H.
  pose proof (ilog2_mono n1 d1 n2 d2 Hn1 Hd1 Hn2 Hd2 H) as K.
  destruct (rounding_facts n1 d1 Hn1 Hd1) as (Hd1' & Hn1' & Hub1 & _ & _).
  destruct (rounding_facts n2 d2 Hn2 Hd2) as (Hd2' & Hn2' & Hub2 & Hlb2 & _).
  unfold rounded_units, rounding_exponent.
  set (e1 := Z.max (ilog2 n1 d1 - (prec - 1)) emin) in *.
  set (e2 := Z.max (ilog2 n2 d2 - (prec - 1)) emin) in *.
  assert (He1 : emin <= e1) by (unfold e1; lia).
  assert (He : e1 <= e2) by (unfold e1, e2; lia).
  destruct (Z.eq_dec e1 e2) as [E | N].
  - rewrite <- E in *. apply Z.mul_le_mono_nonneg_r; [apply Z.pow_nonneg; lia |].
    apply rne_mono; auto.
    pose proof (p2_pos e1). pose proof (p2_pos (- e1)).
    replace (n1 * p2 (- e1) * (d2 * p2 e1)) with (n1 * d2 * (p2 e1 * p2 (- e1))) by ring.
    replace (n2 * p2 (- e1) * (d1 * p2 e1)) with (n2 * d1 * (p2 e1 * p2 (- e1))) by ring.
    apply Z.mul_le_mono_nonneg_r; [| exact H]. apply Z.lt_le_incl, Z.mul_pos_pos; lia.
  - assert (M1 : rne (n1 * p2 (- e1)) (d1 * p2 e1) <= 2 ^ 53)
      by (apply (rne_bounds _ _ 0 (2 ^ 53)); auto; lia).
    assert (M2 : 2 ^ 52 <= rne (n2 * p2 (- e2)) (d2 * p2 e2)).
    { apply (rne_bounds _ _ (2 ^ 52) (2 ^ 53)); auto.
      apply Hlb2. unfold e2, prec in *. lia. }
    set (m1 := rne (n1 * p2 (- e1)) (d1 * p2 e1)) in *.
    set (m2 := rne (n2 * p2 (- e2)) (d2 * p2 e2)) in *.
    assert (P : 2 * 2 ^ (e1 - emin) <= 2 ^ (e2 - emin)).
    { rewrite <- Z.pow_succ_r by lia. apply Z.pow_le_mono_r; lia. }
    assert (Q : 0 < 2 ^ (e1 - emin)) by (apply Z.pow_pos_nonneg; lia).
    assert (Q2 : 0 < 2 ^ (e2 - emin)) by (apply Z.pow_pos_nonneg; lia).
    change (2 ^ 53) with (2 * 2 ^ 52) in M1.
    assert (m1 * 2 ^ (e1 - emin) <= 2 * 2 ^ 52 * 2 ^ (e1 - emin))
      by (apply Z.mul_le_mono_nonneg_r; lia).
    assert (2 ^ 52 * (2 * 2 ^ (e1 - emin)) <= 2 ^ 52 * 2 ^ (e2 - emin))
      by (apply Z.mul_le_mono_nonneg_l; lia).
    assert (2 ^ 52 * 2 ^ (e2 - emin) <= m2 * 2 ^ (e2 - emin))
      by (apply Z.mul_le_mono_nonneg_r; lia).
    lia.
Qed.

Lemma leb_zero_not_negative s y : not_negative y -> leb (S754_zero s) y = true.
Proof.
  destruct y as [sy | sy | | sy my ey]; cbn [not_negative]; intros H;
    try contradiction; subst; reflexivity.
Qed.

Lemma leb_infinity x : is_nan x = false -> leb x (S754_infinity false) = true.
Proof. destruct x as [s | [|] | | s m e]; try discriminate; reflexivity. Qed.

(** Rounding is monotone on the non-negative fractions. *)
Lemma round_ratio_mono n1 d1 n2 d2 :
  0 <= n1 -> 0 < d1 -> 0 <= n2 -> 0 < d2 -> n1 * d2 <= n2 * d1 ->
  leb (round_ratio false n1 d1) (round_ratio false n2 d2) = true.
Proof.
  intros Hn1 Hd1 Hn2 Hd2 H.
  destruct (Z.eq_dec n1 0) as [-> | N1].
  { apply leb_zero_not_negative. apply round_ratio_not_negative. }
  assert (P1 : 0 < n1) by lia.
  assert (P2 : 0 < n2).
  { destruct (Z.eq_dec n2 0) as [-> | ?]; [| lia].
    assert (0 < n1 * d2) by (apply Z.mul_pos_pos; lia). lia. }
  pose proof (rounded_units_mono n1 d1 n2 d2 P1 Hd1 P2 Hd2 H) as V.
  destruct (round_ratio_units n1 d1 P1 Hd1) as [[-> O1] | (R1 & N1' & E1 & U1 & O1)];
    destruct (round_ratio_units n2 d2 P2 Hd2) as [[-> O2] | (R2 & N2' & E2 & U2 & O2)].
  - reflexivity.
  - lia.
  - apply leb_infinity. exact N1'.
  - unfold leb. rewrite (compare_order emin) by assumption.
    unfold order. rewrite R1, R2, U1, U2. cbn [Z.compare].
    destruct (Z.compare_spec (rounded_units n1 d1) (rounded_units n2 d2));
      try reflexivity; lia.
Qed.

(** *** Signs and opposites *)

Lemma round_ratio_opp s n d : round_ratio (negb s) n d = opp (round_ratio s n d).
Proof.
  unfold round_ratio. destruct (n <=? 0); [reflexivity |].
  destruct (shift_ratio n d _) as [n' d'].
  destruct (rne n' d' =? 2 ^ prec); cbv beta iota.
  - destruct (2 ^ (prec - 1)); try reflexivity. destruct (emax <? _); reflexivity.
  - destruct (rne n' d'); try reflexivity. destruct (emax <? _); reflexivity.
Qed.

Lemma round_ratio_sign s n d :
  is_nan (round_ratio s n d) = false /\ sign_bit (round_ratio s n d) = s.
Proof.
  unfold round_ratio. destruct (n <=? 0); [split; reflexivity |].
  destruct (shift_ratio n d _) as [n' d'].
  destruct (rne n' d' =? 2 ^ prec); cbv beta iota.
  - destruct (2 ^ (prec - 1)); try (split; reflexivity).
    destruct (emax <? _); split; reflexivity.
  - destruct (rne n' d'); try (split; reflexivity).
    destruct (emax <? _); split; reflexivity.
Qed.

Lemma opp_involutive x : opp (opp x) = x.
Proof. destruct x as [s | s | | s m e]; cbn [opp]; rewrite ?negb_involutive; reflexivity. Qed.

Lemma compare_opp_opp x y : compare (opp x) (opp y) = compare y x.
Proof.
  destruct x as [sx | sx | | sx mx ex], y as [sy | sy | | sy my ey]; cbn [opp compare];
    try reflexivity; try (destruct sx; reflexivity); try (destruct sy; reflexivity);
    try (destruct sx, sy; reflexivity).
  rewrite (Z.min_comm ey ex). f_equal. unfold scaled.
  set (a := Z.pos mx * 2 ^ (ex - Z.min ex ey)).
  set (b := Z.pos my * 2 ^ (ey - Z.min ex ey)).
  destruct sx, sy; cbn [negb];
    match goal with
    | |- (?p ?= ?q) = (?r ?= ?t) =>
        destruct (Z.compare_spec p q), (Z.compare_spec r t)
    end; try reflexivity; lia.
Qed.

Lemma leb_opp x y : leb (opp x) (opp y) = leb y x.
Proof. unfold leb. rewrite compare_opp_opp. reflexivity. Qed.

Lemma leb_signs x y :
  is_nan x = false -> is_nan y = false ->
  sign_bit x = true -> sign_bit y = false -> leb x y = true.
Proof.
  destruct x as [sx | sx | | sx mx ex], y as [sy | sy | | sy my ey];
    cbn [is_nan sign_bit]; intros Nx Ny Sx Sy; subst; try discriminate; try reflexivity.
  unfold leb, compare.
  pose proof (scaled_sign true mx ex (Z.min ex ey) ltac:(lia)) as A.
  pose proof (scaled_sign false my ey (Z.min ex ey) ltac:(lia)) as B.
  cbv beta iota in A, B.
  destruct (Z.compare_spec (scaled true mx ex (Z.min ex ey))
              (scaled false my ey (Z.min ex ey))); try reflexivity; lia.
Qed.

Lemma leb_negative_infinity x : is_nan x = false -> leb (S754_infinity true) x = true.
Proof. destruct x as [s | [|] | | s m e]; try discriminate; reflexivity. Qed.

Lemma leb_to_zero x s :
  is_nan x = false -> sign_bit x = true -> leb x (S754_zero s) = true.
Proof.
  destruct x as [sx | sx | | sx mx ex]; cbn [is_nan sign_bit]; intros N S; subst;
    try discriminate; reflexivity.
Qed.

(** A number with the sign bit clear is below one with the sign bit set
    only when both are zeros. *)
Lemma leb_signs_zero x y :
  sign_bit x = false -> sign_bit y = true -> leb x y = true ->
  exists sx sy, x = S754_zero sx /\ y = S754_zero sy.
Proof.
  destruct x as [sx | sx | | sx mx ex], y as [sy | sy | | sy my ey];
    cbn [sign_bit]; intros Sx Sy; subst; try discriminate;
    try (intros _; do 2 eexists; split; reflexivity).
  unfold leb, compare.
  pose proof (scaled_sign false mx ex (Z.min ex ey) ltac:(lia)) as A.
  pose proof (scaled_sign true my ey (Z.min ex ey) ltac:(lia)) as B.
  cbv beta iota in A, B.
  destruct (Z.compare_spec (scaled false mx ex (Z.min ex ey))
              (scaled true my ey (Z.min ex ey))); try discriminate; lia.
Qed.

(** *** Multiplication by a positive number is monotone *)

Lemma p2_cross a b c :
  c <= a -> c <= b -> p2 a * p2 (- b) * 2 ^ (b - c) = p2 b * p2 (- a) * 2 ^ (a - c).
Proof.
  intros Ha Hb.
  destruct (Z.le_gt_cases 0 a), (Z.le_gt_cases 0 b);
    repeat match goal with
           | |- context [p2 ?k] =>
               first [ rewrite (p2_of_nonneg k) by lia | rewrite (p2_of_nonpos k) by lia ]
           end;
    rewrite ?Z.mul_1_r, ?Z.mul_1_l, <- ?Z.pow_add_r by lia; f_equal; lia.
Qed.

Lemma mul_opp x m e :
  mul (opp x) (S754_finite false m e) = opp (mul x (S754_finite false m e)).
Proof.
  destruct x as [s | s | | s mx ex]; cbn [opp mul]; rewrite ?xorb_false_r; try reflexivity.
  destruct (exact _ _) as [n d]. apply round_ratio_opp.
Qed.

Lemma mul_sign x m e :
  is_nan x = false ->
  is_nan (mul x (S754_finite false m e)) = false
  /\ sign_bit (mul x (S754_finite false m e)) = sign_bit x.
Proof.
  destruct x as [s | s | | s mx ex]; cbn [is_nan mul sign_bit]; intros N;
    try discriminate; rewrite ?xorb_false_r; try (split; reflexivity).
  destruct (exact _ _) as [n d]. apply round_ratio_sign.
Qed.

Lemma mul_mono_positive m1 e1 m2 e2 m e :
  leb (S754_finite false m1 e1) (S754_finite false m2 e2) = true ->
  leb (mul (S754_finite false m1 e1) (S754_finite false m e))
      (mul (S754_finite false m2 e2) (S754_finite false m e)) = true.
Proof.
  intros H. unfold mul, exact. cbn [xorb].
  pose proof (p2_pos (e1 + e)). pose proof (p2_pos (- (e1 + e))).
  pose proof (p2_pos (e2 + e)). pose proof (p2_pos (- (e2 + e))).
  apply round_ratio_mono; try lia.
  unfold leb, compare, scaled in H.
  set (c := Z.min e1 e2) in *.
  assert (L : Z.pos m1 * 2 ^ (e1 - c) <= Z.pos m2 * 2 ^ (e2 - c)).
  { destruct (Z.compare_spec (Z.pos m1 * 2 ^ (e1 - c)) (Z.pos m2 * 2 ^ (e2 - c)));
      try discriminate; lia. }
  pose proof (p2_cross (e1 + e) (e2 + e) (c + e) ltac:(unfold c; lia) ltac:(unfold c; lia))
    as I.
  replace (e2 + e - (c + e)) with (e2 - c) in I by lia.
  replace (e1 + e - (c + e)) with (e1 - c) in I by lia.
  set (K1 := p2 (e1 + e) * p2 (- (e2 + e))) in *.
  set (K2 := p2 (e2 + e) * p2 (- (e1 + e))) in *.
  set (S1 := 2 ^ (e1 - c)) in *. set (S2 := 2 ^ (e2 - c)) in *.
  assert (HS2 : 0 < S2) by (apply Z.pow_pos_nonneg; unfold c; lia).
  assert (HK2 : 0 < K2) by (apply Z.mul_pos_pos; lia).
  replace (Z.pos m1 * Z.pos m * p2 (e1 + e) * p2 (- (e2 + e)))
    with (Z.pos m * (Z.pos m1 * K1)) by (unfold K1; ring).
  replace (Z.pos m2 * Z.pos m * p2 (e2 + e) * p2 (- (e1 + e)))
    with (Z.pos m * (Z.pos m2 * K2)) by (unfold K2; ring).
  apply Z.mul_le_mono_nonneg_l; [lia |].
  apply (Z.mul_le_mono_pos_r _ _ S2); [exact HS2 |].
  replace (Z.pos m1 * K1 * S2) with (K2 * (Z.pos m1 * S1))
    by (rewrite <- Z.mul_assoc, I; ring).
  replace (Z.pos m2 * K2 * S2) with (K2 * (Z.pos m2 * S2)) by ring.
  apply Z.mul_le_mono_nonneg_l; lia.
Qed.

Lemma mul_mono_nonneg x1 x2 m e :
  sign_bit x1 = false -> sign_bit x2 = false -> leb x1 x2 = true ->
  leb (mul x1 (S754_finite false m e)) (mul x2 (S754_finite false m e)) = true.
Proof.
  intros S1 S2 H. destruct (leb_not_nan _ _ H) as [N1 N2].
  destruct x1 as [s1 | s1 | | s1 m1 e1]; cbn [sign_bit is_nan] in S1, N1; subst;
    try discriminate.
  - apply leb_zero_not_negative. apply mul_not_negative.
    destruct x2; cbn [sign_bit is_nan not_negative] in *; subst; try discriminate; reflexivity.
  - destruct x2 as [s2 | s2 | | s2 m2 e2]; cbn [sign_bit] in S2; subst;
      try discriminate; reflexivity.
  - destruct x2 as [s2 | s2 | | s2 m2 e2]; cbn [sign_bit] in S2; subst;
      try discriminate.
    + apply leb_infinity. apply mul_sign. reflexivity.
    + apply mul_mono_positive. exact H.
Qed.

Lemma mul_mono x1 x2 m e :
  leb x1 x2 = true ->
  leb (mul x1 (S754_finite false m e)) (mul x2 (S754_finite false m e)) = true.
Proof.
  intros H. destruct (leb_not_nan _ _ H) as [N1 N2].
  destruct (mul_sign x1 m e N1) as [M1 T1]. destruct (mul_sign x2 m e N2) as [M2 T2].
  destruct (sign_bit x1) eqn:S1, (sign_bit x2) eqn:S2.
  - rewrite <- leb_opp, <- !mul_opp.
    apply mul_mono_nonneg.
    + destruct x2; cbn [sign_bit opp] in *; subst; try discriminate; reflexivity.
    + destruct x1; cbn [sign_bit opp] in *; subst; try discriminate; reflexivity.
    + rewrite leb_opp. exact H.
  - apply leb_signs; assumption.
  - destruct (leb_signs_zero x1 x2 S1 S2 H) as (s1 & s2 & -> & ->). reflexivity.
  - apply mul_mono_nonneg; assumption.
Qed.

(** *** [Math.round] is monotone *)

Lemma of_Z_mono a b : a <= b -> leb (of_Z a) (of_Z b) = true.
Proof.
  intros H. unfold of_Z.
  destruct (Z.ltb_spec a 0) as [A | A], (Z.ltb_spec b 0) as [B | B].
  - change true with (negb false). rewrite !round_ratio_opp, leb_opp.
    apply round_ratio_mono; lia.
  - apply leb_signs; apply round_ratio_sign.
  - lia.
  - apply round_ratio_mono; lia.
Qed.

Lemma of_Z_sign a :
  is_nan (of_Z a) = false /\ sign_bit (of_Z a) = (a <? 0).
Proof. apply round_ratio_sign. Qed.

(** [Math.round] of a zero or finite number is the number of the integer
    [rounded_integer], or a zero with the sign of the argument. *)
Lemma Math_round_integer x :
  canonical x -> rank x = 0 -> is_nan x = false ->
  Math_round x
  = if rounded_integer x =? 0 then S754_zero (sign_bit x) else of_Z (rounded_integer x).
Proof.
  destruct x as [s | [|] | | s m e]; cbn [canonical rank is_nan]; intros C R N;
    try discriminate.
  - reflexivity.
  - assert (He : emin <= e <= emax)
      by (destruct C as [[_ ?] | [_ ->]]; unfold emin, emax in *; lia).
    unfold rounded_integer. cbn [units sign_bit Math_round]. unfold scaled.
    set (c := 2 ^ (e - emin)).
    assert (Hc : 0 < c) by (apply Z.pow_pos_nonneg; lia).
    set (z := if s then Z.neg m else Z.pos m).
    assert (Ez : (if s then - (Z.pos m * c) else Z.pos m * c) = z * c)
      by (unfold z; destruct s; lia).
    rewrite Ez. clear Ez.
    destruct (Z.leb_spec 0 e) as [G | G].
    + assert (Ec : c = 2 ^ e * 2 ^ (- emin)).
      { unfold c. rewrite <- Z.pow_add_r by (unfold emin; lia). f_equal; lia. }
      assert (Pe : 0 < 2 ^ e) by (apply Z.pow_pos_nonneg; lia).
      assert (Q : (2 * (z * c) + 2 ^ (- emin)) / 2 ^ (- emin + 1) = z * 2 ^ e).
      { replace (- emin + 1) with (Z.succ (- emin)) by lia.
        rewrite Z.pow_succ_r by (unfold emin; lia). rewrite Ec.
        replace (2 * (z * (2 ^ e * 2 ^ (- emin))) + 2 ^ (- emin))
          with ((2 * (z * 2 ^ e) + 1) * 2 ^ (- emin)) by ring.
        rewrite Z.div_mul_cancel_r by
          (try lia; apply Z.pow_nonzero; unfold emin; lia).
        symmetry. apply (Z.div_unique _ _ _ 1); lia. }
      rewrite Q.
      assert (Hz : z * 2 ^ e <> 0 /\ (z * 2 ^ e <? 0) = s /\ Z.abs (z * 2 ^ e) = Z.pos m * 2 ^ e).
      { unfold z. destruct s.
        - assert (Z.neg m * 2 ^ e < 0) by (apply Z.mul_neg_pos; lia).
          split; [lia |]. split; [apply Z.ltb_lt; assumption |]. lia.
        - assert (0 < Z.pos m * 2 ^ e) by (apply Z.mul_pos_pos; lia).
          split; [lia |]. split; [apply Z.ltb_ge; lia |]. lia. }
      destruct Hz as (Z0 & Zs & Za).
      destruct (Z.eqb_spec (z * 2 ^ e) 0); [contradiction |].
      unfold of_Z. rewrite Zs, Za.
      rewrite (round_ratio_exact s _ 1 (Z.pos m) e); [reflexivity | lia | exact C |].
      rewrite (p2_of_nonneg e), (p2_of_nonpos (- e)) by lia. ring.
    + assert (Q : (2 * (z * c) + 2 ^ (- emin)) / 2 ^ (- emin + 1)
                  = (2 * z + 2 ^ (- e)) / 2 ^ (- e + 1)).
      { assert (E1 : 2 ^ (- emin) = 2 ^ (- e) * c).
        { unfold c. rewrite <- Z.pow_add_r by lia. f_equal; lia. }
        assert (E2 : 2 ^ (- emin + 1) = 2 ^ (- e + 1) * c).
        { unfold c. rewrite <- Z.pow_add_r by lia. f_equal; lia. }
        rewrite E2, E1.
        replace (2 * (z * c) + 2 ^ (- e) * c) with ((2 * z + 2 ^ (- e)) * c) by ring.
        apply Z.div_mul_cancel_r; [apply Z.pow_nonzero; lia | lia]. }
      rewrite Q. unfold z. destruct s; reflexivity.
Qed.

Lemma rounded_integer_mono x1 x2 :
  units emin x1 <= units emin x2 -> rounded_integer x1 <= rounded_integer x2.
Proof.
  intros H. unfold rounded_integer. apply Z.div_le_mono; [| lia].
  apply Z.pow_pos_nonneg; [lia | unfold emin; lia].
Qed.

Lemma Math_round_not_nan x : is_nan x = false -> is_nan (Math_round x) = false.
Proof.
  destruct x as [s | s | | s m e]; cbn [is_nan Math_round]; intros N;
    try discriminate; try reflexivity.
  destruct (0 <=? e); [reflexivity |]. destruct (_ =? 0); [reflexivity |].
  apply of_Z_sign.
Qed.

Lemma canonical_exponent x : canonical x -> emin <= exponent x.
Proof.
  destruct x as [s | s | | s m e]; cbn [canonical exponent]; unfold emin; try lia.
  intros [[_ ?] | [_ ->]]; unfold emin in *; lia.
Qed.

Lemma Math_round_mono x1 x2 :
  canonical x1 -> canonical x2 -> leb x1 x2 = true ->
  leb (Math_round x1) (Math_round x2) = true.
Proof.
  intros C1 C2 H. destruct (leb_not_nan _ _ H) as [N1 N2].
  pose proof (Math_round_not_nan x1 N1) as M1.
  pose proof (Math_round_not_nan x2 N2) as M2.
  destruct (Z.eq_dec (rank x1) 0) as [R1 | R1]; [destruct (Z.eq_dec (rank x2) 0) as [R2 | R2] |].
  - assert (U : units emin x1 <= units emin x2).
    { unfold leb in H.
      rewrite (compare_order emin) in H by (auto using canonical_exponent).
      unfold order in H. rewrite R1, R2 in H. cbn [Z.compare] in H.
      destruct (Z.compare_spec (units emin x1) (units emin x2)); try discriminate; lia. }
    apply rounded_integer_mono in U.
    rewrite (Math_round_integer x1 C1 R1 N1), (Math_round_integer x2 C2 R2 N2).
    destruct (Z.eqb_spec (rounded_integer x1) 0) as [Z1 | Z1],
             (Z.eqb_spec (rounded_integer x2) 0) as [Z2 | Z2].
    + reflexivity.
    + apply leb_zero_not_negative.
      destruct (of_Z_sign (rounded_integer x2)) as [A B].
      replace (rounded_integer x2 <? 0) with false in B by (symmetry; apply Z.ltb_ge; lia).
      destruct (of_Z (rounded_integer x2)); cbn in *; try discriminate; assumption.
    + destruct (of_Z_sign (rounded_integer x1)) as [A B].
      replace (rounded_integer x1 <? 0) with true in B by (symmetry; apply Z.ltb_lt; lia).
      apply leb_to_zero; assumption.
    + apply of_Z_mono. exact U.
  - destruct x2 as [s2 | [|] | | s2 m2 e2]; cbn [rank] in R2; try lia; try discriminate.
    + destruct x1 as [s1 | [|] | | s1 m1 e1]; try discriminate; reflexivity.
    + apply leb_infinity. exact M1.
  - destruct x1 as [s1 | [|] | | s1 m1 e1]; cbn [rank] in R1; try lia; try discriminate.
    + apply leb_negative_infinity. exact M2.
    + destruct x2 as [s2 | [|] | | s2 m2 e2]; try discriminate; reflexivity.
Qed.

End Monotone.

(** X23. A longer route never gets a shorter estimate: for every mode,
    [estimateTime] is monotone in the distance for the order of the
    numbers, over all numbers that can be compared (zeros, negative values
    and infinities included). *)
Theorem estimateTime_monotone mode d1 d2 :
  leb d1 d2 = true -> leb (estimateTime d1 mode) (estimateTime d2 mode) = true.
Proof.
  intros H. unfold estimateTime.
  assert (P : exists m e,
             match mode with
             | walk => dec 115 1
             | jog => dec 65 1
             | hike => dec 105 1
             | run => dec 52 1
             end = S754_finite false m e)
    by (destruct mode; vm_compute; do 2 eexists; reflexivity).
  destruct P as (m & e & ->).
  change (dec 10 1) with one.
  rewrite !div_one by apply mul_canonical.
  apply Math_round_mono; try apply mul_canonical. apply mul_mono. exact H.
Qed.

(** ** The estimate of a coach route on display *)

Section EtaOfRoute.

Context {RT : Runtime}.

Lemma not_negative_units x : not_negative x -> (0 <= units emin x)%Z.
Proof.
  destruct x as [s | s | | s m e]; cbn [not_negative units]; intros H;
    try contradiction; subst; try lia.
  unfold scaled. apply Z.mul_nonneg_nonneg; [lia | apply Z.pow_nonneg; lia].
Qed.

(** The rounded product of a non-negative number, bounded by [limit], with
    a positive number is the number of a whole number. *)
Lemma rounded_product d limit m e :
  not_negative d -> leb d limit = true ->
  rank (mul limit (S754_finite false m e)) = 0%Z ->
  (rounded_integer (mul limit (S754_finite false m e)) < 2 ^ 53)%Z ->
  exists n, (0 <= n < 2 ^ 53)%Z
            /\ Math_round (mul d (S754_finite false m e)) = of_Z n.
Proof.
  intros Hd Hl Hr Hb.
  pose proof (mul_mono d limit m e Hl) as L.
  pose proof (mul_not_negative d m e Hd) as P.
  pose proof (mul_canonical d (S754_finite false m e)) as C.
  pose proof (mul_canonical limit (S754_finite false m e)) as C0.
  set (y := mul d (S754_finite false m e)) in *.
  set (y0 := mul limit (S754_finite false m e)) in *.
  destruct (leb_not_nan _ _ L) as [N N0].
  assert (R : rank y = 0%Z).
  { destruct y as [s | s | | s my ey]; cbn [not_negative] in P; try contradiction;
      try reflexivity. subst s.
    clear Hb.
    destruct y0 as [s0 | [|] | | s0 m0 e0]; cbn [rank] in Hr;
      first [discriminate Hr | discriminate L | discriminate N0]. }
  assert (U : (units emin y <= units emin y0)%Z).
  { unfold leb in L.
    rewrite (compare_order emin) in L by (auto using canonical_exponent).
    unfold order in L. rewrite R, Hr in L. cbn [Z.compare] in L.
    destruct (Z.compare_spec (units emin y) (units emin y0)); try discriminate; lia. }
  exists (rounded_integer y). split.
  - split; [| apply rounded_integer_mono in U; lia].
    assert (Z0 : rounded_integer (S754_zero false) = 0%Z) by (vm_compute; reflexivity).
    rewrite <- Z0. apply rounded_integer_mono. apply (not_negative_units y P).
  - rewrite (Math_round_integer y C R N).
    destruct (Z.eqb_spec (rounded_integer y) 0) as [-> | _]; [| reflexivity].
    destruct y; cbn [not_negative sign_bit] in *; try contradiction; subst; reflexivity.
Qed.

(** X24. The estimate of a route is a whole number of minutes that
    [formatEta] shows exactly: for every mode and every distance that is
    not negative and at most [10^12] km, [estimateTime] returns the number
    of an integer [n] with [0 <= n < 2^53], and the text on display is
    "n min" when [n < 60] and otherwise [n / 60] hours and [n mod 60]
    minutes in two places. *)
Theorem estimate_displayed_exactly d mode :
  not_negative d -> leb d (of_Z (10 ^ 12)) = true ->
  exists n,
    (0 <= n < 2 ^ 53)%Z
    /\ estimateTime d mode = of_Z n
    /\ formatEta (estimateTime d mode)
       = if (n <? 60)%Z then Number_toString (of_Z n) ++ js " min"
         else Number_toString (of_Z (n / 60)) ++ js "h "
                ++ padStart (Number_toString (of_Z (n mod 60))) 2 48%N ++ js "m".
Proof.
  intros Hd Hl. unfold estimateTime. change (dec 10 1) with one.
  rewrite div_one by apply mul_canonical.
  assert (P : exists n, (0 <= n < 2 ^ 53)%Z
                        /\ Math_round
                             (mul d match mode with
                                    | walk => dec 115 1
                                    | jog => dec 65 1
                                    | hike => dec 105 1
                                    | run => dec 52 1
                                    end) = of_Z n).
  { destruct mode;
      match goal with
      | |- context [mul d ?p] =>
          let v := eval vm_compute in p in
          replace p with v by (vm_compute; reflexivity)
      end;
      apply (rounded_product d (of_Z (10 ^ 12))); auto;
      try (vm_compute; reflexivity); apply Z.ltb_lt; vm_compute; reflexivity. }
  destruct P as (n & Hn & E).
  exists n. split; [exact Hn |]. split; [exact E |]. rewrite E.
  pose proof (Z.div_mod n 60 ltac:(lia)) as D.
  pose proof (Z.mod_pos_bound n 60 ltac:(lia)) as M.
  assert (Q : (0 <= n / 60)%Z) by (apply Z.div_pos; lia).
  rewrite D at 1. rewrite formatEta_parts by (auto; lia).
  destruct (Z.ltb_spec n 60) as [L | L].
  - rewrite Z.div_small, Z.mod_small by lia. reflexivity.
  - destruct (Z.eqb_spec (n / 60) 0) as [E0 | _]; [| reflexivity].
    rewrite E0 in D. lia.
Qed.

End EtaOfRoute.

(** ** The further properties on concrete inputs *)

Lemma parsePrompt_mode_priority_witness :
  Parsed.mode (parsePrompt (RT := reference_runtime) (js "correr por un sendero") walk) = run.
Proof.
  destruct (parsePrompt_mode_priority (RT := reference_runtime)
              (js "correr por un sendero") walk) as [H _].
  apply H. left. exists [], (js " por un sendero"). vm_compute. reflexivity.
Defined.

Lemma parsePrompt_intent_focus_priority_witness :
  Parsed.intent (parsePrompt (RT := reference_runtime) (js "series a ritmo") walk) = intervals.
Proof.
  destruct (parsePrompt_intent_focus_priority (RT := reference_runtime)
              (js "series a ritmo") walk) as [[H _] _].
  apply H. right. exists [], (js " a ritmo"). vm_compute. reflexivity.
Defined.

Lemma handleCoachPlan_blank_witness :
  handleCoachPlan (RT := reference_runtime) (js "   ") initialState = initialState.
Proof.
  apply (handleCoachPlan_blank (RT := reference_runtime)).
  repeat constructor.
Defined.

Lemma handleCoachPlan_activates_witness :
  exists r,
    activeRoute (handleCoachPlan (RT := reference_runtime) (js "10 km") initialState) = Some r
    /\ RouteOption.id r = js "coach-run-100".
Proof.
  assert (H : trim (js "10 km") <> []) by (vm_compute; discriminate).
  destruct (handleCoachPlan_activates (RT := reference_runtime) (js "10 km") initialState H)
    as (_ & A & _).
  eexists. split; [exact A | vm_compute; reflexivity].
Defined.

Lemma active_route_listed_witness :
  exists r,
    activeRoute
      (step (RT := reference_runtime)
         (step (RT := reference_runtime) initialState (CoachPlan (js "10 km")))
         (SelectMode walk)) = Some r
    /\ RouteOption.id r = js "walk-daily".
Proof.
  destruct (active_route_listed (RT := reference_runtime)
              (step (RT := reference_runtime)
                 (step (RT := reference_runtime) initialState (CoachPlan (js "10 km")))
                 (SelectMode walk)))
    as (r & A & _ & B).
  - apply reachable_step; [apply reachable_step; [apply reachable_initial | exact I] | exact I].
  - exists r. split; [exact A |]. rewrite B. vm_compute. reflexivity.
Defined.

Lemma step_index_in_range_witness :
  (PlanState.currentStepIndex
     (step (RT := reference_runtime)
         (step (RT := reference_runtime) initialState (CoachPlan (js "10 km")))
        (StepChange 3))
   < 4)%nat.
Proof.
  apply (step_index_in_range (RT := reference_runtime)
           (step (RT := reference_runtime)
              (step (RT := reference_runtime) initialState (CoachPlan (js "10 km")))
              (StepChange 3))).
  apply reachable_step; [apply reachable_step; [apply reachable_initial | exact I] |].
  vm_compute. apply le_n.
Defined.

Lemma buildRouteGeo_bounds_witness :
  exists geo,
    buildRouteGeo (RT := reference_runtime) walk_daily = Some geo
    /\ (forall p,
          In p [ pt 16 84 (Some (js "Inicio")); pt 38 70 None; pt 60 60 None;
                 pt 82 34 (Some (js "Fin")) ] ->
          leb (fst (RouteGeo.sw geo)) (fst (geo_coordinate p)) = true
          /\ leb (fst (geo_coordinate p)) (fst (RouteGeo.ne geo)) = true
          /\ leb (snd (RouteGeo.sw geo)) (snd (geo_coordinate p)) = true
          /\ leb (snd (geo_coordinate p)) (snd (RouteGeo.ne geo)) = true)
    /\ (exists p, In p (RouteOption.points walk_daily)
          /\ compare (fst (RouteGeo.sw geo)) (fst (geo_coordinate p)) = Some Eq)
    /\ (exists p, In p (RouteOption.points walk_daily)
          /\ compare (snd (RouteGeo.sw geo)) (snd (geo_coordinate p)) = Some Eq)
    /\ (exists p, In p (RouteOption.points walk_daily)
          /\ compare (fst (RouteGeo.ne geo)) (fst (geo_coordinate p)) = Some Eq)
    /\ (exists p, In p (RouteOption.points walk_daily)
          /\ compare (snd (RouteGeo.ne geo)) (snd (geo_coordinate p)) = Some Eq).
Proof.
  apply (buildRouteGeo_bounds (RT := reference_runtime) walk_daily).
  - discriminate.
  - intros p Hp. cbn [walk_daily hd ByMode.get baseRoutes RouteOption.points In] in Hp.
    repeat (destruct Hp as [<- | Hp]; [split; reflexivity |]). destruct Hp.
Defined.

Lemma buildRouteGeo_labels_witness :
  exists geo f0 f1 f2 f3,
    buildRouteGeo (RT := reference_runtime) sparse_route = Some geo
    /\ RouteGeo.line_title geo = js "Sparse"
    /\ map (nth_error (RouteGeo.points geo)) [0; 1; 2; 3]%nat
       = [Some f0; Some f1; Some f2; Some f3]
    /\ map Feature.label [f0; f1; f2; f3]
       = [ js "Inicio"; js "Mirador"; js "P3"; js "Fin" ].
Proof.
  destruct (buildRouteGeo_labels (RT := reference_runtime) sparse_route)
    as (geo & E & T & L).
  - discriminate.
  - destruct (L 0%nat _ eq_refl) as (f0 & F0 & _ & D0).
    destruct (L 1%nat _ eq_refl) as (f1 & F1 & D1 & _).
    destruct (L 2%nat _ eq_refl) as (f2 & F2 & _ & D2).
    destruct (L 3%nat _ eq_refl) as (f3 & F3 & _ & D3).
    exists geo, f0, f1, f2, f3. split; [exact E |]. split; [exact T |].
    cbn [map]. rewrite F0, F1, F2, F3. split; [reflexivity |].
    destruct (D0 eq_refl) as (I & _ & _).
    destruct (D2 eq_refl) as (_ & _ & M).
    destruct (D3 eq_refl) as (_ & Z & _).
    rewrite (I eq_refl), (D1 _ eq_refl), (Z eq_refl (Nat.lt_0_succ 2)).
    rewrite M by (cbn; lia).
    reflexivity.
Defined.

Lemma formatEta_hours_minutes_witness :
  formatEta (RT := reference_runtime) (of_Z 125) = js "2h 05m".
Proof.
  rewrite (formatEta_hours_minutes (RT := reference_runtime) 125).
  - vm_compute. reflexivity.
  - split; [lia | reflexivity].
Defined.

Lemma formatDistance_one_decimal_witness :
  formatDistance (RT := reference_runtime) (dec 84 1) = js "8.4 km".
Proof.
  rewrite (formatDistance_one_decimal (RT := reference_runtime) 84).
  - vm_compute. reflexivity.
  - split; [lia | reflexivity].
Defined.

Lemma parsePrompt_case_insensitive_witness :
  parsePrompt (RT := reference_runtime) (js "7 KM en PARQUE") run
  = parsePrompt (RT := reference_runtime) (js "7 km en parque") run.
Proof.
  apply (parsePrompt_case_insensitive (RT := reference_runtime)).
  - exact reference_lowers_ascii.
  - vm_compute. repeat constructor.
  - vm_compute. repeat constructor.
  - vm_compute. reflexivity.
Defined.

Lemma coach_id_tenths_witness :
  RouteOption.id (buildRouteFromPrompt (RT := reference_runtime) (dec 75 1) jog (js "Parques"))
  = js "coach-jog-75".
Proof.
  rewrite (coach_id_tenths (RT := reference_runtime) 75).
  - vm_compute. reflexivity.
  - split; [lia | reflexivity].
Defined.

Lemma estimateTime_monotone_witness :
  leb (estimateTime (of_Z 5) run) (estimateTime (dec 51 1) run) = true.
Proof.
  apply estimateTime_monotone. vm_compute. reflexivity.
Defined.

Lemma estimate_displayed_exactly_witness :
  exists n, (0 <= n < 2 ^ 53)%Z /\ estimateTime (of_Z 10) run = of_Z n.
Proof.
  destruct (estimate_displayed_exactly (RT := reference_runtime) (of_Z 10) run)
    as (n & Hn & E & _).
  - reflexivity.
  - vm_compute. reflexivity.
  - exists n. split; [exact Hn | exact E].
Defined.
